(** * OmniHelper.js: the data-transformation core

    A shallow embedding of the functions of [src/OmniHelper.js] that
    traverse and rebuild plain data ([OmniHelper.Data] and
    [OmniHelper.Utils]), over an explicit store of JavaScript objects.

    - [JS]    : the fragment of the JavaScript runtime those functions use
                (values, the object store, property reads and writes in
                strict mode, truthiness, [===], [<], stable [sort]).
    - [Utils] : [isObject], [deepClone], [deepMerge], [get], [set], [isEqual],
                [pick], [omit], [delete], [has], [isEmpty], [unique],
                [chunk], [compact], [keyBy], [truncate], [pad],
                [escapeHtml], [unescapeHtml].
    - [Data]  : [flatten], [flattenArray], [groupBy], [sortBy], [pluck],
                [reduce], [pipe], [map], [filter].

    The theorems follow the definitions. *)

From Stdlib Require Import ZArith NArith String Ascii List Lia Bool.
From Stdlib Require Import Permutation Sorted.
From Stdlib Require Import Floats.SpecFloat.
From Stdlib Require OrderedTypeEx.
From stdpp Require Import base list strings.

Set Warnings "-register-all".

(* ===================================================================== *)
(** * The JavaScript runtime fragment *)
(* ===================================================================== *)

Module JS.

(** Numbers are IEEE-754 binary64 values; [spec_float] is their
    specification-level representation ([S754_nan] is [NaN]). *)
Abbreviation number := spec_float.

Definition Infinity : number := S754_infinity false.
Definition NaN : number := S754_nan.
Definition num_of_nat (n : nat) : number :=
  binary_normalize 53 1024 (Z.of_nat n) 0 false.

(** [x === y] on numbers: [NaN] differs from itself, [+0 === -0]. *)
Definition num_eqb (x y : number) : bool := SFeqb x y.
Definition num_ltb (x y : number) : bool := SFltb x y.

(** [c >= d] for a loop counter [c] (a small non-negative integer, exact
    as a double) and an arbitrary number [d]. *)
Definition nat_ge_num (c : nat) (d : number) : bool :=
  match d with
  | S754_nan => false
  | S754_infinity s => s
  | S754_zero _ => true
  | S754_finite true _ _ => true
  | S754_finite false m e =>
      if (0 <=? e)%Z then (Z.pos m * 2 ^ e <=? Z.of_nat c)%Z
      else (Z.pos m <=? Z.of_nat c * 2 ^ (- e))%Z
  end.

(** The non-negative integer a number denotes, when it is one below
    [2^32 - 1] (the array indices). *)
Definition num_to_index (x : number) : option nat :=
  match x with
  | S754_zero _ => Some 0
  | S754_finite false m e =>
      if (0 <=? e)%Z then
        let z := (Z.pos m * 2 ^ e)%Z in
        if (z <? 4294967295)%Z then Some (Z.to_nat z) else None
      else
        let d := (2 ^ (- e))%Z in
        if ((Z.pos m mod d =? 0) && (Z.pos m / d <? 4294967295))%Z
        then Some (Z.to_nat (Z.pos m / d)) else None
  | _ => None
  end.

(** ** Strings

    Strings are sequences of code units; the ones below 256 are modelled
    (Latin-1), on which [toLowerCase] maps A-Z and the accented capitals
    U+00C0..U+00DE (but the sign U+00D7) 32 places up. *)

Definition lower_unit (c : ascii) : ascii :=
  let n := N_of_ascii c in
  if ((65 <=? n) && (n <=? 90) || (192 <=? n) && (n <=? 222) && negb (n =? 215))%N
  then ascii_of_N (n + 32) else c.

Fixpoint toLowerCase (s : string) : string :=
  match s with
  | EmptyString => EmptyString
  | String c r => String (lower_unit c) (toLowerCase r)
  end.

(** [s.split(sep)] for a one-unit separator: never empty. *)
Fixpoint split (sep : ascii) (s : string) : list string :=
  match s with
  | EmptyString => [EmptyString]
  | String c r =>
      if Ascii.eqb c sep then EmptyString :: split sep r
      else match split sep r with
           | w :: ws => String c w :: ws
           | [] => [String c EmptyString]
           end
  end.

(** ** Property keys

    A property key is a string; the engine keeps the canonical array
    indices ("0", "1", ... below [2^32 - 1]) apart from the other names,
    and enumerates them first, in ascending order. *)

Inductive key := KIdx (i : nat) | KStr (s : string).

#[global] Instance key_eq_dec : EqDecision key.
Proof. solve_decision. Defined.

Definition digit_of (c : ascii) : option N :=
  let n := N_of_ascii c in
  if ((48 <=? n) && (n <=? 57))%N then Some (n - 48)%N else None.

Fixpoint digits_value (acc : N) (s : string) : option N :=
  match s with
  | EmptyString => Some acc
  | String c r =>
      match digit_of c with
      | Some d => digits_value (10 * acc + d)%N r
      | None => None
      end
  end.

Definition array_index (s : string) : option nat :=
  match s with
  | EmptyString => None
  | String c r =>
      if Ascii.eqb c "0" && negb (String.eqb r EmptyString) then None
      else match digits_value 0 s with
           | Some n => if (n <? 4294967295)%N then Some (N.to_nat n) else None
           | None => None
           end
  end.

(** ToPropertyKey of a string. *)
Definition to_key (s : string) : key :=
  match array_index s with
  | Some i => KIdx i
  | None => KStr s
  end.

(** ** Values and the object store *)

Abbreviation loc := nat (only parsing).

Inductive val :=
  | VUndef
  | VNull
  | VBool (b : bool)
  | VNum (x : number)
  | VStr (s : string)
  | VRef (l : loc).

#[global] Instance number_eq_dec : EqDecision number.
Proof. solve_decision. Defined.

#[global] Instance val_eq_dec : EqDecision val.
Proof. solve_decision. Defined.

(** An object is an array (dense), a plain object with its own enumerable
    properties in enumeration order, or a [Date] with its time value. *)
Inductive obj :=
  | OArr (items : list val)
  | OMap (props : list (key * val))
  | ODate (t : number).

Abbreviation heap := (list obj).

Inductive jstype := TUndefined | TObject | TBoolean | TNumber | TString.

Definition jstype_eqb (a b : jstype) : bool :=
  match a, b with
  | TUndefined, TUndefined | TObject, TObject | TBoolean, TBoolean
  | TNumber, TNumber | TString, TString => true
  | _, _ => false
  end.

Definition typeof (v : val) : jstype :=
  match v with
  | VUndef => TUndefined
  | VNull => TObject
  | VBool _ => TBoolean
  | VNum _ => TNumber
  | VStr _ => TString
  | VRef _ => TObject
  end.

(** ToBoolean. *)
Definition truthy (v : val) : bool :=
  match v with
  | VUndef | VNull => false
  | VBool b => b
  | VNum x => match x with S754_nan | S754_zero _ => false | _ => true end
  | VStr s => negb (String.eqb s EmptyString)
  | VRef _ => true
  end.

(** [a === b]. *)
Definition strict_eq (a b : val) : bool :=
  match a, b with
  | VUndef, VUndef => true
  | VNull, VNull => true
  | VBool x, VBool y => Bool.eqb x y
  | VNum x, VNum y => num_eqb x y
  | VStr x, VStr y => String.eqb x y
  | VRef x, VRef y => Nat.eqb x y
  | _, _ => false
  end.

(** ToPropertyKey of a value, where the fragment has it: numbers that are
    array indices, the non-finite numbers, strings, booleans, [null] and
    [undefined]. *)
Definition to_property_key (v : val) : option key :=
  match v with
  | VUndef => Some (KStr "undefined")
  | VNull => Some (KStr "null")
  | VBool b => Some (KStr (if b then "true" else "false"))
  | VStr s => Some (to_key s)
  | VNum S754_nan => Some (KStr "NaN")
  | VNum (S754_infinity s) => Some (KStr (if s then "-Infinity" else "Infinity"))
  | VNum x => KIdx <$> num_to_index x
  | VRef _ => None
  end.

(** ** Own properties *)

Fixpoint prop_lookup (k : key) (props : list (key * val)) : option val :=
  match props with
  | [] => None
  | (k', v) :: rest => if decide (k = k') then Some v else prop_lookup k rest
  end.

Fixpoint prop_replace (k : key) (x : val) (props : list (key * val)) : list (key * val) :=
  match props with
  | [] => []
  | (k', v) :: rest =>
      if decide (k = k') then (k, x) :: rest else (k', v) :: prop_replace k x rest
  end.

(** Where a new key goes in the enumeration order: an index before every
    greater index and every name, a name last. *)
Definition goes_before (k k' : key) : bool :=
  match k, k' with
  | KIdx i, KIdx j => i <? j
  | KIdx _, KStr _ => true
  | KStr _, _ => false
  end.

Fixpoint prop_insert (k : key) (x : val) (props : list (key * val)) : list (key * val) :=
  match props with
  | [] => [(k, x)]
  | (k', v) :: rest =>
      if goes_before k k' then (k, x) :: props else (k', v) :: prop_insert k x rest
  end.

Definition own_keys (o : obj) : list key :=
  match o with
  | OArr items => KIdx <$> seq 0 (length items)
  | OMap props => fst <$> props
  | ODate _ => []
  end.

Definition is_array (h : heap) (v : val) : bool :=
  match v with
  | VRef l => match h !! l with Some (OArr _) => true | _ => false end
  | _ => false
  end.

Definition is_date (h : heap) (v : val) : bool :=
  match v with
  | VRef l => match h !! l with Some (ODate _) => true | _ => false end
  | _ => false
  end.

(** ** Computations

    A computation runs on a store and returns a value and the new store,
    throws, leaves the modelled fragment, or exhausts the call stack it
    was given. *)

Inductive err_kind := Error | TypeError | RangeError.

Inductive result (A : Type) :=
  | Ret (a : A) (h : heap)
  | Throw (e : err_kind) (msg : string) (h : heap)
  | Unmodelled
  | OutOfFuel.
Arguments Ret {A} a h.
Arguments Throw {A} e msg h.
Arguments Unmodelled {A}.
Arguments OutOfFuel {A}.

Definition M (A : Type) : Type := heap -> result A.

Definition ret {A} (a : A) : M A := fun h => Ret a h.

Definition bind {A B} (c : M A) (k : A -> M B) : M B := fun h =>
  match c h with
  | Ret a h' => k a h'
  | Throw e msg h' => Throw e msg h'
  | Unmodelled => Unmodelled
  | OutOfFuel => OutOfFuel
  end.

Definition throw {A} (e : err_kind) (msg : string) : M A := fun h => Throw e msg h.
Definition unmodelled {A} : M A := fun _ => Unmodelled.
Definition out_of_fuel {A} : M A := fun _ => OutOfFuel.
Definition reads {A} (f : heap -> A) : M A := fun h => Ret (f h) h.

Declare Scope js_scope.
Delimit Scope js_scope with js.
Notation "x <- c ;; k" := (bind c (fun x => k))
  (at level 100, c at next level, right associativity) : js_scope.
Notation "c ;;; k" := (bind c (fun _ => k))
  (at level 100, right associativity) : js_scope.
Local Open Scope js_scope.

Definition alloc (o : obj) : M val := fun h => Ret (VRef (length h)) (h ++ [o]).

Definition load (l : loc) : M obj := fun h =>
  match h !! l with
  | Some o => Ret o h
  | None => Unmodelled
  end.

Definition store (l : loc) (o : obj) : M unit := fun h => Ret tt (<[l := o]> h).

Fixpoint mapM {A B} (f : A -> M B) (l : list A) : M (list B) :=
  match l with
  | [] => ret []
  | x :: r => y <- f x ;; ys <- mapM f r ;; ret (y :: ys)
  end.

Fixpoint forM {A} (l : list A) (f : A -> M unit) : M unit :=
  match l with
  | [] => ret tt
  | x :: r => f x ;;; forM r f
  end.

(** ** The host's prototypes

    A property that is not an own property is looked up along the
    prototype chain. Which names the built-in prototypes define depends
    on the engine, so it is a parameter: [inherited p k] says that the
    chain starting at prototype [p] resolves [k]. What such a lookup
    yields (native functions, accessors) is outside the fragment. *)

Inductive proto :=
  | ObjectProto | ArrayProto | StringProto | NumberProto | BooleanProto | DateProto.

Class Host := { inherited : proto -> key -> bool }.

(** The names of ECMAScript's [Object.prototype]. *)
Definition object_prototype_names : list string :=
  [ "constructor"; "hasOwnProperty"; "isPrototypeOf"; "propertyIsEnumerable";
    "toLocaleString"; "toString"; "valueOf"; "__proto__";
    "__defineGetter__"; "__defineSetter__"; "__lookupGetter__"; "__lookupSetter__" ].

Definition own_prototype_names (p : proto) : list string :=
  match p with
  | ObjectProto => []
  | BooleanProto => []
  | NumberProto => [ "toExponential"; "toFixed"; "toPrecision" ]
  | StringProto =>
      [ "at"; "charAt"; "charCodeAt"; "codePointAt"; "concat"; "endsWith";
        "includes"; "indexOf"; "lastIndexOf"; "localeCompare"; "match";
        "matchAll"; "normalize"; "padEnd"; "padStart"; "repeat"; "replace";
        "replaceAll"; "search"; "slice"; "split"; "startsWith"; "substr";
        "substring"; "toLocaleLowerCase"; "toLocaleUpperCase"; "toLowerCase";
        "toUpperCase"; "trim"; "trimEnd"; "trimStart"; "trimLeft"; "trimRight";
        "anchor"; "big"; "blink"; "bold"; "fixed"; "fontcolor"; "fontsize";
        "italics"; "link"; "small"; "strike"; "sub"; "sup" ]
  | ArrayProto =>
      [ "at"; "concat"; "copyWithin"; "entries"; "every"; "fill"; "filter";
        "find"; "findIndex"; "findLast"; "findLastIndex"; "flat"; "flatMap";
        "forEach"; "includes"; "indexOf"; "join"; "keys"; "lastIndexOf"; "map";
        "pop"; "push"; "reduce"; "reduceRight"; "reverse"; "shift"; "slice";
        "some"; "sort"; "splice"; "toReversed"; "toSorted"; "toSpliced";
        "unshift"; "values"; "with" ]
  | DateProto =>
      [ "getDate"; "getDay"; "getFullYear"; "getHours"; "getMilliseconds";
        "getMinutes"; "getMonth"; "getSeconds"; "getTime"; "getTimezoneOffset";
        "getUTCDate"; "getUTCDay"; "getUTCFullYear"; "getUTCHours";
        "getUTCMilliseconds"; "getUTCMinutes"; "getUTCMonth"; "getUTCSeconds";
        "getYear"; "setDate"; "setFullYear"; "setHours"; "setMilliseconds";
        "setMinutes"; "setMonth"; "setSeconds"; "setTime"; "setUTCDate";
        "setUTCFullYear"; "setUTCHours"; "setUTCMilliseconds"; "setUTCMinutes";
        "setUTCMonth"; "setUTCSeconds"; "setYear"; "toDateString"; "toGMTString";
        "toISOString"; "toJSON"; "toLocaleDateString"; "toLocaleTimeString";
        "toTimeString"; "toUTCString" ]
  end.

(** A standard host: the built-in prototypes of ECMAScript, untouched. *)
Definition es_host : Host :=
  {| inherited p k :=
       match k with
       | KIdx _ => false
       | KStr s =>
           bool_decide (s ∈ object_prototype_names)
           || bool_decide (s ∈ own_prototype_names p)
       end |}.

Section WithHost.
Context `{Host}.

(** The result of reading a property that is not an own property. *)
Definition absent (p : proto) (k : key) : M val :=
  if inherited p k then unmodelled else ret VUndef.

(** [v[k]]. *)
Definition get_prop (v : val) (k : key) : M val :=
  match v with
  | VUndef | VNull => throw TypeError "Cannot read properties of undefined or null"
  | VBool _ => absent BooleanProto k
  | VNum _ => absent NumberProto k
  | VStr s =>
      match k with
      | KIdx i =>
          match String.get i s with
          | Some c => ret (VStr (String c EmptyString))
          | None => absent StringProto k
          end
      | KStr n =>
          if String.eqb n "length" then ret (VNum (num_of_nat (String.length s)))
          else absent StringProto k
      end
  | VRef l =>
      o <- load l ;;
      match o with
      | OArr items =>
          match k with
          | KIdx i =>
              match items !! i with
              | Some x => ret x
              | None => absent ArrayProto k
              end
          | KStr n =>
              if String.eqb n "length" then ret (VNum (num_of_nat (length items)))
              else absent ArrayProto k
          end
      | OMap props =>
          match prop_lookup k props with
          | Some x => ret x
          | None => absent ObjectProto k
          end
      | ODate _ => absent DateProto k
      end
  end.

(** Writing a property a primitive does not own, in strict mode. *)
Definition no_property (p : proto) (k : key) : M unit :=
  if inherited p k then unmodelled
  else throw TypeError "Cannot create property on a primitive value".

(** [v[k] = x] in strict mode (the library's factory is strict code). *)
Definition set_prop (v : val) (k : key) (x : val) : M unit :=
  match v with
  | VUndef | VNull => throw TypeError "Cannot set properties of undefined or null"
  | VBool _ => no_property BooleanProto k
  | VNum _ => no_property NumberProto k
  | VStr s =>
      match k with
      | KIdx i =>
          if i <? String.length s
          then throw TypeError "Cannot assign to read only property"
          else no_property StringProto k
      | KStr n =>
          if String.eqb n "length"
          then throw TypeError "Cannot assign to read only property"
          else no_property StringProto k
      end
  | VRef l =>
      o <- load l ;;
      match o with
      | OArr items =>
          match k with
          | KIdx i =>
              if i <? length items then store l (OArr (<[i := x]> items))
              else if i =? length items then store l (OArr (items ++ [x]))
              else unmodelled
          | KStr _ => unmodelled
          end
      | OMap props =>
          match prop_lookup k props with
          | Some _ => store l (OMap (prop_replace k x props))
          | None =>
              if inherited ObjectProto k then unmodelled
              else store l (OMap (prop_insert k x props))
          end
      | ODate _ => unmodelled
      end
  end.

(** [v[kv]] and [v[kv] = x] for a key given as a value. *)
Definition get_elem (v kv : val) : M val :=
  match to_property_key kv with
  | Some k => get_prop v k
  | None => unmodelled
  end.

Definition set_elem (v kv x : val) : M unit :=
  match to_property_key kv with
  | Some k => set_prop v k x
  | None => unmodelled
  end.

End WithHost.

(** [v.hasOwnProperty(k)]: the method is found on [Object.prototype]
    unless the object has an own property of that name, which in this
    fragment (no function values) is not callable. *)
Definition hasOwnProperty (v : val) (k : key) : M bool :=
  match v with
  | VUndef | VNull => throw TypeError "Cannot read properties of undefined or null"
  | VBool _ | VNum _ => ret false
  | VStr s =>
      ret match k with
          | KIdx i => i <? String.length s
          | KStr n => String.eqb n "length"
          end
  | VRef l =>
      o <- load l ;;
      match o with
      | OArr items =>
          ret match k with
              | KIdx i => i <? length items
              | KStr n => String.eqb n "length"
              end
      | OMap props =>
          match prop_lookup (KStr "hasOwnProperty") props with
          | Some _ => throw TypeError "hasOwnProperty is not a function"
          | None => ret (bool_decide (is_Some (prop_lookup k props)))
          end
      | ODate _ => ret false
      end
  end.

Definition hasOwnElem (v kv : val) : M bool :=
  match to_property_key kv with
  | Some k => hasOwnProperty v k
  | None => unmodelled
  end.

(** [Array.isArray(v)], [v instanceof Array], [v instanceof Date]. *)
Definition isArray (v : val) : M bool := reads (fun h => is_array h v).
Definition instanceofDate (v : val) : M bool := reads (fun h => is_date h v).

(** The elements of an array, in order. *)
Definition array_items (v : val) : M (list val) :=
  match v with
  | VRef l =>
      o <- load l ;;
      match o with
      | OArr items => ret items
      | _ => unmodelled
      end
  | _ => unmodelled
  end.

(** [d.getTime()]. *)
Definition getTime (v : val) : M number :=
  match v with
  | VRef l =>
      o <- load l ;;
      match o with
      | ODate t => ret t
      | _ => unmodelled
      end
  | _ => unmodelled
  end.

(** [Object.keys(v)] and the keys [for (key in v)] visits, for an object
    (the built-in prototypes have no enumerable property). *)
Definition object_keys (v : val) : M (list key) :=
  match v with
  | VRef l => o <- load l ;; ret (own_keys o)
  | _ => unmodelled
  end.

(** [a.push(x)]. *)
Definition push (a x : val) : M unit :=
  match a with
  | VRef l =>
      o <- load l ;;
      match o with
      | OArr items => store l (OArr (items ++ [x]))
      | _ => unmodelled
      end
  | _ => unmodelled
  end.

(** [a.map(f)]: a new array. *)
Definition array_map (f : val -> M val) (a : val) : M val :=
  items <- array_items a ;;
  ys <- mapM f items ;;
  alloc (OArr ys).

(** [x < y] where the fragment has it: two strings by code units, and
    otherwise numbers, booleans, [null] and [undefined] as numbers. *)
Definition to_number (v : val) : option number :=
  match v with
  | VUndef => Some NaN
  | VNull => Some (S754_zero false)
  | VBool b => Some (num_of_nat (if b then 1 else 0))
  | VNum x => Some x
  | VStr _ | VRef _ => None
  end.

Definition js_lt (x y : val) : M bool :=
  match x, y with
  | VStr a, VStr b => ret (String.ltb a b)
  | _, _ =>
      match to_number x, to_number y with
      | Some a, Some b => ret (num_ltb a b)
      | _, _ => unmodelled
      end
  end.

(** [c >= d] for a counter [c]. *)
Definition counter_ge (c : nat) (d : val) : M bool :=
  match to_number d with
  | Some x => ret (nat_ge_num c x)
  | None => unmodelled
  end.

(** [Array.prototype.sort] with a comparison function. ECMAScript fixes
    the result when the function is a consistent comparator for the
    elements: the sorted order in which elements that tie keep their
    order (the sort is stable since ECMAScript 2019), computed here by
    insertion; [undefined] elements go last and are not compared. With
    any other function the order is left to the engine, and to no
    fragment of the language. *)

#[global] Instance obj_eq_dec : EqDecision obj.
Proof. solve_decision. Defined.

(** What a comparison function returns for a pair, in a store that it
    leaves as it is. *)
Definition compares (cmp : val -> val -> M Z) (h : heap) (a b : val) : option Z :=
  match cmp a b h with
  | Ret z h' => if decide (h' = h) then Some z else None
  | _ => None
  end.

(** [a] may stay before [b]. *)
Definition precedes (cmp : val -> val -> option Z) (a b : val) : bool :=
  match cmp a b with Some z => (z <=? 0)%Z | None => false end.

(** The comparison is consistent on the items: any two compare, with
    opposite signs in opposite orders, and [precedes] is transitive. *)
Definition consistent (cmp : val -> val -> option Z) (items : list val) : bool :=
  forallb (fun a =>
    forallb (fun b =>
      match cmp a b, cmp b a with
      | Some x, Some y => (Z.sgn y =? - Z.sgn x)%Z
      | _, _ => false
      end
      && forallb (fun c =>
           implb (precedes cmp a b && precedes cmp b c) (precedes cmp a c)) items)
      items)
    items.

Fixpoint sort_insert (cmp : val -> val -> M Z) (x : val) (l : list val) : M (list val) :=
  match l with
  | [] => ret [x]
  | y :: r =>
      c <- cmp x y ;;
      if (c <=? 0)%Z then ret (x :: l)
      else r' <- sort_insert cmp x r ;; ret (y :: r')
  end.

Fixpoint sort_items (cmp : val -> val -> M Z) (l : list val) : M (list val) :=
  match l with
  | [] => ret []
  | x :: r => s <- sort_items cmp r ;; sort_insert cmp x s
  end.

Definition array_sort (cmp : val -> val -> M Z) (a : val) : M unit :=
  match a with
  | VRef l =>
      items <- array_items a ;;
      let defined := filter (fun v => v <> VUndef) items in
      ok <- reads (fun h => consistent (compares cmp h) defined) ;;
      if ok then
        s <- sort_items cmp defined ;;
        store l (OArr (s ++ filter (fun v => v = VUndef) items))
      else unmodelled
  | _ => unmodelled
  end.

(** ** More of the runtime: array and string methods, [delete] *)

(** The integer a number denotes, when it is one. *)
Definition num_to_Z (x : number) : option Z :=
  match x with
  | S754_zero _ => Some 0%Z
  | S754_finite s m e =>
      let sign := fun z : Z => if s then (- z)%Z else z in
      if (0 <=? e)%Z then Some (sign (Z.pos m * 2 ^ e)%Z)
      else
        let d := (2 ^ (- e))%Z in
        if (Z.pos m mod d =? 0)%Z then Some (sign (Z.pos m / d)%Z) else None
  | _ => None
  end.

(** [a.indexOf(x)]: the first index whose element is [=== x], if any
    (for which the method returns -1). *)
Fixpoint index_of (x : val) (items : list val) : option nat :=
  match items with
  | [] => None
  | y :: r => if strict_eq y x then Some 0 else S <$> index_of x r
  end.

(** [a.slice(start, end)] on the elements, for integers [start] and
    [end]: a negative index counts from the end. *)
Definition slice_bound (len : nat) (i : Z) : nat :=
  if (i <? 0)%Z then Z.to_nat (Z.max (Z.of_nat len + i) 0)
  else Nat.min (Z.to_nat i) len.

Definition slice_items (items : list val) (start final : Z) : list val :=
  let k := slice_bound (length items) start in
  let e := slice_bound (length items) final in
  take (e - k) (drop k items).

(** [a.filter(callback)]: the length is read once, each element when it
    is visited, and the callback gets the element and its index; the
    elements it accepts go to a new array. *)
Fixpoint filter_from (callback : val -> nat -> M val) (array : val) (k n : nat)
  : M (list val) :=
  match n with
  | 0 => ret []
  | S n =>
      items <- array_items array ;;
      match items !! k with
      | Some x =>
          keep <- callback x k ;;
          rest <- filter_from callback array (S k) n ;;
          ret (if truthy keep then x :: rest else rest)
      | None => filter_from callback array (S k) n
      end
  end.

Definition array_filter (callback : val -> nat -> M val) (array : val) : M val :=
  items <- array_items array ;;
  ys <- filter_from callback array 0 (length items) ;;
  alloc (OArr ys).

(** [a.map(callback)] with the index passed to the callback. *)
Fixpoint map_from (callback : val -> nat -> M val) (array : val) (k n : nat)
  : M (list val) :=
  match n with
  | 0 => ret []
  | S n =>
      items <- array_items array ;;
      match items !! k with
      | Some x =>
          y <- callback x k ;;
          rest <- map_from callback array (S k) n ;;
          ret (y :: rest)
      | None => unmodelled
      end
  end.

Definition array_map_indexed (callback : val -> nat -> M val) (array : val) : M val :=
  items <- array_items array ;;
  ys <- map_from callback array 0 (length items) ;;
  alloc (OArr ys).

(** [a.forEach(callback)]. *)
Fixpoint forEach_from (callback : val -> M unit) (array : val) (k n : nat) : M unit :=
  match n with
  | 0 => ret tt
  | S n =>
      items <- array_items array ;;
      match items !! k with
      | Some x => callback x ;;; forEach_from callback array (S k) n
      | None => forEach_from callback array (S k) n
      end
  end.

Definition array_forEach (callback : val -> M unit) (array : val) : M unit :=
  items <- array_items array ;;
  forEach_from callback array 0 (length items).

(** Own properties without the key [k]. *)
Fixpoint prop_remove (k : key) (props : list (key * val)) : list (key * val) :=
  match props with
  | [] => []
  | (k', v) :: rest =>
      if decide (k = k') then prop_remove k rest else (k', v) :: prop_remove k rest
  end.

(** [delete v[k]] in strict mode: [true] when the property is gone
    afterwards (also when it was not there); the elements of a string
    and the [length] of a string or an array cannot be deleted. Deleting
    an element of an array leaves a hole, which the fragment lacks. *)
Definition delete_prop (v : val) (k : key) : M bool :=
  match v with
  | VUndef | VNull => throw TypeError "Cannot convert undefined or null to object"
  | VBool _ | VNum _ => ret true
  | VStr s =>
      match k with
      | KIdx i =>
          if i <? String.length s then throw TypeError "Cannot delete property"
          else ret true
      | KStr n =>
          if String.eqb n "length" then throw TypeError "Cannot delete property"
          else ret true
      end
  | VRef l =>
      o <- load l ;;
      match o with
      | OArr items =>
          match k with
          | KIdx i => if i <? length items then unmodelled else ret true
          | KStr n =>
              if String.eqb n "length" then throw TypeError "Cannot delete property"
              else ret true
          end
      | OMap props => store l (OMap (prop_remove k props)) ;;; ret true
      | ODate _ => ret true
      end
  end.

(** The white space of [trim] among the units below 256: TAB, LF, VT,
    FF, CR, SP and NBSP. *)
Definition is_space (c : ascii) : bool :=
  let n := N_of_ascii c in
  ((9 <=? n) && (n <=? 13) || (n =? 32) || (n =? 160))%N.

Fixpoint trimStart (s : string) : string :=
  match s with
  | EmptyString => EmptyString
  | String c r => if is_space c then trimStart r else s
  end.

Fixpoint trimEnd (s : string) : string :=
  match s with
  | EmptyString => EmptyString
  | String c r =>
      match trimEnd r with
      | EmptyString => if is_space c then EmptyString else String c EmptyString
      | r' => String c r'
      end
  end.

Definition trim (s : string) : string := trimEnd (trimStart s).

(** [s.replace(/[...]/g, f)] for a class of units: every unit of the
    class is replaced by what [f] returns for it. *)
Fixpoint replace_units (class : ascii -> bool) (f : ascii -> string) (s : string) : string :=
  match s with
  | EmptyString => EmptyString
  | String c r =>
      if class c then f c ++ replace_units class f r
      else String c (replace_units class f r)
  end.

(** [s.replace(/a1|a2|.../g, f)] for literal, non-empty alternatives: at
    each position the first alternative that matches there is replaced by
    what [f] returns for it, and the scan goes on after the match;
    [skip] counts the units of a match still to pass. *)
Fixpoint replace_words (alts : list string) (f : string -> string) (skip : nat)
    (s : string) : string :=
  match s with
  | EmptyString => EmptyString
  | String c r =>
      match skip with
      | S n => replace_words alts f n r
      | 0 =>
          match List.find (fun a => String.prefix a s) alts with
          | Some a => f a ++ replace_words alts f (String.length a - 1) r
          | None => String c (replace_words alts f 0 r)
          end
      end
  end.

(** The name of a key, as [for (key in obj)] gives it. *)
Fixpoint decimal (fuel n : nat) (acc : string) : string :=
  match fuel with
  | 0 => acc
  | S fuel =>
      let acc := String (ascii_of_nat (48 + n mod 10)) acc in
      if n <? 10 then acc else decimal fuel (n / 10) acc
  end.

Definition key_name (k : key) : string :=
  match k with
  | KIdx i => decimal (S i) i EmptyString
  | KStr s => s
  end.

(** A number as a string index or count: an integer, an infinity or
    [NaN]; the numbers with a fraction are left out. *)
Inductive count := NegInf | Fin (z : Z) | PosInf | NotANumber.

Definition num_to_count (x : number) : option count :=
  match x with
  | S754_nan => Some NotANumber
  | S754_infinity s => Some (if s then NegInf else PosInf)
  | _ => Fin <$> num_to_Z x
  end.

(** [s.repeat(n)] for a count [n]. *)
Fixpoint string_repeat (s : string) (n : nat) : string :=
  match n with
  | 0 => EmptyString
  | S n => s ++ string_repeat s n
  end.

End JS.

(* ===================================================================== *)
(** * OmniHelper.Utils *)
(* ===================================================================== *)

Module Utils.
Import JS.
Local Open Scope js_scope.

Section WithHost.
Context `{Host}.

(** [isObject(value)]: not [null], of type object, not an array. *)
Definition isObject (value : val) : M bool :=
  a <- isArray value ;;
  ret (negb (strict_eq value VNull)
       && jstype_eqb (typeof value) TObject
       && negb a).

(** [deepClone(obj)]. The argument [fuel] bounds the depth of nested
    calls, as the call stack does. *)
Fixpoint deepClone (fuel : nat) (obj : val) : M val :=
  match fuel with
  | 0 => out_of_fuel
  | S fuel =>
      if strict_eq obj VNull || negb (jstype_eqb (typeof obj) TObject)
      then ret obj
      else
        d <- instanceofDate obj ;;
        if d then t <- getTime obj ;; alloc (ODate t)
        else
          a <- isArray obj ;;
          if a then array_map (fun item => deepClone fuel item) obj
          else
            cloned <- alloc (OMap []) ;;
            keys <- object_keys obj ;;
            forM keys (fun key =>
              own <- hasOwnProperty obj key ;;
              if own then
                v <- get_prop obj key ;;
                c <- deepClone fuel v ;;
                set_prop cloned key c
              else ret tt) ;;;
            ret cloned
  end.

(** [deepMerge(target, source)]. *)
Fixpoint deepMerge (fuel : nat) (target source : val) : M val :=
  match fuel with
  | 0 => out_of_fuel
  | S fuel =>
      result <- deepClone fuel target ;;
      ot <- isObject target ;;
      os <- isObject source ;;
      (if ot && os then
         keys <- object_keys source ;;
         forM keys (fun key =>
           own <- hasOwnProperty source key ;;
           if own then
             sk <- get_prop source key ;;
             o <- isObject sk ;;
             if o then
               tk <- get_prop target key ;;
               (if negb (truthy tk) then
                  e <- alloc (OMap []) ;; set_prop result key e
                else ret tt) ;;;
               tk <- get_prop target key ;;
               sk <- get_prop source key ;;
               m <- deepMerge fuel tk sk ;;
               set_prop result key m
             else
               sk <- get_prop source key ;;
               set_prop result key sk
           else ret tt)
       else ret tt) ;;;
      ret result
  end.

(** The loop of [get] followed by its final [return]. *)
Fixpoint get_loop (keys : list string) (current defaultValue : val) : M val :=
  match keys with
  | [] => ret (if negb (strict_eq current VUndef) then current else defaultValue)
  | k :: keys =>
      if strict_eq current VNull || strict_eq current VUndef then ret defaultValue
      else current <- get_prop current (to_key k) ;; get_loop keys current defaultValue
  end.

(** [get(obj, path, defaultValue)]. *)
Definition get (obj : val) (path : string) (defaultValue : val) : M val :=
  o <- isObject obj ;;
  if negb o then ret defaultValue
  else get_loop (split "." path) obj defaultValue.

(** The loop of [set] over all keys but the last. *)
Fixpoint set_loop (keys : list string) (current : val) : M val :=
  match keys with
  | [] => ret current
  | k :: keys =>
      c <- get_prop current (to_key k) ;;
      (if negb (truthy c) then
         e <- alloc (OMap []) ;; set_prop current (to_key k) e
       else ret tt) ;;;
      current <- get_prop current (to_key k) ;;
      set_loop keys current
  end.

(** [set(obj, path, value)]. *)
Definition set (obj : val) (path : string) (value : val) : M val :=
  o <- isObject obj ;;
  if negb o then ret obj
  else
    let keys := split "." path in
    current <- set_loop (removelast keys) obj ;;
    set_prop current (to_key (List.last keys EmptyString)) value ;;;
    ret obj.

(** A loop over keys whose body may [return false]. *)
Fixpoint every_key (keys : list key) (body : key -> M bool) : M bool :=
  match keys with
  | [] => ret true
  | k :: keys =>
      ok <- body k ;;
      if ok then every_key keys body else ret false
  end.

(** [isEqual(a, b)] (the fragment has no [RegExp]). *)
Fixpoint isEqual (fuel : nat) (a b : val) : M bool :=
  match fuel with
  | 0 => out_of_fuel
  | S fuel =>
      if strict_eq a b then ret true
      else if strict_eq a VNull || strict_eq b VNull then ret (strict_eq a b)
      else if negb (jstype_eqb (typeof a) (typeof b)) then ret false
      else if jstype_eqb (typeof a) TObject then
        aa <- isArray a ;;
        ab <- isArray b ;;
        if negb (Bool.eqb aa ab) then ret false
        else
          da <- instanceofDate a ;;
          db <- instanceofDate b ;;
          if da && db then
            ta <- getTime a ;;
            tb <- getTime b ;;
            ret (num_eqb ta tb)
          else
            keysA <- object_keys a ;;
            keysB <- object_keys b ;;
            if negb (length keysA =? length keysB) then ret false
            else
              every_key keysA (fun k =>
                own <- hasOwnProperty b k ;;
                if negb own then ret false
                else
                  va <- get_prop a k ;;
                  vb <- get_prop b k ;;
                  isEqual fuel va vb)
      else ret false
  end.

(** [pick(obj, keys)]. *)
Definition pick (obj keys : val) : M val :=
  o <- isObject obj ;;
  if negb o then alloc (OMap [])
  else
    ka <- isArray keys ;;
    keys <- (if negb ka then alloc (OArr [keys]) else ret keys) ;;
    result <- alloc (OMap []) ;;
    array_forEach (fun key =>
      own <- hasOwnElem obj key ;;
      if own then v <- get_elem obj key ;; set_elem result key v
      else ret tt) keys ;;;
    ret result.

(** [omit(obj, keys)]: [for (key in obj)] gives the keys as strings,
    and [indexOf] looks for them with [===]. *)
Definition omit (obj keys : val) : M val :=
  o <- isObject obj ;;
  if negb o then alloc (OMap [])
  else
    ka <- isArray keys ;;
    keys <- (if negb ka then alloc (OArr [keys]) else ret keys) ;;
    result <- alloc (OMap []) ;;
    names <- object_keys obj ;;
    forM names (fun key =>
      own <- hasOwnProperty obj key ;;
      listed <- (if own then
                   ks <- array_items keys ;;
                   ret (bool_decide (is_Some (index_of (VStr (key_name key)) ks)))
                 else ret false) ;;
      if own && negb listed then v <- get_prop obj key ;; set_prop result key v
      else ret tt) ;;;
    ret result.

(** The loop of [delete] over all keys but the last; [None] is its
    [return false]. *)
Fixpoint delete_loop (keys : list string) (current : val) : M (option val) :=
  match keys with
  | [] => ret (Some current)
  | k :: keys =>
      c <- get_prop current (to_key k) ;;
      if negb (truthy c) then ret None
      else current <- get_prop current (to_key k) ;; delete_loop keys current
  end.

(** [delete(obj, path)]. *)
Definition delete (obj : val) (path : string) : M bool :=
  o <- isObject obj ;;
  if negb o then ret false
  else
    let keys := split "." path in
    current <- delete_loop (removelast keys) obj ;;
    match current with
    | None => ret false
    | Some current => delete_prop current (to_key (List.last keys EmptyString))
    end.

(** The loop of [has]. *)
Fixpoint has_loop (keys : list string) (current : val) : M bool :=
  match keys with
  | [] => ret true
  | k :: keys =>
      if strict_eq current VNull || strict_eq current VUndef then ret false
      else
        own <- hasOwnProperty current (to_key k) ;;
        if negb own then ret false
        else current <- get_prop current (to_key k) ;; has_loop keys current
  end.

(** [has(obj, path)]. *)
Definition has (obj : val) (path : string) : M bool :=
  o <- isObject obj ;;
  if negb o then ret false
  else has_loop (split "." path) obj.

(** [isEmpty(value)]. *)
Definition isEmpty (value : val) : M bool :=
  if strict_eq value VNull || strict_eq value VUndef then ret true
  else if match value with
          | VStr s => String.eqb (trim s) EmptyString
          | _ => false
          end then ret true
  else
    a <- isArray value ;;
    items <- (if a then array_items value else ret []) ;;
    if a && (length items =? 0) then ret true
    else if jstype_eqb (typeof value) TObject then
      keys <- object_keys value ;;
      ret (length keys =? 0)
    else ret false.

(** [unique(array)]. *)
Definition unique (array : val) : M val :=
  a <- isArray array ;;
  if negb a then alloc (OArr [])
  else
    array_filter (fun value index =>
      self <- array_items array ;;
      ret (VBool match index_of value self with
                 | Some i => i =? index
                 | None => false
                 end)) array.

(** The loop of [chunk], for an integer [size]; [fuel] bounds its
    iterations. *)
Fixpoint chunk_loop (fuel : nat) (array chunks : val) (size i : Z) : M unit :=
  match fuel with
  | 0 => out_of_fuel
  | S fuel =>
      items <- array_items array ;;
      if (i <? Z.of_nat (length items))%Z then
        c <- alloc (OArr (slice_items items i (i + size))) ;;
        push chunks c ;;;
        chunk_loop fuel array chunks size (i + size)%Z
      else ret tt
  end.

(** [chunk(array, size)], where [size] is missing, falsy or an integer. *)
Definition chunk (fuel : nat) (array size : val) : M val :=
  a <- isArray array ;;
  if negb a then alloc (OArr [])
  else
    let size := if truthy size then size else VNum (num_of_nat 1) in
    match size with
    | VNum x =>
        match num_to_Z x with
        | Some size =>
            chunks <- alloc (OArr []) ;;
            chunk_loop fuel array chunks size 0 ;;;
            ret chunks
        | None => unmodelled
        end
    | _ => unmodelled
    end.

(** [compact(array)]. *)
Definition compact (array : val) : M val :=
  a <- isArray array ;;
  if negb a then alloc (OArr [])
  else
    array_filter (fun value _ =>
      ret (VBool (negb (strict_eq value VNull) && negb (strict_eq value VUndef)
                  && negb (strict_eq value (VBool false))
                  && negb (strict_eq value (VNum (S754_zero false)))
                  && negb (strict_eq value (VStr EmptyString))))) array.

(** [keyBy(array, key)]. *)
Definition keyBy (array key : val) : M val :=
  a <- isArray array ;;
  if negb a then alloc (OMap [])
  else
    result <- alloc (OMap []) ;;
    array_forEach (fun item =>
      k <- get_elem item key ;;
      set_elem result k item) array ;;;
    ret result.

(** The table of [escapeHtml] and the class of its pattern. *)
Definition htmlEscapes : list (ascii * string) :=
  [ ("&"%char, "&amp;"); ("<"%char, "&lt;"); (">"%char, "&gt;");
    ("034"%char, "&quot;"); ("'"%char, "&#39;"); ("/"%char, "&#x2F;");
    ("`"%char, "&#x60;"); ("="%char, "&#x3D;") ].

Definition escaped_class (c : ascii) : bool :=
  bool_decide (c ∈ [ "&"%char; "<"%char; ">"%char; "034"%char; "'"%char;
                     "`"%char; "="%char; "/"%char ]).

(** A table looked up with a key it may lack ([undefined] then, which
    [replace] turns into a string). *)
Definition table_get {K} `{EqDecision K} (table : list (K * string)) (k : K) : string :=
  match List.find (fun p => bool_decide (p.1 = k)) table with
  | Some p => p.2
  | None => "undefined"
  end.

(** [escapeHtml(str)]. *)
Definition escapeHtml (str : val) : val :=
  match str with
  | VStr s => VStr (replace_units escaped_class (table_get htmlEscapes) s)
  | _ => VStr EmptyString
  end.

(** The table of [unescapeHtml]; its pattern has the keys as
    alternatives, in this order. *)
Definition htmlUnescapes : list (string * string) :=
  [ ("&amp;", "&"); ("&lt;", "<"); ("&gt;", ">");
    ("&quot;", String "034"%char EmptyString); ("&#39;", "'"); ("&#x2F;", "/");
    ("&#x60;", "`"); ("&#x3D;", "=") ].

(** [unescapeHtml(str)]. *)
Definition unescapeHtml (str : val) : val :=
  match str with
  | VStr s => VStr (replace_words htmlUnescapes.*1 (table_get htmlUnescapes) 0 s)
  | _ => VStr EmptyString
  end.

(** [truncate(str, length, suffix)], for a [length] that is missing, an
    integer, an infinity or [NaN], and a [suffix] that is a string or
    falsy. [str.substring(0, n)] takes [n] as 0 when it is negative or
    [NaN], and as the length of [str] when it is greater. *)
Definition truncate (str length suffix : val) : M val :=
  match str with
  | VStr s =>
      match to_number length ≫= num_to_count with
      | Some n =>
          if match n with
             | Fin z => (Z.of_nat (String.length s) <=? z)%Z
             | PosInf => true
             | NegInf | NotANumber => false
             end
          then ret str
          else
            let suffix := if truthy suffix then suffix else VStr "..." in
            match suffix with
            | VStr suf =>
                let final := match n with
                             | Fin z => Z.to_nat (z - Z.of_nat (String.length suf))
                             | _ => 0
                             end in
                ret (VStr (String.substring 0 final s ++ suf))
            | _ => unmodelled
            end
      | None => unmodelled
      end
  | _ => ret (VStr EmptyString)
  end.

(** [pad(str, length, chars)], for a [length] as in [truncate] and
    [chars] that are a string or falsy; the strings it builds are taken
    to be strings the engine can hold. *)
Definition pad (str length chars : val) : M val :=
  match str with
  | VStr s =>
      let chars := if truthy chars then chars else VStr " " in
      match to_number length ≫= num_to_count with
      | Some n =>
          let padLength := match n with
                           | Fin z => Fin (z - Z.of_nat (String.length s))
                           | _ => n
                           end in
          if match padLength with
             | Fin d => (d <=? 0)%Z
             | NegInf => true
             | PosInf | NotANumber => false
             end
          then ret str
          else
            match chars with
            | VStr c =>
                match padLength with
                | Fin d =>
                    let left := (d / 2)%Z in
                    let right := (d - left)%Z in
                    ret (VStr (string_repeat c (Z.to_nat left) ++ s
                               ++ string_repeat c (Z.to_nat right)))
                | NotANumber => ret (VStr (EmptyString ++ s ++ EmptyString))
                | _ => throw RangeError "Invalid count value"
                end
            | _ => unmodelled
            end
      | None => unmodelled
      end
  | _ => ret (VStr EmptyString)
  end.

End WithHost.
End Utils.

(* ===================================================================== *)
(** * OmniHelper.Data *)
(* ===================================================================== *)

Module Data.
Import JS.
Local Open Scope js_scope.

Section WithHost.
Context `{Host}.

(** [flattenRecursive(item, currentDepth)], closed over [depth]. Its
    local arrays are lists here; [flatten] returns a new array. *)
Fixpoint flattenRecursive (fuel : nat) (depth item : val) (currentDepth : nat)
  : M (list val) :=
  match fuel with
  | 0 => out_of_fuel
  | S fuel =>
      stop <- counter_ge currentDepth depth ;;
      if stop then ret [item]
      else
        a <- isArray item ;;
        if a then
          items <- array_items item ;;
          rs <- mapM (fun x => flattenRecursive fuel depth x (S currentDepth)) items ;;
          ret (concat rs)
        else if jstype_eqb (typeof item) TObject && negb (strict_eq item VNull) then
          keys <- object_keys item ;;
          rs <- mapM (fun key =>
                  own <- hasOwnProperty item key ;;
                  if own then
                    v <- get_prop item key ;;
                    flattenRecursive fuel depth v (S currentDepth)
                  else ret []) keys ;;
          ret (concat rs)
        else ret [item]
  end.

(** [flatten(data, depth)]; a missing [depth] is [undefined]. *)
Definition flatten (fuel : nat) (data depth : val) : M val :=
  let depth := if truthy depth then depth else VNum Infinity in
  r <- flattenRecursive fuel depth data 0 ;;
  alloc (OArr r).


(** The [key] argument of [groupBy]: a function, taken to observe the
    store without changing it, or a property key. *)
Inductive key_arg :=
  | KeyFn (f : heap -> val -> val)
  | KeyVal (k : val).

(** [groupBy(array, key)]. *)
Definition groupBy (array : val) (key : key_arg) : M val :=
  a <- isArray array ;;
  if negb a then throw Error "Input must be an array"
  else
    result <- alloc (OMap []) ;;
    let getKey := match key with
                  | KeyFn f => fun item => reads (fun h => f h item)
                  | KeyVal k => fun item => get_elem item k
                  end in
    items <- array_items array ;;
    forM items (fun item =>
      groupKey <- getKey item ;;
      g <- get_elem result groupKey ;;
      (if negb (truthy g) then
         e <- alloc (OArr []) ;; set_elem result groupKey e
       else ret tt) ;;;
      g <- get_elem result groupKey ;;
      push g item) ;;;
    ret result.

(** The comparison function [sortBy] passes to [sort]. *)
Fixpoint compare_keys (keys orders : list val) (i : nat) (a b : val) : M Z :=
  match keys with
  | [] => ret 0%Z
  | k :: keys =>
      let o := match orders !! i with
               | Some o => if truthy o then o else VStr "asc"
               | None => VStr "asc"
               end in
      valA <- get_elem a k ;;
      valB <- get_elem b k ;;
      let valA := match valA with VStr s => VStr (toLowerCase s) | _ => valA end in
      let valB := match valB with VStr s => VStr (toLowerCase s) | _ => valB end in
      lt <- js_lt valA valB ;;
      if lt then ret (if strict_eq o (VStr "asc") then (-1)%Z else 1%Z)
      else
        gt <- js_lt valB valA ;;
        if gt then ret (if strict_eq o (VStr "asc") then 1%Z else (-1)%Z)
        else compare_keys keys orders (S i) a b
  end.

(** [sortBy(array, key, order)]; a missing [order] is [undefined]. *)
Definition sortBy (array key order : val) : M val :=
  a <- isArray array ;;
  if negb a then throw Error "Input must be an array"
  else
    ka <- isArray key ;;
    keys <- (if ka then array_items key else ret [key]) ;;
    oa <- isArray order ;;
    orders <- (if oa then array_items order
               else ret [if truthy order then order else VStr "asc"]) ;;
    items <- array_items array ;;
    sorted <- alloc (OArr items) ;;
    array_sort (compare_keys keys orders 0) sorted ;;;
    ret sorted.

(** [pluck(array, ...keys)]. *)
Definition pluck (array : val) (keys : list val) : M val :=
  a <- isArray array ;;
  if negb a then throw Error "Input must be an array"
  else if length keys =? 0 then ret array
  else
    array_map (fun item =>
      result <- alloc (OMap []) ;;
      forM keys (fun k =>
        own <- hasOwnElem item k ;;
        if own then v <- get_elem item k ;; set_elem result k v
        else ret tt) ;;;
      ret result) array.



(** [pipe(...functions)(value)]: the function [pipe] returns, applied. *)
Fixpoint pipe (functions : list (val -> M val)) (value : val) : M val :=
  match functions with
  | [] => ret value
  | fn :: functions => acc <- fn value ;; pipe functions acc
  end.

(** [map(data, callback)]; the callback gets a value and its index or
    key. *)
Definition map (data : val) (callback : val -> val -> M val) : M val :=
  a <- isArray data ;;
  if a then array_map_indexed (fun x i => callback x (VNum (num_of_nat i))) data
  else if jstype_eqb (typeof data) TObject && negb (strict_eq data VNull) then
    result <- alloc (OMap []) ;;
    keys <- object_keys data ;;
    forM keys (fun key =>
      own <- hasOwnProperty data key ;;
      if own then
        v <- get_prop data key ;;
        r <- callback v (VStr (key_name key)) ;;
        set_prop result key r
      else ret tt) ;;;
    ret result
  else ret data.

(** [filter(data, predicate)]. *)
Definition filter (data : val) (predicate : val -> val -> M val) : M val :=
  a <- isArray data ;;
  if a then array_filter (fun x i => predicate x (VNum (num_of_nat i))) data
  else if jstype_eqb (typeof data) TObject && negb (strict_eq data VNull) then
    result <- alloc (OMap []) ;;
    keys <- object_keys data ;;
    forM keys (fun key =>
      own <- hasOwnProperty data key ;;
      keep <- (if own then
                 v <- get_prop data key ;;
                 predicate v (VStr (key_name key))
               else ret (VBool false)) ;;
      if own && truthy keep then v <- get_prop data key ;; set_prop result key v
      else ret tt) ;;;
    ret result
  else ret data.

End WithHost.
End Data.

(* ===================================================================== *)
(** * Values, and what it means for the store to hold one *)
(* ===================================================================== *)

Module Model.
Import JS.
Local Open Scope js_scope.

(** The specification's data: absence, null, booleans, numbers, text,
    ordered sequences and keyed mappings of them, and date-like values. *)
Inductive Value :=
  | Undefined
  | Null
  | Boolean (b : bool)
  | Number (x : number)
  | Text (s : string)
  | Sequence (items : list Value)
  | Mapping (fields : list (key * Value))
  | DateLike (t : number).

(** How deep the containers of a value nest. *)
Fixpoint depth (t : Value) : nat :=
  match t with
  | Sequence ts => S (foldr (fun t n => Nat.max (depth t) n) 0 ts)
  | Mapping kts => S (foldr (fun kt n => Nat.max (depth kt.2) n) 0 kts)
  | _ => 0
  end.

(** The primitive values inside a value, in traversal order. *)
Fixpoint leaves (t : Value) : list val :=
  match t with
  | Undefined => [VUndef]
  | Null => [VNull]
  | Boolean b => [VBool b]
  | Number x => [VNum x]
  | Text s => [VStr s]
  | Sequence ts => concat (map leaves ts)
  | Mapping kts => concat (map (fun kt => leaves kt.2) kts)
  | DateLike _ => []
  end.

Definition is_nan (x : number) : bool :=
  match x with S754_nan => true | _ => false end.

(** No [NaN] inside, as a number or as the time of a date. *)
Fixpoint nan_free (t : Value) : bool :=
  match t with
  | Number x => negb (is_nan x)
  | DateLike x => negb (is_nan x)
  | Sequence ts => forallb nan_free ts
  | Mapping kts => forallb (fun kt => nan_free kt.2) kts
  | _ => true
  end.

(** Keys in the order the engine enumerates them, without repetition. *)
Fixpoint ordered_keys (ks : list key) : bool :=
  match ks with
  | [] => true
  | k :: rest =>
      forallb (fun k' => negb (goes_before k' k) && negb (bool_decide (k' = k))) rest
      && ordered_keys rest
  end.

(** A key that no prototype of the host resolves, and that does not
    hide [hasOwnProperty]. *)
Definition plain_key `{Host} (k : key) : bool :=
  negb (inherited ObjectProto k) && negb (bool_decide (k = KStr "hasOwnProperty")).

(** The mappings of a value have plain keys, in enumeration order. *)
Fixpoint well_keyed `{Host} (t : Value) : bool :=
  match t with
  | Sequence ts => forallb well_keyed ts
  | Mapping kts =>
      ordered_keys kts.*1 && forallb plain_key kts.*1
      && forallb (fun kt => well_keyed kt.2) kts
  | _ => true
  end.

(** [repr h v t]: in the store [h], [v] holds the value [t]. *)
Inductive repr (h : heap) : val -> Value -> Prop :=
  | repr_undef : repr h VUndef Undefined
  | repr_null : repr h VNull Null
  | repr_bool b : repr h (VBool b) (Boolean b)
  | repr_num x : repr h (VNum x) (Number x)
  | repr_str s : repr h (VStr s) (Text s)
  | repr_seq l items ts :
      h !! l = Some (OArr items) ->
      Forall2 (repr h) items ts ->
      repr h (VRef l) (Sequence ts)
  | repr_map l props kts :
      h !! l = Some (OMap props) ->
      Forall2 (fun p q => p.1 = q.1 /\ repr h p.2 q.2) props kts ->
      repr h (VRef l) (Mapping kts)
  | repr_date l t :
      h !! l = Some (ODate t) ->
      repr h (VRef l) (DateLike t).

(** The objects reachable from a value. *)
Definition children (o : obj) : list val :=
  match o with
  | OArr items => items
  | OMap props => props.*2
  | ODate _ => []
  end.

Inductive reach (h : heap) : val -> loc -> Prop :=
  | reach_here l o : h !! l = Some o -> reach h (VRef l) l
  | reach_child l o x l' :
      h !! l = Some o -> x ∈ children o -> reach h x l' -> reach h (VRef l) l'.

(** The value stored at a path: every segment an own key of a keyed
    mapping. *)
Fixpoint stored (h : heap) (v : val) (keys : list string) : option val :=
  match keys with
  | [] => Some v
  | k :: keys =>
      match v with
      | VRef l =>
          match h !! l with
          | Some (OMap props) =>
              match prop_lookup (to_key k) props with
              | Some c => stored h c keys
              | None => None
              end
          | _ => None
          end
      | _ => None
      end
  end.

(** A segment of the path is missing: following own keys of keyed
    mappings, the walk comes to [null] or [undefined] with segments left,
    or to a keyed mapping without the segment (which no prototype of the
    host resolves either). *)
Fixpoint missing `{Host} (h : heap) (v : val) (keys : list string) : bool :=
  match keys with
  | [] => false
  | k :: keys =>
      match v with
      | VUndef | VNull => true
      | VRef l =>
          match h !! l with
          | Some (OMap props) =>
              match prop_lookup (to_key k) props with
              | Some c => missing h c keys
              | None => negb (inherited ObjectProto (to_key k))
              end
          | _ => false
          end
      | _ => false
      end
  end.

(** The store before a call, as a call that only allocates and writes
    to what it allocated leaves it: every object where it was. *)
Definition kept (h h' : heap) : Prop :=
  forall l o, h !! l = Some o -> h' !! l = Some o.

(** The group an element of [groupBy]'s array falls in, for a key [k]:
    reading [item[k]] gives, within the fragment (the element is not
    [null] or [undefined], and [k] is an own property or no name that a
    prototype of the host resolves), a value whose property key no
    prototype of the host resolves. An element without the key is in
    the group ['undefined']. *)
Definition group_key `{Host} (h : heap) (k : key) (item : val) : option key :=
  match get_prop item k h with
  | Ret g _ =>
      match to_property_key g with
      | Some gk => if inherited ObjectProto gk then None else Some gk
      | None => None
      end
  | _ => None
  end.


(** [writes_above lo c Q]: run on a store with at least [lo] objects,
    [c] leaves the first [lo] untouched, whether it returns or throws,
    and a value it returns satisfies [Q]. *)
Definition writes_above {A} (lo : nat) (c : M A) (Q : A -> Prop) : Prop :=
  forall h, lo <= length h ->
    match c h with
    | Ret a h' => (forall l, l < lo -> h' !! l = h !! l) /\ length h <= length h' /\ Q a
    | Throw _ _ h' => (forall l, l < lo -> h' !! l = h !! l) /\ length h <= length h'
    | Unmodelled | OutOfFuel => True
    end.

(** [c] reads the store and leaves it as it is. *)
Definition reads_only {A} (c : M A) : Prop :=
  forall h,
    match c h with
    | Ret _ h' | Throw _ _ h' => h' = h
    | Unmodelled | OutOfFuel => True
    end.

Definition is_ref (v : val) : Prop := exists l, v = VRef l.
Definition ref_above (lo : nat) (v : val) : Prop := forall l, v = VRef l -> lo <= l.

(** A field of a clone: the key of the original, a value that holds the
    same [Value] in objects allocated after [lc]. *)
Definition cloned_field (lc : nat) (h : heap) (c : key * val) (q : key * Value) : Prop :=
  c.1 = q.1 /\ repr h c.2 q.2 /\ forall l, reach h c.2 l -> lc < l.

Definition clones `{Host} (fuel : nat) (t : Value) : Prop :=
  forall h v, repr h v t ->
    exists v' h',
      Utils.deepClone fuel v h = Ret v' h' /\ kept h h'
      /\ repr h' v' t /\ forall l, reach h' v' l -> length h <= l.

(** Whether a run returned [true]. *)
Definition ret_bool (r : result bool) : bool :=
  match r with Ret true _ => true | _ => false end.

(** The body of [isEqual]'s loop over the keys of [a]. *)
Definition same_at `{Host} (fuel : nat) (a b : val) (k : key) : M bool :=
  own <- hasOwnProperty b k ;;
  if negb own then ret false
  else
    va <- get_prop a k ;;
    vb <- get_prop b k ;;
    Utils.isEqual fuel va vb.

(** The store a run ends with, when it returns or throws. *)
Definition final_store {A} (r : result A) : option heap :=
  match r with
  | Ret _ h | Throw _ _ h => Some h
  | Unmodelled | OutOfFuel => None
  end.

(** A field of a mapping value. *)
Fixpoint field (k : key) (kts : list (key * Value)) : option Value :=
  match kts with
  | [] => None
  | (k', t) :: rest => if decide (k = k') then Some t else field k rest
  end.

(** ToBoolean of a value. *)
Definition truthy_value (t : Value) : bool :=
  match t with
  | Undefined | Null => false
  | Boolean b => b
  | Number x => truthy (VNum x)
  | Text s => truthy (VStr s)
  | Sequence _ | Mapping _ | DateLike _ => true
  end.

Definition fresh_key `{Host} (k : string) : bool := negb (inherited ObjectProto (to_key k)).

(** [set] can follow the path into the value: every segment but the last
    is absent or holds a falsy value (a new mapping goes there, and the
    segments after it must be names the host's prototypes leave alone),
    or holds a keyed mapping to descend into; the last segment is an own
    key of the mapping reached, or such a name. *)
Fixpoint settable `{Host} (t : Value) (keys : list string) : bool :=
  match keys with
  | [] => false
  | k :: rest =>
      match t with
      | Mapping kts =>
          match rest with
          | [] => bool_decide (is_Some (field (to_key k) kts)) || fresh_key k
          | _ :: _ =>
              match field (to_key k) kts with
              | Some c => if truthy_value c then settable c rest else forallb fresh_key rest
              | None => fresh_key k && forallb fresh_key rest
              end
          end
      | _ => false
      end
  end.

(** What [set] does after it has checked [obj]. *)
Definition set_path `{Host} (keys : list string) (current x : val) : M unit :=
  current <- Utils.set_loop (removelast keys) current ;;
  set_prop current (to_key (List.last keys EmptyString)) x.

(** The stable insertion sort of [sort_items], for a comparison that is
    a function. *)
Fixpoint insert_by (le : val -> val -> bool) (x : val) (l : list val) : list val :=
  match l with
  | [] => [x]
  | y :: r => if le x y then x :: l else y :: insert_by le x r
  end.

Fixpoint sort_by (le : val -> val -> bool) (l : list val) : list val :=
  match l with
  | [] => []
  | x :: r => insert_by le x (sort_by le r)
  end.

(** What the comparison function of [sortBy] returns in a store. *)
Definition compared `{Host} (h : heap) (keys orders : list val) (a b : val) : option Z :=
  match Data.compare_keys keys orders 0 a b h with
  | Ret z _ => Some z
  | _ => None
  end.

(** [a] and [b] tie. *)
Definition tied (cmp : val -> val -> option Z) (a b : val) : bool :=
  match cmp a b with Some z => (z =? 0)%Z | None => false end.

(** The list an argument of [sortBy] stands for: the elements of an
    array, or the argument alone. *)
Definition arg_list (h : heap) (v : val) : list val :=
  match v with
  | VRef l => match h !! l with Some (OArr items) => items | _ => [v] end
  | _ => [v]
  end.

Definition order_list (h : heap) (order : val) : list val :=
  if is_array h order then arg_list h order
  else [if truthy order then order else VStr "asc"].

(** The direction in force for the [i]-th key. *)
Definition ascending (orders : list val) (i : nat) : bool :=
  match orders !! i with
  | Some o => if truthy o then strict_eq o (VStr "asc") else true
  | None => true
  end.

(** [c] returns the same in every store that keeps the objects of the
    one it ran in. *)
Definition persistent {A} (c : M A) : Prop :=
  forall h h' a, kept h h' -> c h = Ret a h -> c h' = Ret a h'.

(** The elements a filter keeps, for a test [g] of the element and its
    index; [k] is the index of the first element. *)
Fixpoint keep_from (g : val -> nat -> bool) (items : list val) (k : nat) : list val :=
  match items with
  | [] => []
  | x :: r => if g x k then x :: keep_from g r (S k) else keep_from g r (S k)
  end.

(** The units of a string. *)
Fixpoint units (s : string) : list ascii :=
  match s with
  | EmptyString => []
  | String c r => c :: units r
  end.

(** A list cut into pieces of [n] elements, the last one shorter when
    the length is no multiple of [n]; [fuel] bounds the number of
    pieces. *)
Fixpoint chunks_of (fuel n : nat) (l : list val) : list (list val) :=
  match fuel with
  | 0 => []
  | S fuel =>
      match l with
      | [] => []
      | _ :: _ => take n l :: chunks_of fuel n (drop n l)
      end
  end.

(** The fields a loop over the keys of a mapping puts in a new mapping:
    [g] gives the value that goes under a key, if one does. *)
Definition select_fields (g : key -> val -> option val) (props : list (key * val))
  : list (key * val) :=
  omap (fun p => (fun y => (p.1, y)) <$> g p.1 p.2) props.

(** A key that is a name (no array index), as the keys of records are. *)
Definition is_name (k : key) : bool :=
  match k with
  | KStr s => bool_decide (to_key s = k)
  | KIdx _ => false
  end.

(** Following own keys of keyed mappings along a path, the walk comes
    to [null] or [undefined] with segments left, or to a keyed mapping
    that has no own property for the segment. *)
Fixpoint lacks (h : heap) (v : val) (keys : list string) : bool :=
  match keys with
  | [] => false
  | k :: keys =>
      match v with
      | VUndef | VNull => true
      | VRef l =>
          match h !! l with
          | Some (OMap props) =>
              match prop_lookup (to_key k) props with
              | Some c => lacks h c keys
              | None => true
              end
          | _ => false
          end
      | _ => false
      end
  end.

(** Following own keys of keyed mappings along a path, the walk meets a
    falsy value, or a keyed mapping without the segment (which no
    prototype of the host resolves either). *)
Fixpoint blocked `{Host} (h : heap) (v : val) (keys : list string) : bool :=
  match keys with
  | [] => false
  | k :: keys =>
      match v with
      | VRef l =>
          match h !! l with
          | Some (OMap props) =>
              match prop_lookup (to_key k) props with
              | Some c => negb (truthy c) || blocked h c keys
              | None => negb (inherited ObjectProto (to_key k))
              end
          | _ => false
          end
      | _ => false
      end
  end.

(** No keyed mapping of the store has an own property that hides
    [hasOwnProperty]. *)
Definition unshadowed (h : heap) : Prop :=
  forall l props, h !! l = Some (OMap props) ->
    prop_lookup (KStr "hasOwnProperty") props = None.

(** A primitive value as a value of the data model. *)
Definition value_of_primitive (v : val) : Value :=
  match v with
  | VUndef | VRef _ => Undefined
  | VNull => Null
  | VBool b => Boolean b
  | VNum x => Number x
  | VStr s => Text s
  end.


(** The place of a number other than [NaN] in the order of [<]: the sign
    class first (negative infinity, negative, zero, positive, positive
    infinity), then the exponent and the significand, both negated for a
    negative number. The two zeros have one place. *)
Definition rank (x : number) : Z * Z * Z :=
  match x with
  | S754_zero _ | S754_nan => (0, 0, 0)%Z
  | S754_infinity s => (if s then (-2)%Z else 2%Z, 0%Z, 0%Z)
  | S754_finite s m e => if s then ((-1)%Z, (- e)%Z, Z.neg m) else (1%Z, e, Z.pos m)
  end.

(** Triples compared component by component. *)
Definition lex3 (p q : Z * Z * Z) : comparison :=
  match (p.1.1 ?= q.1.1)%Z with
  | Eq => match (p.1.2 ?= q.1.2)%Z with
          | Eq => (p.2 ?= q.2)%Z
          | c => c
          end
  | c => c
  end.

(** [ord] is a total preorder on the elements of [U]: the two argument
    orders give opposite results, and "before" and "tied" compose. *)
Definition order_on (U : list val) (ord : val -> val -> comparison) : Prop :=
  (forall a b, a ∈ U -> b ∈ U -> ord b a = CompOpp (ord a b))
  /\ (forall a b c, a ∈ U -> b ∈ U -> c ∈ U ->
        ord a b = Lt -> ord b c = Lt -> ord a c = Lt)
  /\ (forall a b c, a ∈ U -> b ∈ U -> c ∈ U ->
        ord a b = Eq -> ord b c = Eq -> ord a c = Eq)
  /\ (forall a b c, a ∈ U -> b ∈ U -> c ∈ U ->
        ord a b = Lt -> ord b c = Eq -> ord a c = Lt)
  /\ (forall a b c, a ∈ U -> b ∈ U -> c ∈ U ->
        ord a b = Eq -> ord b c = Lt -> ord a c = Lt).

(** Every element of [items] holds a string under the key [k]. *)
Definition text_column `{Host} (h : heap) (items : list val) (k : val) : Prop :=
  forall a, a ∈ items -> exists s, get_elem a k h = Ret (VStr s) h.

(** Every element of [items] holds a number other than [NaN] under the
    key [k]. *)
Definition number_column `{Host} (h : heap) (items : list val) (k : val) : Prop :=
  forall a, a ∈ items -> exists x, get_elem a k h = Ret (VNum x) h /\ x <> NaN.

End Model.

(* ===================================================================== *)
(** * Stores of the scenarios *)
(* ===================================================================== *)

Module Examples.
Import JS Model.

(** [{user: {name: 'Sam'}}] at location 1. *)
Definition sam_heap : heap :=
  [ OMap [(KStr "name", VStr "Sam")]; OMap [(KStr "user", VRef 0)] ].

Definition sam_value : Value := Mapping [(KStr "user", Mapping [(KStr "name", Text "Sam")])].

(** [[1, {k: [2, 3]}]] at location 2. *)
Definition flatten_heap : heap :=
  [ OArr [VNum (num_of_nat 2); VNum (num_of_nat 3)];
    OMap [(KStr "k", VRef 0)];
    OArr [VNum (num_of_nat 1); VRef 1] ].

Definition flatten_value : Value :=
  Sequence [Number (num_of_nat 1);
            Mapping [(KStr "k", Sequence [Number (num_of_nat 2); Number (num_of_nat 3)])]].

(** [{}] at location 0 and [{a: {b: 1}}] at location 2. *)
Definition merge_heap : heap :=
  [ OMap []; OMap [(KStr "b", VNum (num_of_nat 1))]; OMap [(KStr "a", VRef 1)] ].

(** [{a: {x: 1}, c: 3}] at location 1 and [{a: {y: 2}, c: [4]}] at
    location 4. *)
Definition merge_both_heap : heap :=
  [ OMap [(KStr "x", VNum (num_of_nat 1))];
    OMap [(KStr "a", VRef 0); (KStr "c", VNum (num_of_nat 3))];
    OMap [(KStr "y", VNum (num_of_nat 2))];
    OArr [VNum (num_of_nat 4)];
    OMap [(KStr "a", VRef 2); (KStr "c", VRef 3)] ].


(** [[{when: new Date(1000), n: 1}, 'x']] at location 2. *)
Definition clone_heap : heap :=
  [ ODate (num_of_nat 1000);
    OMap [(KStr "when", VRef 0); (KStr "n", VNum (num_of_nat 1))];
    OArr [VRef 1; VStr "x"] ].

Definition clone_value : Value :=
  Sequence [Mapping [(KStr "when", DateLike (num_of_nat 1000)); (KStr "n", Number (num_of_nat 1))];
            Text "x"].

(** [[{n: 'Bob', a: 30}, {n: 'amy', a: 30}, {n: 'Cid', a: 25}]] at
    location 3, the keys [['a', 'n']] at 4 and the orders [['desc']] at 5. *)
Definition sort_heap : heap :=
  [ OMap [(KStr "n", VStr "Bob"); (KStr "a", VNum (num_of_nat 30))];
    OMap [(KStr "n", VStr "amy"); (KStr "a", VNum (num_of_nat 30))];
    OMap [(KStr "n", VStr "Cid"); (KStr "a", VNum (num_of_nat 25))];
    OArr [VRef 0; VRef 1; VRef 2];
    OArr [VStr "a"; VStr "n"];
    OArr [VStr "desc"] ].

(** [[{a: 2}, {}, {a: 1}]] at location 3. *)
Definition sort_gap_heap : heap :=
  [ OMap [(KStr "a", VNum (num_of_nat 2))];
    OMap [];
    OMap [(KStr "a", VNum (num_of_nat 1))];
    OArr [VRef 0; VRef 1; VRef 2] ].

(** [[{t: 'a'}, {t: 'b'}, {t: 'a'}]] at location 3. *)
Definition group_heap : heap :=
  [ OMap [(KStr "t", VStr "a")];
    OMap [(KStr "t", VStr "b")];
    OMap [(KStr "t", VStr "a")];
    OArr [VRef 0; VRef 1; VRef 2] ].

(** [[1, 2, 1, NaN, 'a', 'a', NaN]] at location 0. *)
Definition unique_heap : heap :=
  [ OArr [VNum (num_of_nat 1); VNum (num_of_nat 2); VNum (num_of_nat 1); VNum NaN;
          VStr "a"; VStr "a"; VNum NaN] ].

(** [[0, 1, false, 2, '', 3, null, undefined, NaN]] at location 0. *)
Definition compact_heap : heap :=
  [ OArr [VNum (num_of_nat 0); VNum (num_of_nat 1); VBool false; VNum (num_of_nat 2);
          VStr ""; VNum (num_of_nat 3); VNull; VUndef; VNum NaN] ].

(** [[1, 2, 3, 4, 5]] at location 0. *)
Definition chunk_heap : heap :=
  [ OArr [VNum (num_of_nat 1); VNum (num_of_nat 2); VNum (num_of_nat 3);
          VNum (num_of_nat 4); VNum (num_of_nat 5)] ].

(** The number -1. *)
Definition minus_one : number := S754_finite true 4503599627370496 (-52).

(** [{a: 1, b: 2, c: 3}] at location 0 and [['a', 'c']] at location 1. *)
Definition pick_heap : heap :=
  [ OMap [(KStr "a", VNum (num_of_nat 1)); (KStr "b", VNum (num_of_nat 2));
          (KStr "c", VNum (num_of_nat 3))];
    OArr [VStr "a"; VStr "c"] ].

(** [new Date(5)] at location 0, [{}] at location 1 and
    [new Date(NaN)] at location 2. *)
Definition date_heap : heap :=
  [ ODate (num_of_nat 5); OMap []; ODate NaN ].

(** [{a: {x: 1}, c: 3}] at location 1 and [{c: [4], d: 5}] at
    location 3. *)
Definition merge_flat_heap : heap :=
  [ OMap [(KStr "x", VNum (num_of_nat 1))];
    OMap [(KStr "a", VRef 0); (KStr "c", VNum (num_of_nat 3))];
    OArr [VNum (num_of_nat 4)];
    OMap [(KStr "c", VRef 2); (KStr "d", VNum (num_of_nat 5))] ].

Definition merge_flat_fields : list (key * Value) :=
  [ (KStr "a", Mapping [(KStr "x", Number (num_of_nat 1))]);
    (KStr "c", Number (num_of_nat 3)) ].



(** [{hasOwnProperty: 1}] at location 0 and [{x: 1}] at location 1. *)
Definition shadow_heap : heap :=
  [ OMap [(KStr "hasOwnProperty", VNum (num_of_nat 1))];
    OMap [(KStr "x", VNum (num_of_nat 1))] ].

(** [{hasOwnProperty: 1, d: new Date(0)}] at location 1. *)
Definition shadow_date_heap : heap :=
  [ ODate (num_of_nat 0);
    OMap [(KStr "hasOwnProperty", VNum (num_of_nat 1)); (KStr "d", VRef 0)] ].

(** [[1, 'x']] at locations 0 and 1, [{t: 'a', n: [1, 'x']}] at
    locations 2 and 3, each with its own array. *)
Definition equal_heap : heap :=
  [ OArr [VNum (num_of_nat 1); VStr "x"];
    OArr [VNum (num_of_nat 1); VStr "x"];
    OMap [(KStr "t", VStr "a"); (KStr "n", VRef 0)];
    OMap [(KStr "t", VStr "a"); (KStr "n", VRef 1)] ].

Definition equal_value : Value :=
  Mapping [(KStr "t", Text "a");
           (KStr "n", Sequence [Number (num_of_nat 1); Text "x"])].

End Examples.

Import JS Model.
Local Open Scope js_scope.

(* ===================================================================== *)
(** * Basic facts *)
(* ===================================================================== *)

Section Facts.
Context `{Host}.

Lemma Value_nested_ind (P : Value -> Prop) :
  P Undefined -> P Null -> (forall b, P (Boolean b)) -> (forall x, P (Number x)) ->
  (forall s, P (Text s)) ->
  (forall ts, Forall P ts -> P (Sequence ts)) ->
  (forall kts, Forall (fun kt => P kt.2) kts -> P (Mapping kts)) ->
  (forall t, P (DateLike t)) ->
  forall t, P t.
Proof.
  intros HU HN HB HNu HT HS HM HD.
  fix IH 1. intros [ | | b | x | s | ts | kts | t].
  - exact HU.
  - exact HN.
  - apply HB.
  - apply HNu.
  - apply HT.
  - apply HS. induction ts as [|t ts IHts]; constructor; [apply IH | exact IHts].
  - apply HM. induction kts as [|[k t] kts IHkts]; constructor; [apply IH | exact IHkts].
  - apply HD.
Qed.

(** ** Computations *)

Lemma bind_Ret {A B} (c : M A) (k : A -> M B) h a h' :
  c h = Ret a h' -> bind c k h = k a h'.
Proof. intros Hc. unfold bind. by rewrite Hc. Qed.

Lemma bind_assoc {A B C} (c : M A) (k1 : A -> M B) (k2 : B -> M C) h :
  bind (bind c k1) k2 h = bind c (fun x => bind (k1 x) k2) h.
Proof. unfold bind. by destruct (c h). Qed.

Lemma bind_inv {A B} (c : M A) (k : A -> M B) h b h' :
  bind c k h = Ret b h' -> exists a h1, c h = Ret a h1 /\ k a h1 = Ret b h'.
Proof. unfold bind. destruct (c h) as [a h1| | |]; try done. eauto. Qed.

Lemma mapM_pure {A B} (f : A -> M B) xs ys h :
  Forall2 (fun x y => f x h = Ret y h) xs ys -> mapM f xs h = Ret ys h.
Proof.
  induction 1 as [|x y xs ys Hxy _ IH]; [done|].
  cbn [mapM]. rewrite (bind_Ret _ _ _ _ _ Hxy), (bind_Ret _ _ _ _ _ IH). done.
Qed.

(** ** Running the primitives *)

Lemma run_ret {A} (a : A) h : ret a h = Ret a h.
Proof. reflexivity. Qed.

Lemma run_isArray v h : isArray v h = Ret (is_array h v) h.
Proof. reflexivity. Qed.

Lemma run_instanceofDate v h : instanceofDate v h = Ret (is_date h v) h.
Proof. reflexivity. Qed.

Lemma run_isObject v h :
  Utils.isObject v h
  = Ret (negb (strict_eq v VNull) && jstype_eqb (typeof v) TObject && negb (is_array h v)) h.
Proof. reflexivity. Qed.

Lemma run_load h l o : h !! l = Some o -> load l h = Ret o h.
Proof. intros Hl. unfold load. by rewrite Hl. Qed.

Lemma run_alloc o h : alloc o h = Ret (VRef (length h)) (h ++ [o]).
Proof. reflexivity. Qed.

Lemma run_array_items h l items :
  h !! l = Some (OArr items) -> array_items (VRef l) h = Ret items h.
Proof. intros Hl. unfold array_items, bind, load. by rewrite Hl. Qed.

Lemma run_getTime h l t : h !! l = Some (ODate t) -> getTime (VRef l) h = Ret t h.
Proof. intros Hl. unfold getTime, bind, load. by rewrite Hl. Qed.

Lemma run_object_keys h l o :
  h !! l = Some o -> object_keys (VRef l) h = Ret (own_keys o) h.
Proof. intros Hl. unfold object_keys, bind, load. by rewrite Hl. Qed.

Lemma run_counter_ge_inf c h : counter_ge c (VNum Infinity) h = Ret false h.
Proof. reflexivity. Qed.

Lemma is_array_seq h l items : h !! l = Some (OArr items) -> is_array h (VRef l) = true.
Proof. intros Hl. unfold is_array. by rewrite Hl. Qed.

Lemma is_array_map h l props : h !! l = Some (OMap props) -> is_array h (VRef l) = false.
Proof. intros Hl. unfold is_array. by rewrite Hl. Qed.

Lemma is_array_date h l t : h !! l = Some (ODate t) -> is_array h (VRef l) = false.
Proof. intros Hl. unfold is_array. by rewrite Hl. Qed.

Lemma is_date_seq h l items : h !! l = Some (OArr items) -> is_date h (VRef l) = false.
Proof. intros Hl. unfold is_date. by rewrite Hl. Qed.

Lemma is_date_map h l props : h !! l = Some (OMap props) -> is_date h (VRef l) = false.
Proof. intros Hl. unfold is_date. by rewrite Hl. Qed.

Lemma is_date_date h l t : h !! l = Some (ODate t) -> is_date h (VRef l) = true.
Proof. intros Hl. unfold is_date. by rewrite Hl. Qed.

Lemma run_get_prop_own h l props k x :
  h !! l = Some (OMap props) -> prop_lookup k props = Some x ->
  get_prop (VRef l) k h = Ret x h.
Proof. intros Hl Hk. unfold get_prop, bind, load. by rewrite Hl, Hk. Qed.

Lemma run_get_prop_absent h l props k :
  h !! l = Some (OMap props) -> prop_lookup k props = None ->
  inherited ObjectProto k = false ->
  get_prop (VRef l) k h = Ret VUndef h.
Proof. intros Hl Hk Hi. unfold get_prop, bind, load, absent. by rewrite Hl, Hk, Hi. Qed.

Lemma run_get_prop_item h l items i x :
  h !! l = Some (OArr items) -> items !! i = Some x ->
  get_prop (VRef l) (KIdx i) h = Ret x h.
Proof. intros Hl Hi. unfold get_prop, bind, load. by rewrite Hl, Hi. Qed.

(** ** Own properties *)

Lemma prop_lookup_None k (props : list (key * val)) : prop_lookup k props = None <-> k ∉ props.*1.
Proof.
  induction props as [|[k' v] props IH]; cbn.
  - split; [intros _; apply not_elem_of_nil | done].
  - destruct (decide (k = k')) as [->|Hne].
    + split; [done|]. intros Hn. exfalso. apply Hn. left.
    + rewrite IH, not_elem_of_cons. tauto.
Qed.

Lemma prop_lookup_elem k v props : prop_lookup k props = Some v -> (k, v) ∈ props.
Proof.
  induction props as [|[k' v'] props IH]; cbn; [done|].
  destruct (decide (k = k')) as [->|Hne].
  - intros [= ->]. left.
  - intros Hl. right. auto.
Qed.

Lemma prop_lookup_NoDup k v props :
  NoDup props.*1 -> (k, v) ∈ props -> prop_lookup k props = Some v.
Proof.
  induction props as [|[k' v'] props IH]; cbn; intros Hnd Hin.
  - by apply elem_of_nil in Hin.
  - apply NoDup_cons in Hnd as [Hk' Hnd].
    apply elem_of_cons in Hin as [[= -> ->]|Hin].
    + by rewrite decide_True.
    + rewrite decide_False; [auto|].
      intros ->. apply Hk'. apply list_elem_of_fmap. by exists (k', v).
Qed.

Lemma ordered_keys_NoDup ks : ordered_keys ks = true -> NoDup ks.
Proof.
  induction ks as [|k ks IH]; cbn; [constructor|].
  rewrite andb_true_iff, forallb_forall. intros [Hk Hks].
  constructor; [|auto].
  intros Hin. apply list_elem_of_In in Hin. specialize (Hk _ Hin).
  apply andb_true_iff in Hk as [_ Hk].
  apply negb_true_iff, bool_decide_eq_false in Hk. done.
Qed.

Lemma repr_fields_keys h (props : list (key * val)) (kts : list (key * Value)) :
  Forall2 (fun p q => p.1 = q.1 /\ repr h p.2 q.2) props kts -> props.*1 = kts.*1.
Proof. induction 1 as [|[??] [??] ?? [??]]; cbn in *; congruence. Qed.

Lemma hasOwnProperty_map h l (props : list (key * val)) k :
  h !! l = Some (OMap props) ->
  KStr "hasOwnProperty" ∉ props.*1 ->
  hasOwnProperty (VRef l) k h = Ret (bool_decide (is_Some (prop_lookup k props))) h.
Proof.
  intros Hl Hn. unfold hasOwnProperty, bind, load. rewrite Hl.
  apply prop_lookup_None in Hn. by rewrite Hn.
Qed.

Lemma plain_keys_hasOwnProperty ks :
  forallb plain_key ks = true -> KStr "hasOwnProperty" ∉ ks.
Proof.
  rewrite forallb_forall. intros Hall Hin. apply list_elem_of_In in Hin.
  specialize (Hall _ Hin). unfold plain_key in Hall.
  apply andb_true_iff in Hall as [_ Hall].
  apply negb_true_iff, bool_decide_eq_false in Hall. done.
Qed.


End Facts.

Create HintDb js.
#[global] Hint Resolve run_ret run_isArray run_instanceofDate run_isObject run_load
  run_alloc run_array_items run_getTime run_object_keys run_counter_ge_inf
  run_get_prop_own run_get_prop_absent run_get_prop_item : js.

(** One step of a computation whose first action is known. *)
Ltac mstep :=
  rewrite ?bind_assoc; erewrite bind_Ret by (eauto with js); cbv beta iota.

Ltac msimp :=
  repeat first
    [ erewrite is_array_seq by eassumption
    | erewrite is_array_map by eassumption
    | erewrite is_array_date by eassumption
    | erewrite is_date_seq by eassumption
    | erewrite is_date_map by eassumption
    | erewrite is_date_date by eassumption ];
  cbn [negb andb orb strict_eq typeof truthy jstype_eqb nat_ge_num Infinity Bool.eqb].

Section Traversals.
Context `{Host}.

Lemma depth_seq_elem t (ts : list Value) : t ∈ ts -> depth t < depth (Sequence ts).
Proof.
  cbn [depth]. induction 1 as [t ts|t t' ts _ IH]; cbn [foldr]; lia.
Qed.

Lemma depth_map_elem (kt : key * Value) kts : kt ∈ kts -> depth kt.2 < depth (Mapping kts).
Proof.
  cbn [depth]. induction 1 as [t ts|t t' ts _ IH]; cbn [foldr]; lia.
Qed.

Lemma well_keyed_seq_elem t (ts : list Value) :
  well_keyed (Sequence ts) = true -> t ∈ ts -> well_keyed t = true.
Proof.
  cbn [well_keyed]. rewrite forallb_forall. intros Hall Hin.
  apply Hall. by apply list_elem_of_In.
Qed.

Lemma well_keyed_map_elem (kt : key * Value) kts :
  well_keyed (Mapping kts) = true -> kt ∈ kts -> well_keyed kt.2 = true.
Proof.
  cbn [well_keyed]. rewrite !andb_true_iff, !forallb_forall. intros (_ & Hall) Hin.
  apply Hall. by apply list_elem_of_In.
Qed.

Lemma Forall2_elem {A B} (R : A -> B -> Prop) l k :
  Forall2 R l k -> Forall2 (fun x y => R x y /\ x ∈ l /\ y ∈ k) l k.
Proof.
  induction 1 as [|x y l k Hxy _ IH]; constructor.
  - repeat split; [done|left|left].
  - eapply Forall2_impl; [exact IH|]. intros ?? (?&?&?). repeat split; [done|by right|by right].
Qed.

(** What a well-keyed mapping in the store offers at each of its fields. *)
Lemma repr_map_fields h l props kts :
  h !! l = Some (OMap props) ->
  Forall2 (fun p q => p.1 = q.1 /\ repr h p.2 q.2) props kts ->
  well_keyed (Mapping kts) = true ->
  Forall2 (fun p q =>
    p.1 = q.1 /\ repr h p.2 q.2 /\ q ∈ kts
    /\ hasOwnProperty (VRef l) p.1 h = Ret true h
    /\ get_prop (VRef l) p.1 h = Ret p.2 h) props kts.
Proof.
  intros Hl Hprops Hwk.
  pose proof (repr_fields_keys _ _ _ Hprops) as Hkeys.
  cbn [well_keyed] in Hwk. apply andb_true_iff in Hwk as [Hwk _].
  apply andb_true_iff in Hwk as [Hord Hplain].
  apply ordered_keys_NoDup in Hord. apply plain_keys_hasOwnProperty in Hplain.
  rewrite <- Hkeys in Hord, Hplain.
  eapply Forall2_impl; [apply Forall2_elem, Hprops|].
  intros [k v] [k' t] ([Hk Hv] & Hp & Hq). cbn [fst snd] in *. subst k'.
  pose proof (prop_lookup_NoDup _ _ _ Hord Hp) as Hlook.
  repeat split; try done.
  - rewrite (hasOwnProperty_map _ _ _ _ Hl Hplain), Hlook.
    by rewrite bool_decide_true.
  - eauto with js.
Qed.

Lemma flattenRecursive_leaves t :
  well_keyed t = true ->
  forall h v fuel c,
    repr h v t -> depth t < fuel ->
    Data.flattenRecursive fuel (VNum Infinity) v c h = Ret (leaves t) h.
Proof.
  induction t as [ | | b | x | s | ts IH | kts IH | d] using Value_nested_ind;
    intros Hwk h v fuel c Hr Hfuel;
    inversion Hr as [ | | | | | l items ts' Hl Hitems | l props kts' Hl Hprops | l t' Hl];
    subst; (destruct fuel as [|fuel]; [lia|]); try reflexivity.
  - (* sequence *)
    cbn [Data.flattenRecursive]. mstep. msimp. mstep. msimp. mstep.
    rewrite (bind_Ret _ _ _ (map leaves ts) h); [reflexivity|].
    apply mapM_pure, Forall2_fmap_r.
    rewrite Forall_forall in IH.
    eapply Forall2_impl; [apply Forall2_elem, Hitems|].
    intros x t (Hx & _ & Ht). cbn beta.
    apply IH; [done|by eapply well_keyed_seq_elem|done|].
    apply depth_seq_elem in Ht. lia.
  - (* mapping *)
    cbn [Data.flattenRecursive]. mstep. msimp. mstep. msimp. mstep.
    rewrite (bind_Ret _ _ _ (map (fun kt => leaves kt.2) kts) h); [reflexivity|].
    cbn [own_keys]. apply mapM_pure, Forall2_fmap_l, Forall2_fmap_r.
    rewrite Forall_forall in IH.
    eapply Forall2_impl; [apply (repr_map_fields _ _ _ _ Hl Hprops Hwk)|].
    intros [k v] [k' t] (Hk & Hv & Ht & Hown & Hget). unfold compose. cbn [fst snd] in *. subst k'.
    rewrite (bind_Ret _ _ _ _ _ Hown). cbv beta iota.
    rewrite (bind_Ret _ _ _ _ _ Hget).
    apply (IH _ Ht); [by eapply (well_keyed_map_elem (k, t))|done|].
    apply depth_map_elem in Ht. cbn [snd] in *. lia.
  - (* date *)
    cbn [Data.flattenRecursive]. mstep. msimp. mstep. msimp. mstep. reflexivity.
Qed.

End Traversals.
(* ===================================================================== *)
(** * The store across a call; [groupBy] *)
(* ===================================================================== *)

Section Stores.
Context `{Host}.

Lemma kept_refl h : kept h h.
Proof. by intros l o. Qed.

Lemma kept_trans h1 h2 h3 : kept h1 h2 -> kept h2 h3 -> kept h1 h3.
Proof. intros H12 H23 l o Hl. auto. Qed.

Lemma kept_app h k : kept h (h ++ k).
Proof. intros l o Hl. by apply lookup_app_l_Some. Qed.

Lemma kept_length h h' : kept h h' -> length h <= length h'.
Proof.
  intros Hk. destruct (decide (length h <= length h')) as [|Hn]; [done|].
  destruct (lookup_lt_is_Some_2 h (length h')) as [o Ho]; [lia|].
  apply Hk in Ho. apply lookup_lt_Some in Ho. lia.
Qed.

Lemma kept_insert h h' l o : kept h h' -> length h <= l -> kept h (<[l := o]> h').
Proof.
  intros Hk Hl l' o' Hl'. rewrite list_lookup_insert_ne; [auto|].
  apply lookup_lt_Some in Hl'. lia.
Qed.

Lemma prop_lookup_insert k x (props : list (key * val)) k' :
  prop_lookup k props = None ->
  prop_lookup k' (prop_insert k x props)
  = if decide (k' = k) then Some x else prop_lookup k' props.
Proof.
  induction props as [|[k0 v0] props IH]; cbn; intros Hk.
  - done.
  - destruct (decide (k = k0)) as [|Hne]; [done|].
    destruct (goes_before k k0); cbn.
    + by destruct (decide (k' = k)).
    + rewrite (IH Hk). destruct (decide (k' = k0)) as [->|]; [|done].
      by rewrite decide_False by done.
Qed.

Lemma prop_lookup_replace k x (props : list (key * val)) k' :
  is_Some (prop_lookup k props) ->
  prop_lookup k' (prop_replace k x props)
  = if decide (k' = k) then Some x else prop_lookup k' props.
Proof.
  induction props as [|[k0 v0] props IH]; cbn; intros Hk.
  - by destruct Hk.
  - destruct (decide (k = k0)) as [<-|Hne]; cbn.
    + by destruct (decide (k' = k)).
    + rewrite (IH Hk). destruct (decide (k' = k0)) as [->|]; [|done].
      by rewrite decide_False by done.
Qed.

Lemma run_set_prop_new h l props k x :
  h !! l = Some (OMap props) -> prop_lookup k props = None ->
  inherited ObjectProto k = false ->
  set_prop (VRef l) k x h = Ret tt (<[l := OMap (prop_insert k x props)]> h).
Proof. intros Hl Hk Hi. unfold set_prop, bind, load. by rewrite Hl, Hk, Hi. Qed.

Lemma run_set_prop_own h l props k x :
  h !! l = Some (OMap props) -> is_Some (prop_lookup k props) ->
  set_prop (VRef l) k x h = Ret tt (<[l := OMap (prop_replace k x props)]> h).
Proof. intros Hl [y Hk]. unfold set_prop, bind, load. by rewrite Hl, Hk. Qed.

Lemma run_push h l items x :
  h !! l = Some (OArr items) ->
  push (VRef l) x h = Ret tt (<[l := OArr (items ++ [x])]> h).
Proof. intros Hl. unfold push, bind, load. by rewrite Hl. Qed.

Lemma forM_app {A} (l1 l2 : list A) f h h1 h2 :
  forM l1 f h = Ret tt h1 -> forM l2 f h1 = Ret tt h2 -> forM (l1 ++ l2) f h = Ret tt h2.
Proof.
  revert h. induction l1 as [|x l1 IH]; cbn [forM app]; intros h.
  - by intros [= ->].
  - intros Hb H2. apply bind_inv in Hb as ([] & h' & Hx & Hrest).
    rewrite (bind_Ret _ _ _ _ _ Hx). eauto.
Qed.


Lemma get_prop_kept h0 h v k g h1 :
  kept h0 h -> get_prop v k h0 = Ret g h1 -> get_prop v k h = Ret g h.
Proof.
  assert (Habs : forall p, absent p k h0 = Ret g h1 -> absent p k h = Ret g h).
  { intros p. unfold absent. destruct (inherited p k); [done|]. by intros [= <- _]. }
  intros Hkept. destruct v as [ | | | |s|l]; cbn [get_prop]; try done.
  - by apply Habs.
  - by apply Habs.
  - destruct k as [i|n]; [destruct (String.get i s)|destruct (String.eqb n "length")];
      first [by apply Habs | by intros [= <- _]].
  - unfold bind, load.
    destruct (h0 !! l) as [o|] eqn:Hl; [|done]. rewrite (Hkept _ _ Hl).
    destruct o as [items|props|t].
    + destruct k as [i|n]; [destruct (items !! i)|destruct (String.eqb n "length")];
        first [by apply Habs | by intros [= <- _]].
    + destruct (prop_lookup k props); first [by apply Habs | by intros [= <- _]].
    + by apply Habs.
Qed.

Lemma group_key_get h0 k item gk h kv :
  group_key h0 k item = Some gk -> kept h0 h -> to_property_key kv = Some k ->
  exists g, get_elem item kv h = Ret g h /\ to_property_key g = Some gk
            /\ inherited ObjectProto gk = false.
Proof.
  unfold group_key. intros Hg Hk Hkv.
  destruct (get_prop item k h0) as [g h1| | |] eqn:Hget; try done.
  destruct (to_property_key g) as [gk'|] eqn:Hgk; [|done].
  destruct (inherited ObjectProto gk') eqn:Hi; [done|]. injection Hg as ->.
  exists g. split; [|done]. unfold get_elem. rewrite Hkv. by eapply get_prop_kept.
Qed.




End Stores.
(* ===================================================================== *)
(** * Dot paths: [get] *)
(* ===================================================================== *)

Section Paths.
Context `{Host}.

Lemma split_not_nil sep s : split sep s <> [].
Proof.
  destruct s as [|c s]; cbn; [done|].
  destruct (Ascii.eqb c sep); [done|]. by destruct (split sep s).
Qed.

Lemma get_loop_undefined keys d h : Utils.get_loop keys VUndef d h = Ret d h.
Proof. by destruct keys. Qed.

Lemma get_loop_missing keys d h :
  forall v, missing h v keys = true -> Utils.get_loop keys v d h = Ret d h.
Proof.
  induction keys as [|k keys IH]; intros v Hm; cbn [missing] in Hm; [done|].
  cbn [Utils.get_loop].
  destruct v as [ | | | | |l]; try done.
  destruct (h !! l) as [[|props|]|] eqn:Hl; try done. msimp.
  destruct (prop_lookup (to_key k) props) as [c|] eqn:Hk.
  - mstep. auto.
  - apply negb_true_iff in Hm. mstep. apply get_loop_undefined.
Qed.

Lemma get_loop_stored keys d h :
  forall v x, stored h v keys = Some x ->
    Utils.get_loop keys v d h = Ret (if strict_eq x VUndef then d else x) h.
Proof.
  induction keys as [|k keys IH]; intros v x Hs; cbn [stored] in Hs.
  - injection Hs as ->. cbn [Utils.get_loop]. by destruct (strict_eq x VUndef).
  - cbn [Utils.get_loop].
    destruct v as [ | | | | |l]; try done.
    destruct (h !! l) as [[|props|]|] eqn:Hl; try done. msimp.
    destruct (prop_lookup (to_key k) props) as [c|] eqn:Hk; [|done].
    mstep. auto.
Qed.

(** [get] of a path at which a value is stored returns the value, or
    the default when the value is [undefined]. *)
Lemma get_stored h obj path d x :
  stored h obj (split "." path) = Some x ->
  Utils.get obj path d h = Ret (if strict_eq x VUndef then d else x) h.
Proof.
  intros Hs. unfold Utils.get. mstep.
  destruct (negb _) eqn:Ho; [|by apply get_loop_stored].
  exfalso. pose proof (split_not_nil "." path) as Hne.
  destruct (split "." path) as [|k keys]; [done|]. cbn [stored] in Hs.
  destruct obj as [ | | | | |l]; try done.
  destruct (h !! l) as [[|props|]|] eqn:Hl; try done.
  revert Ho. msimp. done.
Qed.

(** C8, as the code has it: [get(obj, p, d)] returns [d] when [obj] is
    not an object and when a segment of [p] is missing ([missing]:
    following own keys of keyed mappings, the walk comes to [null] or
    [undefined] with segments left, or to a keyed mapping that lacks the
    segment, which is no name that [Object.prototype] defines); when a
    value is stored at [p], [get] returns it, unless it is [undefined],
    for which it returns [d]. *)
Theorem get_default_or_stored h obj path d :
  (Utils.isObject obj h = Ret false h -> Utils.get obj path d h = Ret d h)
  /\ (missing h obj (split "." path) = true -> Utils.get obj path d h = Ret d h)
  /\ (forall x, stored h obj (split "." path) = Some x ->
        Utils.get obj path d h = Ret (if strict_eq x VUndef then d else x) h).
Proof.
  split_and!.
  - intros Ho. unfold Utils.get. by rewrite (bind_Ret _ _ _ _ _ Ho).
  - intros Hm. unfold Utils.get. mstep.
    destruct (negb _); [done|]. by apply get_loop_missing.
  - intros x Hs. by apply get_stored.
Qed.

End Paths.

(* ===================================================================== *)
(** * What a call writes *)
(* ===================================================================== *)

Section Frames.
Context `{Host}.

Lemma wa_ret {A} lo (a : A) (Q : A -> Prop) : Q a -> writes_above lo (ret a) Q.
Proof. intros HQ h Hh. cbn. auto. Qed.

Lemma wa_bind {A B} lo (c : M A) (k : A -> M B) Q R :
  writes_above lo c Q ->
  (forall a, Q a -> writes_above lo (k a) R) ->
  writes_above lo (bind c k) R.
Proof.
  intros Hc Hk h Hh. specialize (Hc h Hh). unfold bind.
  destruct (c h) as [a h1|e msg h1| |]; [|done..].
  destruct Hc as (Hlow & Hlen & HQ).
  specialize (Hk a HQ h1 ltac:(lia)).
  destruct (k a h1) as [b h2|e msg h2| |]; [| |done..].
  - destruct Hk as (Hlow2 & Hlen2 & HR). split_and!; [|lia|done].
    intros l Hl. rewrite Hlow2, Hlow; done.
  - destruct Hk as (Hlow2 & Hlen2). split_and!; [|lia].
    intros l Hl. rewrite Hlow2, Hlow; done.
Qed.

Lemma wa_weaken {A} lo (c : M A) (Q Q' : A -> Prop) :
  writes_above lo c Q -> (forall a, Q a -> Q' a) -> writes_above lo c Q'.
Proof.
  intros Hc HQ h Hh. specialize (Hc h Hh).
  destruct (c h); [|done..]. destruct Hc as (?&?&?). auto.
Qed.

Lemma wa_reads {A} lo (c : M A) : reads_only c -> writes_above lo c (fun _ => True).
Proof.
  intros Hc h Hh. specialize (Hc h).
  destruct (c h); subst; auto.
Qed.

Lemma wa_fail {A} lo (c : M A) (Q : A -> Prop) :
  (forall h, match c h with Ret _ _ => False | Throw _ _ h' => h' = h | _ => True end) ->
  writes_above lo c Q.
Proof.
  intros Hc h Hh. specialize (Hc h).
  destruct (c h); subst; auto; done.
Qed.

Lemma wa_alloc lo o : writes_above lo (alloc o) (ref_above lo).
Proof.
  intros h Hh. cbn. split_and!.
  - intros l Hl. apply lookup_app_l. lia.
  - rewrite length_app. lia.
  - intros l [= <-]. done.
Qed.

Lemma wa_store lo l o : lo <= l -> writes_above lo (store l o) (fun _ => True).
Proof.
  intros Hl h Hh. cbn. split_and!; [|by rewrite length_insert|done].
  intros l' Hl'. apply list_lookup_insert_ne. lia.
Qed.

Lemma reads_only_load l : reads_only (load l).
Proof. intros h. unfold load. by destruct (h !! l). Qed.

Lemma reads_only_bind {A B} (c : M A) (k : A -> M B) :
  reads_only c -> (forall a, reads_only (k a)) -> reads_only (bind c k).
Proof.
  intros Hc Hk h. specialize (Hc h). unfold bind.
  destruct (c h) as [a h1| | |]; subst; try done. apply Hk.
Qed.

Lemma reads_only_ret {A} (a : A) : reads_only (ret a).
Proof. by intros h. Qed.

Lemma reads_only_reads {A} (f : heap -> A) : reads_only (reads f).
Proof. by intros h. Qed.

Lemma reads_only_throw {A} e msg : reads_only (throw (A := A) e msg).
Proof. by intros h. Qed.

Lemma reads_only_unmodelled {A} : reads_only (unmodelled (A := A)).
Proof. by intros h. Qed.

Lemma reads_only_absent p k : reads_only (absent p k).
Proof. unfold absent. destruct (inherited p k); [apply reads_only_unmodelled|apply reads_only_ret]. Qed.

Lemma reads_only_get_prop v k : reads_only (get_prop v k).
Proof.
  destruct v as [ | | | |s|l]; cbn [get_prop];
    try apply reads_only_throw; try apply reads_only_absent.
  - destruct k as [i|n]; [destruct (String.get i s)|destruct (String.eqb n "length")];
      first [apply reads_only_ret | apply reads_only_absent].
  - apply reads_only_bind; [apply reads_only_load|]. intros [items|props|t].
    + destruct k as [i|n]; [destruct (items !! i)|destruct (String.eqb n "length")];
        first [apply reads_only_ret | apply reads_only_absent].
    + destruct (prop_lookup k props); first [apply reads_only_ret | apply reads_only_absent].
    + apply reads_only_absent.
Qed.

Lemma reads_only_hasOwnProperty v k : reads_only (hasOwnProperty v k).
Proof.
  destruct v as [ | | | |s|l]; cbn [hasOwnProperty];
    try apply reads_only_throw; try apply reads_only_ret.
  apply reads_only_bind; [apply reads_only_load|]. intros [items|props|t];
    try apply reads_only_ret.
  destruct (prop_lookup _ props); [apply reads_only_throw|apply reads_only_ret].
Qed.

Lemma reads_only_isArray v : reads_only (isArray v).
Proof. apply reads_only_reads. Qed.

Lemma reads_only_instanceofDate v : reads_only (instanceofDate v).
Proof. apply reads_only_reads. Qed.

Lemma reads_only_isObject v : reads_only (Utils.isObject v).
Proof. by intros h. Qed.

Lemma reads_only_array_items v : reads_only (array_items v).
Proof.
  destruct v; try apply reads_only_unmodelled.
  apply reads_only_bind; [apply reads_only_load|].
  intros []; first [apply reads_only_ret | apply reads_only_unmodelled].
Qed.

Lemma reads_only_getTime v : reads_only (getTime v).
Proof.
  destruct v; try apply reads_only_unmodelled.
  apply reads_only_bind; [apply reads_only_load|].
  intros []; first [apply reads_only_ret | apply reads_only_unmodelled].
Qed.

Lemma reads_only_object_keys v : reads_only (object_keys v).
Proof.
  destruct v; try apply reads_only_unmodelled.
  apply reads_only_bind; [apply reads_only_load|]. intros o. apply reads_only_ret.
Qed.

Lemma wa_set_prop lo v k x :
  ref_above lo v -> writes_above lo (set_prop v k x) (fun _ => True).
Proof.
  intros Hv. destruct v as [ | | | |s|l]; cbn [set_prop].
  1-2: apply wa_reads, reads_only_throw.
  1-2: unfold no_property; destruct (inherited _ k);
    apply wa_reads; [apply reads_only_unmodelled|apply reads_only_throw].
  - apply wa_reads. unfold no_property.
    destruct k as [i|n]; [destruct (i <? String.length s)|destruct (String.eqb n "length")];
      try apply reads_only_throw;
      (destruct (inherited _ _); [apply reads_only_unmodelled|apply reads_only_throw]).
  - specialize (Hv l eq_refl).
    eapply wa_bind; [apply wa_reads, reads_only_load|]. intros [items|props|t] _.
    + destruct k as [i|n]; [|apply wa_reads, reads_only_unmodelled].
      destruct (i <? length items); [by apply wa_store|].
      destruct (i =? length items); [by apply wa_store|apply wa_reads, reads_only_unmodelled].
    + destruct (prop_lookup k props); [by apply wa_store|].
      destruct (inherited ObjectProto k); [apply wa_reads, reads_only_unmodelled|by apply wa_store].
    + apply wa_reads, reads_only_unmodelled.
Qed.

Lemma wa_mapM {A B} lo (f : A -> M B) l :
  (forall x, writes_above lo (f x) (fun _ => True)) ->
  writes_above lo (mapM f l) (fun _ => True).
Proof.
  intros Hf. induction l as [|x l IH]; cbn [mapM]; [by apply wa_ret|].
  eapply wa_bind; [apply Hf|]. intros y _.
  eapply wa_bind; [apply IH|]. intros ys _. by apply wa_ret.
Qed.

Lemma wa_forM {A} lo (f : A -> M unit) l :
  (forall x, writes_above lo (f x) (fun _ => True)) ->
  writes_above lo (forM l f) (fun _ => True).
Proof.
  intros Hf. induction l as [|x l IH]; cbn [forM]; [by apply wa_ret|].
  eapply wa_bind; [apply Hf|]. intros y _. apply IH.
Qed.

Lemma wa_if {A} lo (b : bool) (c1 c2 : M A) Q :
  writes_above lo c1 Q -> writes_above lo c2 Q -> writes_above lo (if b then c1 else c2) Q.
Proof. by destruct b. Qed.

(** [deepClone] writes only to what it allocates, and its result for an
    object is a new object. *)
Lemma deepClone_writes_above lo fuel :
  forall obj, writes_above lo (Utils.deepClone fuel obj) (fun v => is_ref obj -> ref_above lo v).
Proof.
  induction fuel as [|fuel IH]; intros obj; cbn [Utils.deepClone].
  { by intros h Hh. }
  destruct (strict_eq obj VNull || negb (jstype_eqb (typeof obj) TObject)) eqn:Hprim.
  { apply wa_ret. intros [l ->]. done. }
  eapply wa_bind; [apply wa_reads, reads_only_instanceofDate|]. intros d _.
  destruct d.
  { eapply wa_bind; [apply wa_reads, reads_only_getTime|]. intros t _.
    eapply wa_weaken; [apply wa_alloc|]. auto. }
  eapply wa_bind; [apply wa_reads, reads_only_isArray|]. intros a _.
  destruct a.
  { unfold array_map.
    eapply wa_bind; [apply wa_reads, reads_only_array_items|]. intros items _.
    eapply wa_bind; [apply wa_mapM|].
    - intros x. eapply wa_weaken; [apply IH|done].
    - intros ys _. eapply wa_weaken; [apply wa_alloc|]. auto. }
  eapply wa_bind; [apply wa_alloc|]. intros cloned Hcloned.
  eapply wa_bind; [apply wa_reads, reads_only_object_keys|]. intros keys _.
  eapply wa_bind.
  - apply wa_forM. intros key.
    eapply wa_bind; [apply wa_reads, reads_only_hasOwnProperty|]. intros own _.
    destruct own; [|by apply wa_ret].
    eapply wa_bind; [apply wa_reads, reads_only_get_prop|]. intros v _.
    eapply wa_bind; [eapply wa_weaken; [apply IH|done]|]. intros c _.
    by apply wa_set_prop.
  - intros _ _. apply wa_ret. auto.
Qed.

Lemma wa_isObject lo v : writes_above lo (Utils.isObject v) (fun b => b = true -> is_ref v).
Proof.
  intros h Hh. rewrite run_isObject. split_and!; [done..|].
  destruct v; cbn; try done. intros _. by eexists.
Qed.

(** [deepMerge] writes only to what it allocates. *)
Lemma deepMerge_writes_above lo fuel :
  forall target source, writes_above lo (Utils.deepMerge fuel target source) (fun _ => True).
Proof.
  induction fuel as [|fuel IH]; intros target source; cbn [Utils.deepMerge].
  { by intros h Hh. }
  eapply wa_bind; [apply deepClone_writes_above|]. intros result Hresult.
  eapply wa_bind; [apply wa_isObject|]. intros ot Hot.
  eapply wa_bind; [apply wa_isObject|]. intros os Hos.
  apply (wa_bind _ _ _ (fun _ => True)); [|intros; by apply wa_ret].
  destruct ot; [|by apply wa_ret]. destruct os; [|by apply wa_ret]. cbn [andb].
  specialize (Hresult (Hot eq_refl)).
  eapply wa_bind; [apply wa_reads, reads_only_object_keys|]. intros keys _.
  apply wa_forM. intros key.
  eapply wa_bind; [apply wa_reads, reads_only_hasOwnProperty|]. intros own _.
  destruct own; [|by apply wa_ret].
  eapply wa_bind; [apply wa_reads, reads_only_get_prop|]. intros sk _.
  eapply wa_bind; [apply wa_reads, reads_only_isObject|]. intros o _.
  destruct o.
  - eapply wa_bind; [apply wa_reads, reads_only_get_prop|]. intros tk _.
    apply (wa_bind _ _ _ (fun _ => True)).
    { apply wa_if; [|by apply wa_ret].
      eapply wa_bind; [apply wa_alloc|]. intros e _. by apply wa_set_prop. }
    intros _ _.
    eapply wa_bind; [apply wa_reads, reads_only_get_prop|]. intros tk' _.
    eapply wa_bind; [apply wa_reads, reads_only_get_prop|]. intros sk' _.
    eapply wa_bind; [apply IH|]. intros m _. by apply wa_set_prop.
  - eapply wa_bind; [apply wa_reads, reads_only_get_prop|]. intros sk' _.
    by apply wa_set_prop.
Qed.

Lemma writes_above_kept {A} (c : M A) Q h a h' :
  writes_above (length h) c Q -> c h = Ret a h' -> kept h h' /\ Q a.
Proof.
  intros Hc Hrun. specialize (Hc h (le_n _)). rewrite Hrun in Hc.
  destruct Hc as (Hlow & _ & HQ). split; [|done].
  intros l o Hl. rewrite Hlow; [done|]. by eapply lookup_lt_Some.
Qed.

End Frames.
(* ===================================================================== *)
(** * Values in the store: [deepClone], [isEqual] on equal values *)
(* ===================================================================== *)

Section Representation.
Context `{Host}.

Lemma reach_is_Some h v l : reach h v l -> is_Some (h !! l).
Proof. induction 1; eauto. Qed.

Lemma repr_child_seq h items ts x :
  Forall2 (repr h) items ts -> x ∈ items -> exists t, t ∈ ts /\ repr h x t.
Proof.
  intros HF Hx. apply list_elem_of_lookup in Hx as [i Hi].
  destruct (Forall2_lookup_l _ _ _ _ _ HF Hi) as (t & Ht & Hr).
  exists t. split; [|done]. by eapply list_elem_of_lookup_2.
Qed.

Lemma repr_child_map h (props : list (key * val)) (kts : list (key * Value)) x :
  Forall2 (fun p q => p.1 = q.1 /\ repr h p.2 q.2) props kts -> x ∈ props.*2 ->
  exists q, q ∈ kts /\ repr h x q.2.
Proof.
  intros HF Hx. apply list_elem_of_fmap in Hx as (p & -> & Hp).
  apply list_elem_of_lookup in Hp as [i Hi].
  destruct (Forall2_lookup_l _ _ _ _ _ HF Hi) as (q & Hq & _ & Hr).
  exists q. split; [|done]. by eapply list_elem_of_lookup_2.
Qed.

Lemma repr_agree t :
  forall h h' v,
    repr h v t -> (forall l, reach h v l -> h' !! l = h !! l) -> repr h' v t.
Proof.
  induction t as [ | | b | x | s | ts IH | kts IH | d] using Value_nested_ind;
    intros h h' v Hr Hag;
    inversion Hr as [ | | | | | l items ts' Hl Hitems | l props kts' Hl Hprops | l t' Hl];
    subst; try constructor.
  - assert (Hl' : h' !! l = Some (OArr items)).
    { rewrite Hag; [done|]. by eapply reach_here. }
    econstructor; [exact Hl'|].
    rewrite Forall_forall in IH.
    eapply Forall2_impl; [apply Forall2_elem, Hitems|].
    intros x t (Hx & Hxin & Htin). cbv beta.
    eapply IH; [done|exact Hx|].
    intros l' Hl'r. apply Hag. by eapply reach_child.
  - assert (Hl' : h' !! l = Some (OMap props)).
    { rewrite Hag; [done|]. by eapply reach_here. }
    econstructor; [exact Hl'|].
    rewrite Forall_forall in IH.
    eapply Forall2_impl; [apply Forall2_elem, Hprops|].
    intros p q ([Hk Hx] & Hpin & Hqin). cbv beta. split; [done|].
    eapply IH; [done|exact Hx|].
    intros l' Hl'r. apply Hag. eapply reach_child; [done| |done].
    cbn [children]. apply list_elem_of_fmap. by exists p.
  - rewrite Hag; [done|]. by eapply reach_here.
Qed.

Lemma repr_kept h h' v t : kept h h' -> repr h v t -> repr h' v t.
Proof.
  intros Hk Hr. eapply repr_agree; [done|].
  intros l Hl. destruct (reach_is_Some _ _ _ Hl) as [o Ho].
  by rewrite Ho, (Hk _ _ Ho).
Qed.

Lemma reach_agree h h' v l :
  reach h' v l ->
  forall t, repr h v t -> (forall l, reach h v l -> h' !! l = h !! l) -> reach h v l.
Proof.
  induction 1 as [l o Hl|l o x l' Hl Hx Hreach IH]; intros t Hr Hag.
  - inversion Hr; subst; by eapply reach_here.
  - assert (Hself : exists o0, h !! l = Some o0) by (inversion Hr; subst; eauto).
    destruct Hself as [o0 Ho0].
    assert (o0 = o) as ->.
    { rewrite <- (Hag l) in Ho0 by (by eapply reach_here). congruence. }
    assert (Hchild : exists t', repr h x t').
    { inversion Hr as [ | | | | | l1 items ts' Hl1 Hitems | l1 props kts' Hl1 Hprops | l1 t' Hl1];
        subst; rewrite Ho0 in Hl1; injection Hl1 as ->; cbn [children] in Hx.
      - destruct (repr_child_seq _ _ _ _ Hitems Hx) as (t' & _ & Ht'). eauto.
      - destruct (repr_child_map _ _ _ _ Hprops Hx) as (q & _ & Ht'). eauto.
      - by apply elem_of_nil in Hx. }
    destruct Hchild as [t' Ht'].
    eapply reach_child; [done..|].
    eapply IH; [done|]. intros l0 Hl0. apply Hag. by eapply reach_child.
Qed.

Lemma reach_kept h h' v t l : repr h v t -> kept h h' -> reach h' v l -> reach h v l.
Proof.
  intros Hr Hk Hreach. eapply reach_agree; [done..|].
  intros l0 Hl0. destruct (reach_is_Some _ _ _ Hl0) as [o Ho].
  by rewrite Ho, (Hk _ _ Ho).
Qed.

Lemma reach_prim h v l : reach h v l -> exists l0, v = VRef l0.
Proof. destruct 1; eauto. Qed.

Lemma above_insert lc h o c t :
  repr h c t -> (forall l, reach h c l -> lc < l) ->
  repr (<[lc := o]> h) c t /\ forall l, reach (<[lc := o]> h) c l -> lc < l.
Proof.
  intros Hr Hreach.
  assert (Hag : forall l, reach h c l -> <[lc := o]> h !! l = h !! l).
  { intros l Hl. apply list_lookup_insert_ne. specialize (Hreach l Hl). lia. }
  split; [by eapply repr_agree|].
  intros l Hl. apply Hreach. by eapply reach_agree.
Qed.

Lemma ordered_keys_prefix (ks1 ks2 : list key) k :
  ordered_keys (ks1 ++ k :: ks2) = true -> ordered_keys (ks1 ++ [k]) = true.
Proof.
  induction ks1 as [|k0 ks1 IH]; cbn [app ordered_keys forallb]; [by rewrite !andb_true_r|].
  rewrite !andb_true_iff, !forallb_forall. intros [Hk0 Hord]. split; [|auto].
  intros k' Hk'. apply Hk0. rewrite in_app_iff in *. cbn in *. tauto.
Qed.

Lemma prop_insert_last k x (cs : list (key * val)) :
  ordered_keys (cs.*1 ++ [k]) = true -> prop_insert k x cs = cs ++ [(k, x)].
Proof.
  induction cs as [|[k0 v0] cs IH]; cbn [fmap list_fmap app ordered_keys prop_insert fst];
    [done|].
  rewrite andb_true_iff, forallb_forall. intros [Hk0 Hord].
  specialize (Hk0 k). rewrite in_app_iff in Hk0. specialize (Hk0 (or_intror (or_introl eq_refl))).
  apply andb_true_iff in Hk0 as [Hk0 _]. apply negb_true_iff in Hk0. rewrite Hk0.
  f_equal. by apply IH.
Qed.

Lemma clone_fields h0 l props kts fuel :
  h0 !! l = Some (OMap props) ->
  KStr "hasOwnProperty" ∉ props.*1 ->
  ordered_keys kts.*1 = true ->
  forallb plain_key kts.*1 = true ->
  (forall q, q ∈ kts -> clones fuel q.2) ->
  forall todo_p todo_q,
    Forall2 (fun p q => p.1 = q.1 /\ repr h0 p.2 q.2 /\ q ∈ kts
                        /\ prop_lookup p.1 props = Some p.2) todo_p todo_q ->
    forall done_q cs h,
      kts = done_q ++ todo_q ->
      kept h0 h -> length h0 < length h ->
      h !! length h0 = Some (OMap cs) ->
      Forall2 (cloned_field (length h0) h) cs done_q ->
      exists cs' h',
        forM todo_p.*1 (fun key =>
          own <- hasOwnProperty (VRef l) key ;;
          if own then
            v <- get_prop (VRef l) key ;;
            c <- Utils.deepClone fuel v ;;
            set_prop (VRef (length h0)) key c
          else ret tt) h = Ret tt h'
        /\ kept h0 h' /\ length h0 < length h'
        /\ h' !! length h0 = Some (OMap cs')
        /\ Forall2 (cloned_field (length h0) h') cs' kts.
Proof.
  intros Hl Hhop Hord Hplain Hclones.
  induction 1 as [|p q todo_p todo_q (Hk & Hrp & Hq & Hlook) _ IH];
    intros done_q cs h Hkts Hkept Hlen Hcs Hdone.
  - exists cs, h. rewrite app_nil_r in Hkts. subst. done.
  - cbn [fmap list_fmap forM].
    pose proof (Hkept _ _ Hl) as Hl'.
    rewrite bind_assoc.
    erewrite bind_Ret
      by (rewrite (hasOwnProperty_map _ _ _ _ Hl' Hhop), Hlook, bool_decide_true; eauto).
    cbv beta iota. rewrite !bind_assoc. mstep.
    destruct (Hclones q Hq h p.2 (repr_kept _ _ _ _ Hkept Hrp))
      as (c & h1 & Hclone & Hkept1 & Hrc & Hfresh).
    rewrite !bind_assoc, (bind_Ret _ _ _ _ _ Hclone).
    pose proof (Hkept1 _ _ Hcs) as Hcs1.
    assert (Hkeys : cs.*1 = done_q.*1).
    { clear -Hdone. induction Hdone as [|[??] [??] ?? (?&_) _ IH]; cbn in *; congruence. }
    assert (Hnew : prop_lookup p.1 cs = None).
    { apply prop_lookup_None. rewrite Hkeys, Hk.
      apply ordered_keys_NoDup in Hord. rewrite Hkts, fmap_app, fmap_cons in Hord.
      apply NoDup_app in Hord as (_ & Hdisj & _). intros Hin. apply (Hdisj _ Hin). left. }
    assert (Hinh : inherited ObjectProto p.1 = false).
    { rewrite forallb_forall in Hplain. specialize (Hplain q.1).
      rewrite Hk. unfold plain_key in Hplain.
      destruct (inherited ObjectProto q.1); [|done].
      discriminate Hplain. apply list_elem_of_In, list_elem_of_fmap. by exists q. }
    rewrite (bind_Ret _ _ _ _ _ (run_set_prop_new _ _ _ _ _ Hcs1 Hnew Hinh)).
    assert (Hins : prop_insert p.1 c cs = cs ++ [(p.1, c)]).
    { apply prop_insert_last. rewrite Hkeys, Hk.
      rewrite Hkts, fmap_app, fmap_cons in Hord. by eapply ordered_keys_prefix. }
    rewrite Hins.
    set (h2 := <[length h0 := OMap (cs ++ [(p.1, c)])]> h1).
    pose proof (kept_length _ _ Hkept1) as Hlen1.
    destruct (IH (done_q ++ [q]) (cs ++ [(p.1, c)]) h2) as (cs' & h' & Hloop & Hrest).
    + by rewrite <- app_assoc.
    + apply kept_insert; [|done]. by eapply kept_trans.
    + unfold h2. rewrite length_insert. lia.
    + apply list_lookup_insert_eq. lia.
    + apply Forall2_app.
      * eapply Forall2_impl; [exact Hdone|]. intros c0 q0 (Hk0 & Hr0 & Hreach0).
        split; [done|]. apply above_insert.
        -- by eapply repr_kept.
        -- intros l0 Hl0. apply Hreach0. by eapply reach_kept.
      * constructor; [|constructor]. split; [done|]. apply above_insert; [done|].
        intros l0 Hl0. specialize (Hfresh l0 Hl0). lia.
    + exists cs', h'. done.
Qed.

Lemma repr_map_lookups h (props : list (key * val)) kts :
  Forall2 (fun p q => p.1 = q.1 /\ repr h p.2 q.2) props kts ->
  ordered_keys kts.*1 = true ->
  Forall2 (fun p q => p.1 = q.1 /\ repr h p.2 q.2 /\ q ∈ kts
                      /\ prop_lookup p.1 props = Some p.2) props kts.
Proof.
  intros Hprops Hord.
  pose proof (repr_fields_keys _ _ _ Hprops) as Hkeys.
  apply ordered_keys_NoDup in Hord. rewrite <- Hkeys in Hord.
  eapply Forall2_impl; [apply Forall2_elem, Hprops|].
  intros [k v] [k' t] ([Hk Hv] & Hp & Hq). cbn [fst snd] in *. subst k'.
  split_and!; try done. by apply prop_lookup_NoDup.
Qed.

Lemma clone_items fuel (ts : list Value) :
  Forall (clones fuel) ts ->
  forall items h, Forall2 (repr h) items ts ->
    exists ys h',
      mapM (fun item => Utils.deepClone fuel item) items h = Ret ys h' /\ kept h h'
      /\ Forall2 (fun y t => repr h' y t /\ forall l, reach h' y l -> length h <= l) ys ts.
Proof.
  induction 1 as [|t ts Hct _ IH]; intros items h Hitems.
  - apply Forall2_nil_inv_r in Hitems as ->.
    exists [], h. split_and!; [done|apply kept_refl|constructor].
  - apply Forall2_cons_inv_r in Hitems as (x & items' & Hx & Hitems & ->).
    destruct (Hct h x Hx) as (y & h1 & Hclone & Hkept1 & Hry & Hfresh).
    destruct (IH items' h1) as (ys & h' & Hrest & Hkept' & Hys).
    { eapply Forall2_impl; [exact Hitems|]. intros. by eapply repr_kept. }
    exists (y :: ys), h'. cbn [mapM].
    rewrite (bind_Ret _ _ _ _ _ Hclone), (bind_Ret _ _ _ _ _ Hrest).
    split_and!; [done|by eapply kept_trans|].
    pose proof (kept_length _ _ Hkept1) as Hlen1.
    constructor.
    + split; [by eapply repr_kept|]. intros l Hl. apply Hfresh. by eapply reach_kept.
    + eapply Forall2_impl; [exact Hys|]. intros y0 t0 [Hr0 Hf0]. split; [done|].
      intros l Hl. specialize (Hf0 l Hl). lia.
Qed.

(** [deepClone] on a value: a copy of the same value, in new objects. *)
Lemma deepClone_value t :
  well_keyed t = true -> forall fuel, depth t < fuel -> clones fuel t.
Proof.
  induction t as [ | | b | x | s | ts IH | kts IH | d] using Value_nested_ind;
    intros Hwk fuel Hfuel h v Hr;
    inversion Hr as [ | | | | | l items ts' Hl Hitems | l props kts' Hl Hprops | l t' Hl];
    subst; (destruct fuel as [|fuel]; [lia|]).
  1-5: eexists _, h; split_and!;
    [reflexivity|apply kept_refl|done|intros l Hl; by apply reach_prim in Hl as [? ?]].
  - (* sequence *)
    cbn [Utils.deepClone]. msimp. mstep. msimp. mstep. msimp. unfold array_map. mstep.
    destruct (clone_items fuel ts) with (items := items) (h := h)
      as (ys & h1 & Hmap & Hkept1 & Hys); [|done|].
    { rewrite Forall_forall in IH |- *. intros t Ht. apply IH; [done| |].
      - by eapply well_keyed_seq_elem.
      - apply depth_seq_elem in Ht. lia. }
    rewrite (bind_Ret _ _ _ _ _ Hmap).
    exists (VRef (length h1)), (h1 ++ [OArr ys]).
    pose proof (kept_length _ _ Hkept1) as Hlen1.
    assert (Hnew : (h1 ++ [OArr ys]) !! length h1 = Some (OArr ys)).
    { rewrite lookup_app_r by done. by rewrite Nat.sub_diag. }
    split_and!; [done|eapply kept_trans; [done|apply kept_app]| |].
    + econstructor; [exact Hnew|]. eapply Forall2_impl; [exact Hys|].
      intros y t [Hry _]. eapply repr_kept; [apply kept_app|done].
    + intros l0 Hreach. inversion Hreach as [l1 o Hl1|l1 o x l2 Hl1 Hx Hrx]; subst; [done|].
      rewrite Hnew in Hl1. injection Hl1 as <-. cbn [children] in Hx.
      apply list_elem_of_lookup in Hx as [i Hi].
      destruct (Forall2_lookup_l _ _ _ _ _ Hys Hi) as (t & _ & Hrt & Hft).
      apply Hft. eapply reach_kept; [done|apply kept_app|done].
  - (* mapping *)
    cbn [Utils.deepClone]. msimp. mstep. msimp. mstep. msimp. mstep.
    erewrite bind_Ret by (apply run_object_keys; by apply lookup_app_l_Some).
    cbn [own_keys].
    pose proof Hwk as Hwk'. cbn [well_keyed] in Hwk'.
    apply andb_true_iff in Hwk' as [Hwk' _]. apply andb_true_iff in Hwk' as [Hord Hplain].
    pose proof (repr_fields_keys _ _ _ Hprops) as Hkeys.
    assert (Hlen0 : length (h ++ [OMap []]) = S (length h))
      by (rewrite length_app; cbn; lia).
    assert (Hkept0 : kept h (h ++ [OMap []])) by apply kept_app.
    destruct (clone_fields h l props kts fuel Hl) with (todo_p := props) (todo_q := kts)
      (done_q := @nil (key * Value)) (cs := @nil (key * val)) (h := h ++ [OMap []])
      as (cs' & h' & Hloop & Hkept' & Hlen' & Hcs' & Hfields); try done.
    { rewrite Hkeys. by apply plain_keys_hasOwnProperty. }
    { rewrite Forall_forall in IH. intros q Hq. apply IH; [done| |].
      - by eapply well_keyed_map_elem.
      - apply depth_map_elem in Hq. lia. }
    { by apply repr_map_lookups. }
    { lia. }
    { rewrite lookup_app_r by done. by rewrite Nat.sub_diag. }
    rewrite (bind_Ret _ _ _ _ _ Hloop).
    exists (VRef (length h)), h'. split_and!; [done|done| |].
    + econstructor; [exact Hcs'|]. eapply Forall2_impl; [exact Hfields|].
      by intros c q (? & ? & _).
    + intros l0 Hreach. inversion Hreach as [l1 o Hl1|l1 o x l2 Hl1 Hx Hrx]; subst; [done|].
      rewrite Hcs' in Hl1. injection Hl1 as <-. cbn [children] in Hx.
      apply list_elem_of_fmap in Hx as (c & -> & Hc).
      apply list_elem_of_lookup in Hc as [i Hi].
      destruct (Forall2_lookup_l _ _ _ _ _ Hfields Hi) as (q & _ & _ & _ & Hfq).
      specialize (Hfq _ Hrx). lia.
  - (* date *)
    cbn [Utils.deepClone]. msimp. mstep. msimp. mstep.
    exists (VRef (length h)), (h ++ [ODate d]).
    assert (Hnew : (h ++ [ODate d]) !! length h = Some (ODate d)).
    { rewrite lookup_app_r by done. by rewrite Nat.sub_diag. }
    split_and!; [done|apply kept_app|by constructor|].
    intros l0 Hreach. inversion Hreach as [l1 o Hl1|l1 o x l2 Hl1 Hx Hrx]; subst; [done|].
    rewrite Hnew in Hl1. injection Hl1 as <-. by apply elem_of_nil in Hx.
Qed.

(** C9, as the code has it: for every Value [t] whose mappings have
    plain keys (no key is a name that [Object.prototype] defines,
    [well_keyed]), held at [v], [deepClone(v)] returns a clone that
    holds the same Value in objects that are all new: the store before
    the call is kept, no object of the clone is an object of [v], and
    whatever is written to an object of the clone, [v] still holds [t];
    a date inside is a new date with the same time, as [repr] of the
    clone at [t] says. *)
Theorem deepClone_shares_nothing h v t fuel
    (Hr : repr h v t) (Hwk : well_keyed t = true) (Hfuel : depth t < fuel) :
  exists clone h',
    Utils.deepClone fuel v h = Ret clone h'
    /\ repr h' clone t
    /\ kept h h'
    /\ (forall l, reach h' clone l -> length h <= l)
    /\ (forall l, reach h' clone l -> ~ reach h' v l)
    /\ (forall l o, reach h' clone l -> repr (<[l := o]> h') v t).
Proof.
  destruct (deepClone_value t Hwk fuel Hfuel h v Hr) as (clone & h' & Hrun & Hkept & Hrc & Hfresh).
  exists clone, h'. split_and!; try done.
  - intros l Hl Hlv. specialize (Hfresh l Hl).
    pose proof (reach_kept _ _ _ _ _ Hr Hkept Hlv) as Hlv0.
    destruct (reach_is_Some _ _ _ Hlv0) as [o Ho]. apply lookup_lt_Some in Ho. lia.
  - intros l o Hl. eapply repr_kept; [|exact Hr].
    apply kept_insert; [done|]. by apply Hfresh.
Qed.

Lemma every_key_true keys body h :
  (forall k, k ∈ keys -> body k h = Ret true h) ->
  Utils.every_key keys body h = Ret true h.
Proof.
  induction keys as [|k keys IH]; intros Hall; cbn [Utils.every_key]; [done|].
  rewrite (bind_Ret _ _ _ true h) by (apply Hall; left).
  apply IH. intros k' Hk'. apply Hall. by right.
Qed.

Lemma run_hasOwnProperty_item h l items i :
  h !! l = Some (OArr items) ->
  hasOwnProperty (VRef l) (KIdx i) h = Ret (i <? length items) h.
Proof. intros Hl. unfold hasOwnProperty, bind, load. by rewrite Hl. Qed.

Lemma num_eqb_refl x : is_nan x = false -> num_eqb x x = true.
Proof.
  unfold num_eqb, SFeqb. destruct x as [s|s| |s m e]; cbn; try done.
  - by destruct s.
  - intros _. destruct s; rewrite Z.compare_refl, Pos.compare_cont_refl; done.
Qed.

Lemma isEqual_same t :
  nan_free t = true -> well_keyed t = true ->
  forall h a b fuel,
    repr h a t -> repr h b t -> depth t < fuel ->
    Utils.isEqual fuel a b h = Ret true h.
Proof.
  induction t as [ | | b0 | x | s | ts IH | kts IH | d] using Value_nested_ind;
    intros Hnf Hwk h a b fuel Ha Hb Hfuel;
    inversion Ha as [ | | | | | la itemsa ts' Hla Hitemsa | la propsa kts' Hla Hpropsa | la t' Hla];
    inversion Hb as [ | | | | | lb itemsb ts'' Hlb Hitemsb | lb propsb kts'' Hlb Hpropsb | lb t'' Hlb];
    subst; (destruct fuel as [|fuel]; [lia|]); cbn [Utils.isEqual strict_eq].
  - done.
  - done.
  - by rewrite eqb_reflx.
  - cbn [nan_free] in Hnf. apply negb_true_iff in Hnf. by rewrite num_eqb_refl.
  - by rewrite String.eqb_refl.
  - (* sequences *)
    destruct (la =? lb); [done|]. msimp.
    mstep. mstep. msimp. mstep. mstep. msimp. mstep. mstep. cbn [own_keys].
    rewrite !length_fmap, !length_seq.
    pose proof (Forall2_length _ _ _ Hitemsa) as Hlena.
    pose proof (Forall2_length _ _ _ Hitemsb) as Hlenb.
    rewrite Hlena, Hlenb, Nat.eqb_refl. cbn [negb].
    apply every_key_true. intros k Hk.
    apply list_elem_of_fmap in Hk as (i & -> & Hi). apply elem_of_seq in Hi as [_ Hi].
    cbn in Hi. rewrite <- Hlena in Hi.
    destruct (lookup_lt_is_Some_2 itemsa i Hi) as [xa Hxa].
    destruct (Forall2_lookup_l _ _ _ _ _ Hitemsa Hxa) as (t & Ht & Hrxa).
    destruct (Forall2_lookup_r _ _ _ _ _ Hitemsb Ht) as (xb & Hxb & Hrxb).
    rewrite (bind_Ret _ _ _ _ _ (run_hasOwnProperty_item _ _ _ i Hlb)).
    pose proof (lookup_lt_Some _ _ _ Hxb) as Hib. apply Nat.ltb_lt in Hib.
    rewrite Hib. cbn [negb].
    mstep. mstep.
    apply list_elem_of_lookup_2 in Ht. rewrite Forall_forall in IH.
    apply (IH t Ht); try done.
    + cbn [nan_free] in Hnf. rewrite forallb_forall in Hnf. by apply Hnf, list_elem_of_In.
    + by eapply well_keyed_seq_elem.
    + apply depth_seq_elem in Ht. lia.
  - (* mappings *)
    destruct (la =? lb); [done|]. msimp.
    mstep. mstep. msimp. mstep. mstep. msimp. mstep. mstep. cbn [own_keys].
    rewrite (repr_fields_keys _ _ _ Hpropsa), (repr_fields_keys _ _ _ Hpropsb).
    rewrite Nat.eqb_refl. cbn [negb].
    pose proof (repr_map_fields _ _ _ _ Hla Hpropsa Hwk) as Hfa.
    pose proof (repr_map_fields _ _ _ _ Hlb Hpropsb Hwk) as Hfb.
    apply every_key_true. intros k Hk.
    apply list_elem_of_fmap in Hk as (q & -> & Hq).
    apply list_elem_of_lookup in Hq as [i Hi].
    destruct (Forall2_lookup_r _ _ _ _ _ Hfa Hi) as (pa & _ & Hka & Hra & _ & _ & Hgeta).
    destruct (Forall2_lookup_r _ _ _ _ _ Hfb Hi) as (pb & _ & Hkb & Hrb & _ & Hownb & Hgetb).
    rewrite <- Hkb at 1. rewrite (bind_Ret _ _ _ _ _ Hownb). cbn [negb].
    rewrite <- Hka at 1. rewrite (bind_Ret _ _ _ _ _ Hgeta).
    rewrite <- Hkb at 1. rewrite (bind_Ret _ _ _ _ _ Hgetb).
    apply list_elem_of_lookup_2 in Hi. rewrite Forall_forall in IH.
    apply (IH q Hi); try done.
    + cbn [nan_free] in Hnf. rewrite forallb_forall in Hnf.
      by apply (Hnf q), list_elem_of_In.
    + by eapply well_keyed_map_elem.
    + apply depth_map_elem in Hi. lia.
  - (* dates *)
    destruct (la =? lb); [done|]. msimp.
    mstep. mstep. msimp. mstep. mstep. msimp. mstep. mstep.
    cbn [nan_free] in Hnf. apply negb_true_iff in Hnf. by rewrite num_eqb_refl.
Qed.

(** C4, as the code has it: for every Value [t] without [NaN] (as a
    number or as the time of a date) whose mappings have plain keys (no
    key is a name that [Object.prototype] defines, [well_keyed]),
    [isEqual(deepClone(v), v)] returns [true]. *)
Theorem isEqual_deepClone h v t fuel
    (Hr : repr h v t) (Hwk : well_keyed t = true) (Hnf : nan_free t = true)
    (Hfuel : depth t < fuel) :
  exists h',
    (clone <- Utils.deepClone fuel v ;; Utils.isEqual fuel clone v) h = Ret true h'.
Proof.
  destruct (deepClone_value t Hwk fuel Hfuel h v Hr) as (clone & h' & Hrun & Hkept & Hrc & _).
  exists h'. rewrite (bind_Ret _ _ _ _ _ Hrun).
  apply (isEqual_same t); try done. by eapply repr_kept.
Qed.

End Representation.

(* ===================================================================== *)
(** * [isEqual] as an equivalence *)
(* ===================================================================== *)

Section Equality.
Context `{Host}.

Lemma num_eqb_sym x y : num_eqb x y = num_eqb y x.
Proof.
  unfold num_eqb, SFeqb.
  destruct x as [sx|sx| |sx mx ex], y as [sy|sy| |sy my ey]; cbn; try done;
    try (by destruct sx); try (by destruct sy); try (by destruct sx, sy).
  assert (Hm : Pos.compare_cont Eq my mx = CompOpp (Pos.compare_cont Eq mx my))
    by (symmetry; apply (Pos.compare_cont_antisym mx my Eq)).
  destruct sx, sy; try done;
    rewrite (Z.compare_antisym ex ey), Hm;
    destruct (ex ?= ey)%Z; cbn; try done;
    by destruct (Pos.compare_cont Eq mx my).
Qed.

Lemma strict_eq_sym a b : strict_eq a b = strict_eq b a.
Proof.
  destruct a, b; cbn; try done.
  - by destruct b, b0.
  - apply num_eqb_sym.
  - apply String.eqb_sym.
  - apply Nat.eqb_sym.
Qed.

Lemma jstype_eqb_sym a b : jstype_eqb a b = jstype_eqb b a.
Proof. by destruct a, b. Qed.

Lemma reads_only_every_key keys body :
  (forall k, reads_only (body k)) -> reads_only (Utils.every_key keys body).
Proof.
  intros Hb. induction keys as [|k keys IH]; cbn [Utils.every_key]; [apply reads_only_ret|].
  apply reads_only_bind; [apply Hb|]. intros []; [apply IH|apply reads_only_ret].
Qed.

Lemma reads_only_isEqual fuel : forall a b, reads_only (Utils.isEqual fuel a b).
Proof.
  induction fuel as [|fuel IH]; intros a b; cbn [Utils.isEqual]; [by intros h|].
  repeat match goal with
  | |- reads_only (if ?c then _ else _) => destruct c
  | |- reads_only (ret _) => apply reads_only_ret
  | |- reads_only (bind _ _) => apply reads_only_bind; [|intros ?]
  | |- reads_only (isArray _) => apply reads_only_isArray
  | |- reads_only (instanceofDate _) => apply reads_only_instanceofDate
  | |- reads_only (getTime _) => apply reads_only_getTime
  | |- reads_only (object_keys _) => apply reads_only_object_keys
  | |- reads_only (hasOwnProperty _ _) => apply reads_only_hasOwnProperty
  | |- reads_only (get_prop _ _) => apply reads_only_get_prop
  | |- reads_only (Utils.every_key _ _) => apply reads_only_every_key; intros ?
  | |- reads_only (Utils.isEqual fuel _ _) => apply IH
  end.
Qed.

Lemma reads_only_Ret {A} (c : M A) h a h' : reads_only c -> c h = Ret a h' -> h' = h.
Proof. intros Hc Hrun. specialize (Hc h). by rewrite Hrun in Hc. Qed.

Lemma every_key_inv keys body h h' :
  (forall k, reads_only (body k)) ->
  Utils.every_key keys body h = Ret true h' ->
  forall k, k ∈ keys -> body k h = Ret true h.
Proof.
  intros Hb. induction keys as [|k0 keys IH]; cbn [Utils.every_key]; intros Hrun k Hk.
  - by apply elem_of_nil in Hk.
  - apply bind_inv in Hrun as (ok & h1 & Hk0 & Hrest).
    pose proof (reads_only_Ret _ _ _ _ (Hb k0) Hk0) as ->.
    destruct ok; [|done].
    apply elem_of_cons in Hk as [->|Hk]; [done|by apply IH].
Qed.

Lemma every_key_spec keys body h :
  (forall k, k ∈ keys -> exists b, body k h = Ret b h) ->
  Utils.every_key keys body h = Ret (forallb (fun k => ret_bool (body k h)) keys) h.
Proof.
  induction keys as [|k keys IH]; intros Hall; cbn [Utils.every_key forallb]; [done|].
  destruct (Hall k) as [b Hb]; [left|]. rewrite (bind_Ret _ _ _ _ _ Hb), Hb.
  destruct b; cbn [ret_bool andb]; [|done].
  apply IH. intros k' Hk'. apply Hall. by right.
Qed.

Lemma isEqual_objects fuel la lb oa ob h :
  la <> lb -> h !! la = Some oa -> h !! lb = Some ob ->
  Utils.isEqual (S fuel) (VRef la) (VRef lb) h
  = match oa, ob with
    | ODate ta, ODate tb => Ret (num_eqb ta tb) h
    | OArr _, OMap _ | OArr _, ODate _ | OMap _, OArr _ | ODate _, OArr _ => Ret false h
    | _, _ =>
        if length (own_keys oa) =? length (own_keys ob)
        then Utils.every_key (own_keys oa) (same_at fuel (VRef la) (VRef lb)) h
        else Ret false h
    end.
Proof.
  intros Hne Hla Hlb. cbn [Utils.isEqual strict_eq].
  apply Nat.eqb_neq in Hne. rewrite Hne. msimp.
  mstep. mstep.
  destruct oa as [xs|pa|ta], ob as [ys|pb|tb]; msimp; try done;
    mstep; mstep; msimp; mstep; mstep.
  all: try done.
  all: destruct (length _ =? length _); reflexivity.
Qed.

Lemma same_at_items fuel la lb xs ys i x y h :
  h !! la = Some (OArr xs) -> h !! lb = Some (OArr ys) ->
  xs !! i = Some x -> ys !! i = Some y ->
  same_at fuel (VRef la) (VRef lb) (KIdx i) h = Utils.isEqual fuel x y h.
Proof.
  intros Hla Hlb Hx Hy. unfold same_at.
  rewrite (bind_Ret _ _ _ _ _ (run_hasOwnProperty_item _ _ _ i Hlb)).
  pose proof (lookup_lt_Some _ _ _ Hy) as Hi. apply Nat.ltb_lt in Hi. rewrite Hi.
  cbn [negb]. mstep. by mstep.
Qed.

Lemma same_at_fields fuel la lb pa pb k x h :
  h !! la = Some (OMap pa) -> h !! lb = Some (OMap pb) ->
  KStr "hasOwnProperty" ∉ pb.*1 ->
  prop_lookup k pa = Some x ->
  same_at fuel (VRef la) (VRef lb) k h
  = match prop_lookup k pb with
    | Some y => Utils.isEqual fuel x y h
    | None => Ret false h
    end.
Proof.
  intros Hla Hlb Hhop Hx. unfold same_at.
  rewrite (bind_Ret _ _ _ _ _ (hasOwnProperty_map _ _ _ k Hlb Hhop)).
  destruct (prop_lookup k pb) as [y|] eqn:Hy.
  - rewrite bool_decide_true by eauto. cbn [negb]. mstep. by mstep.
  - rewrite bool_decide_false; [done|]. by intros [? ?].
Qed.

Lemma reads_only_same_at fuel a b k : reads_only (same_at fuel a b k).
Proof.
  unfold same_at. apply reads_only_bind; [apply reads_only_hasOwnProperty|].
  intros own. destruct (negb own); [apply reads_only_ret|].
  apply reads_only_bind; [apply reads_only_get_prop|]. intros va.
  apply reads_only_bind; [apply reads_only_get_prop|]. intros vb.
  apply reads_only_isEqual.
Qed.

Lemma keys_of_items (xs : list val) k :
  k ∈ own_keys (OArr xs) <-> exists i x, k = KIdx i /\ xs !! i = Some x.
Proof.
  cbn [own_keys]. rewrite list_elem_of_fmap. split.
  - intros (i & -> & Hi). apply elem_of_seq in Hi as [_ Hi]. cbn in Hi.
    destruct (lookup_lt_is_Some_2 xs i Hi) as [x Hx]. eauto.
  - intros (i & x & -> & Hx). exists i. split; [done|].
    apply elem_of_seq. apply lookup_lt_Some in Hx. lia.
Qed.

Lemma own_keys_items_length (xs : list val) : length (own_keys (OArr xs)) = length xs.
Proof. cbn [own_keys]. by rewrite length_fmap, length_seq. Qed.

(** Two different sequences. *)
Lemma isEqual_sequences fuel la lb xs ys h :
  la <> lb -> h !! la = Some (OArr xs) -> h !! lb = Some (OArr ys) ->
  Utils.isEqual (S fuel) (VRef la) (VRef lb) h = Ret true h
  <-> length xs = length ys
      /\ forall i x y, xs !! i = Some x -> ys !! i = Some y ->
           Utils.isEqual fuel x y h = Ret true h.
Proof.
  intros Hne Hla Hlb. rewrite (isEqual_objects _ _ _ _ _ _ Hne Hla Hlb).
  rewrite !own_keys_items_length. split.
  - destruct (length xs =? length ys) eqn:Hlen; [|done].
    apply Nat.eqb_eq in Hlen. intros Hall. split; [done|]. intros i x y Hx Hy.
    rewrite <- (same_at_items fuel la lb xs ys i x y h) by done.
    eapply every_key_inv; [apply reads_only_same_at|exact Hall|].
    apply keys_of_items. eauto.
  - intros [Hlen Hall]. apply Nat.eqb_eq in Hlen as Hlen'. rewrite Hlen'.
    apply every_key_true. intros k Hk. apply keys_of_items in Hk as (i & x & -> & Hx).
    destruct (lookup_lt_is_Some_2 ys i) as [y Hy].
    { rewrite <- Hlen. by eapply lookup_lt_Some. }
    rewrite (same_at_items fuel la lb xs ys i x y h) by done. eauto.
Qed.

Lemma elem_of_keys_lookup (props : list (key * val)) k :
  k ∈ props.*1 <-> is_Some (prop_lookup k props).
Proof.
  destruct (prop_lookup k props) eqn:Hk.
  - split; [eauto|]. intros _. apply prop_lookup_elem in Hk.
    apply list_elem_of_fmap. by eexists (_, _).
  - apply prop_lookup_None in Hk. split; [done|]. by intros [? ?].
Qed.

Lemma same_keys_length (ka kb : list key) :
  NoDup ka -> NoDup kb ->
  (length ka = length kb /\ forall k, k ∈ ka -> k ∈ kb) <-> (forall k, k ∈ ka <-> k ∈ kb).
Proof.
  intros Ha Hb. split.
  - intros [Hlen Hsub] k. split; [apply Hsub|]. rewrite !list_elem_of_In.
    apply (NoDup_length_incl (proj1 (NoDup_ListNoDup _) Ha)); [lia|].
    intros k'. rewrite <- !list_elem_of_In. apply Hsub.
  - intros Hsame. split; [|intros k; apply Hsame].
    by apply Permutation_length, NoDup_Permutation.
Qed.

(** Two different keyed mappings. *)
Lemma isEqual_mappings fuel la lb pa pb h :
  la <> lb -> h !! la = Some (OMap pa) -> h !! lb = Some (OMap pb) ->
  NoDup pa.*1 -> NoDup pb.*1 -> KStr "hasOwnProperty" ∉ pb.*1 ->
  Utils.isEqual (S fuel) (VRef la) (VRef lb) h = Ret true h
  <-> (forall k, k ∈ pa.*1 <-> k ∈ pb.*1)
      /\ forall k x y, prop_lookup k pa = Some x -> prop_lookup k pb = Some y ->
           Utils.isEqual fuel x y h = Ret true h.
Proof.
  intros Hne Hla Hlb Hnda Hndb Hhop. rewrite (isEqual_objects _ _ _ _ _ _ Hne Hla Hlb).
  cbn [own_keys]. rewrite <- (same_keys_length _ _ Hnda Hndb). split.
  - destruct (length pa.*1 =? length pb.*1) eqn:Hlen; [|done].
    apply Nat.eqb_eq in Hlen. intros Hall.
    assert (Hbody : forall k x, prop_lookup k pa = Some x ->
      exists y, prop_lookup k pb = Some y /\ Utils.isEqual fuel x y h = Ret true h).
    { intros k x Hx.
      assert (Hk : k ∈ pa.*1) by (apply elem_of_keys_lookup; eauto).
      pose proof (every_key_inv _ _ _ _ (reads_only_same_at _ _ _) Hall k Hk) as Hrun.
      rewrite (same_at_fields _ _ _ _ _ _ _ _ Hla Hlb Hhop Hx) in Hrun.
      destruct (prop_lookup k pb) as [y|]; [eauto|done]. }
    split_and!; [done| |].
    + intros k Hk. apply elem_of_keys_lookup in Hk as [x Hx].
      destruct (Hbody k x Hx) as (y & Hy & _). apply elem_of_keys_lookup. eauto.
    + intros k x y Hx Hy. destruct (Hbody k x Hx) as (y' & Hy' & Heq). congruence.
  - intros [[Hlen Hsub] Hall]. apply Nat.eqb_eq in Hlen as Hlen'. rewrite Hlen'.
    apply every_key_true. intros k Hk.
    pose proof (Hsub k Hk) as Hkb.
    apply elem_of_keys_lookup in Hk as [x Hx]. apply elem_of_keys_lookup in Hkb as [y Hy].
    rewrite (same_at_fields _ _ _ _ _ _ _ _ Hla Hlb Hhop Hx), Hy. eauto.
Qed.

Lemma isEqual_primitive fuel a b h :
  ~ is_ref a \/ ~ is_ref b ->
  Utils.isEqual (S fuel) a b h = Ret (strict_eq a b) h.
Proof.
  intros Hprim. cbn [Utils.isEqual].
  destruct (strict_eq a b) eqn:Heq; [done|].
  destruct a as [ | | | | |la], b as [ | | | | |lb]; try done.
  destruct Hprim as [Hn|Hn]; exfalso; apply Hn; by eexists.
Qed.

Lemma every_key_ext keys f g h :
  (forall k, k ∈ keys -> exists r, f k h = Ret r h /\ g k h = Ret r h) ->
  exists r, Utils.every_key keys f h = Ret r h /\ Utils.every_key keys g h = Ret r h.
Proof.
  induction keys as [|k keys IH]; intros Hall; cbn [Utils.every_key]; [by exists true|].
  destruct (Hall k) as (r & Hf & Hg); [left|].
  rewrite (bind_Ret _ _ _ _ _ Hf), (bind_Ret _ _ _ _ _ Hg).
  destruct r; [|by exists false]. apply IH. intros k' Hk'. apply Hall. by right.
Qed.

Lemma every_key_two_sided (ka kb : list key) f g h :
  NoDup ka -> NoDup kb -> length ka = length kb ->
  (forall k, k ∈ ka -> k ∉ kb -> f k h = Ret false h) ->
  (forall k, k ∈ kb -> k ∉ ka -> g k h = Ret false h) ->
  (forall k, k ∈ ka -> k ∈ kb -> exists r, f k h = Ret r h /\ g k h = Ret r h) ->
  exists r, Utils.every_key ka f h = Ret r h /\ Utils.every_key kb g h = Ret r h.
Proof.
  intros Hnda Hndb Hlen Hfa Hgb Hboth.
  assert (Hf : forall k, k ∈ ka -> exists b, f k h = Ret b h).
  { intros k Hk. destruct (decide (k ∈ kb)) as [Hkb|Hkb]; [|eauto].
    destruct (Hboth k Hk Hkb) as (r & ? & _). eauto. }
  assert (Hg : forall k, k ∈ kb -> exists b, g k h = Ret b h).
  { intros k Hk. destruct (decide (k ∈ ka)) as [Hka|Hka]; [|eauto].
    destruct (Hboth k Hka Hk) as (r & _ & ?). eauto. }
  rewrite (every_key_spec _ _ _ Hf), (every_key_spec _ _ _ Hg).
  eexists. split; [reflexivity|]. f_equal. symmetry.
  apply Bool.eq_iff_eq_true. rewrite !forallb_forall.
  assert (Hincl : forall (l1 l2 : list key), NoDup l1 -> length l2 <= length l1 ->
            (forall k, k ∈ l1 -> k ∈ l2) -> forall k, k ∈ l2 -> k ∈ l1).
  { intros l1 l2 Hnd Hle Hsub k. rewrite !list_elem_of_In.
    apply (NoDup_length_incl (proj1 (NoDup_ListNoDup _) Hnd)); [done|].
    intros k'. rewrite <- !list_elem_of_In. apply Hsub. }
  split; intros Hall.
  - assert (Hsub : forall k, k ∈ ka -> k ∈ kb).
    { intros k Hk. destruct (decide (k ∈ kb)) as [|Hn]; [done|].
      specialize (Hall k (proj1 (list_elem_of_In _ _) Hk)).
      by rewrite (Hfa k Hk Hn) in Hall. }
    intros k Hk. apply list_elem_of_In in Hk.
    pose proof (Hincl ka kb Hnda ltac:(lia) Hsub k Hk) as Hka.
    destruct (Hboth k Hka Hk) as (r & Hfk & Hgk).
    specialize (Hall k (proj1 (list_elem_of_In _ _) Hka)). by rewrite Hfk in Hall; rewrite Hgk.
  - assert (Hsub : forall k, k ∈ kb -> k ∈ ka).
    { intros k Hk. destruct (decide (k ∈ ka)) as [|Hn]; [done|].
      specialize (Hall k (proj1 (list_elem_of_In _ _) Hk)).
      by rewrite (Hgb k Hk Hn) in Hall. }
    intros k Hk. apply list_elem_of_In in Hk.
    pose proof (Hincl kb ka Hndb ltac:(lia) Hsub k Hk) as Hkb.
    destruct (Hboth k Hk Hkb) as (r & Hfk & Hgk).
    specialize (Hall k (proj1 (list_elem_of_In _ _) Hkb)). by rewrite Hgk in Hall; rewrite Hfk.
Qed.

Lemma repr_object h v t :
  repr h v t ->
  match t with
  | Sequence ts => exists l items, v = VRef l /\ h !! l = Some (OArr items)
                                   /\ Forall2 (repr h) items ts
  | Mapping kts => exists l props, v = VRef l /\ h !! l = Some (OMap props)
      /\ Forall2 (fun p q => p.1 = q.1 /\ repr h p.2 q.2) props kts
  | DateLike d => exists l, v = VRef l /\ h !! l = Some (ODate d)
  | _ => ~ is_ref v
  end.
Proof. destruct 1; eauto; by intros [? ?]. Qed.

Lemma repr_is_ref h l t :
  repr h (VRef l) t ->
  match t with Sequence _ | Mapping _ | DateLike _ => True | _ => False end.
Proof. by inversion 1. Qed.

Lemma repr_field h (props : list (key * val)) (kts : list (key * Value)) k x :
  Forall2 (fun p q => p.1 = q.1 /\ repr h p.2 q.2) props kts ->
  prop_lookup k props = Some x ->
  exists q, q ∈ kts /\ repr h x q.2.
Proof.
  intros Hprops Hx. apply prop_lookup_elem in Hx.
  apply (repr_child_map _ _ _ _ Hprops). apply list_elem_of_fmap. by exists (k, x).
Qed.

Lemma well_keyed_mapping_keys h (props : list (key * val)) kts :
  Forall2 (fun p q => p.1 = q.1 /\ repr h p.2 q.2) props kts ->
  well_keyed (Mapping kts) = true ->
  NoDup props.*1 /\ KStr "hasOwnProperty" ∉ props.*1.
Proof.
  intros Hprops Hwk. rewrite (repr_fields_keys _ _ _ Hprops).
  cbn [well_keyed] in Hwk. apply andb_true_iff in Hwk as [Hwk _].
  apply andb_true_iff in Hwk as [Hord Hplain].
  split; [by apply ordered_keys_NoDup|by apply plain_keys_hasOwnProperty].
Qed.

Lemma repr_container h v t :
  repr h v t ->
  match t with Sequence _ | Mapping _ | DateLike _ => is_ref v | _ => True end.
Proof. destruct 1; try done; by eexists. Qed.

Lemma isEqual_sym ta :
  well_keyed ta = true ->
  forall tb h a b fuel,
    well_keyed tb = true -> repr h a ta -> repr h b tb -> depth ta < fuel ->
    exists r, Utils.isEqual fuel a b h = Ret r h /\ Utils.isEqual fuel b a h = Ret r h.
Proof.
  induction ta as [ | | b0 | x | s | tsa IH | ktsa IH | da] using Value_nested_ind;
    intros Hwka tb h a b fuel Hwkb Ha Hb Hfuel;
    (destruct fuel as [|fuel]; [lia|]).
  1-5: apply repr_object in Ha; exists (strict_eq a b);
    rewrite !isEqual_primitive by auto; split; [done|f_equal; apply strict_eq_sym].
  all: destruct b as [ | | | | |lb];
    try (eexists; rewrite !isEqual_primitive
           by (first [left; by intros [? ?]|right; by intros [? ?]]);
         split; [done|f_equal; apply strict_eq_sym]).
  - (* a sequence *)
    apply repr_object in Ha as (la & xs & -> & Hla & Hxs).
    destruct (decide (la = lb)) as [->|Hne].
    { exists true. cbn [Utils.isEqual strict_eq]. by rewrite Nat.eqb_refl. }
    pose proof (repr_is_ref _ _ _ Hb) as Hkind. apply repr_object in Hb.
    destruct tb as [ | | | | |tsb|ktsb|db]; try done.
    + destruct Hb as (lb' & ys & [= <-] & Hlb & Hys).
      rewrite (isEqual_objects _ _ _ _ _ _ Hne Hla Hlb).
      rewrite (isEqual_objects _ _ _ _ _ _ (not_eq_sym Hne) Hlb Hla).
      rewrite !own_keys_items_length, (Nat.eqb_sym (length ys)).
      destruct (length xs =? length ys) eqn:Hlen; [|by exists false].
      apply Nat.eqb_eq in Hlen.
      assert (Hkeys : own_keys (OArr ys) = own_keys (OArr xs)) by (cbn; by rewrite Hlen).
      rewrite Hkeys. apply every_key_ext. intros k Hk.
      apply keys_of_items in Hk as (i & x & -> & Hx).
      destruct (lookup_lt_is_Some_2 ys i) as [y Hy].
      { rewrite <- Hlen. by eapply lookup_lt_Some. }
      rewrite (same_at_items fuel la lb xs ys i x y h) by done.
      rewrite (same_at_items fuel lb la ys xs i y x h) by done.
      destruct (Forall2_lookup_l _ _ _ _ _ Hxs Hx) as (tx & Htx & Hrx).
      destruct (Forall2_lookup_l _ _ _ _ _ Hys Hy) as (ty & Hty & Hry).
      apply list_elem_of_lookup_2 in Htx, Hty. rewrite Forall_forall in IH.
      apply (IH tx Htx) with (tb := ty); try done.
      * by apply (well_keyed_seq_elem tx tsa).
      * by apply (well_keyed_seq_elem ty tsb).
      * apply depth_seq_elem in Htx. lia.
    + destruct Hb as (lb' & pb & [= <-] & Hlb & Hpb).
      rewrite (isEqual_objects _ _ _ _ _ _ Hne Hla Hlb).
      rewrite (isEqual_objects _ _ _ _ _ _ (not_eq_sym Hne) Hlb Hla). by exists false.
    + destruct Hb as (lb' & [= <-] & Hlb).
      rewrite (isEqual_objects _ _ _ _ _ _ Hne Hla Hlb).
      rewrite (isEqual_objects _ _ _ _ _ _ (not_eq_sym Hne) Hlb Hla). by exists false.
  - (* a mapping *)
    apply repr_object in Ha as (la & pa & -> & Hla & Hpa).
    destruct (decide (la = lb)) as [->|Hne].
    { exists true. cbn [Utils.isEqual strict_eq]. by rewrite Nat.eqb_refl. }
    pose proof (repr_is_ref _ _ _ Hb) as Hkind. apply repr_object in Hb.
    destruct (well_keyed_mapping_keys _ _ _ Hpa Hwka) as [Hnda Hhopa].
    destruct tb as [ | | | | |tsb|ktsb|db]; try done.
    + destruct Hb as (lb' & ys & [= <-] & Hlb & Hys).
      rewrite (isEqual_objects _ _ _ _ _ _ Hne Hla Hlb).
      rewrite (isEqual_objects _ _ _ _ _ _ (not_eq_sym Hne) Hlb Hla). by exists false.
    + destruct Hb as (lb' & pb & [= <-] & Hlb & Hpb).
      destruct (well_keyed_mapping_keys _ _ _ Hpb Hwkb) as [Hndb Hhopb].
      rewrite (isEqual_objects _ _ _ _ _ _ Hne Hla Hlb).
      rewrite (isEqual_objects _ _ _ _ _ _ (not_eq_sym Hne) Hlb Hla).
      cbn [own_keys]. rewrite (Nat.eqb_sym (length pb.*1)).
      destruct (length pa.*1 =? length pb.*1) eqn:Hlen; [|by exists false].
      apply Nat.eqb_eq in Hlen.
      apply every_key_two_sided; try done.
      * intros k Hk Hnk. apply elem_of_keys_lookup in Hk as [x Hx].
        rewrite (same_at_fields _ _ _ _ _ _ _ _ Hla Hlb Hhopb Hx).
        apply prop_lookup_None in Hnk. by rewrite Hnk.
      * intros k Hk Hnk. apply elem_of_keys_lookup in Hk as [y Hy].
        rewrite (same_at_fields _ _ _ _ _ _ _ _ Hlb Hla Hhopa Hy).
        apply prop_lookup_None in Hnk. by rewrite Hnk.
      * intros k Hka Hkb.
        apply elem_of_keys_lookup in Hka as [x Hx]. apply elem_of_keys_lookup in Hkb as [y Hy].
        rewrite (same_at_fields _ _ _ _ _ _ _ _ Hla Hlb Hhopb Hx), Hy.
        rewrite (same_at_fields _ _ _ _ _ _ _ _ Hlb Hla Hhopa Hy), Hx.
        destruct (repr_field _ _ _ _ _ Hpa Hx) as (qa & Hqa & Hrx).
        destruct (repr_field _ _ _ _ _ Hpb Hy) as (qb & Hqb & Hry).
        rewrite Forall_forall in IH.
        apply (IH qa Hqa) with (tb := qb.2); try done.
        -- by apply (well_keyed_map_elem qa ktsa).
        -- by apply (well_keyed_map_elem qb ktsb).
        -- apply depth_map_elem in Hqa. lia.
    + destruct Hb as (lb' & [= <-] & Hlb).
      rewrite (isEqual_objects _ _ _ _ _ _ Hne Hla Hlb).
      rewrite (isEqual_objects _ _ _ _ _ _ (not_eq_sym Hne) Hlb Hla).
      cbn [own_keys length]. rewrite (Nat.eqb_sym 0).
      destruct pa as [|p pa]; [by exists true|by exists false].
  - (* a date *)
    apply repr_object in Ha as (la & -> & Hla).
    destruct (decide (la = lb)) as [->|Hne].
    { exists true. cbn [Utils.isEqual strict_eq]. by rewrite Nat.eqb_refl. }
    pose proof (repr_is_ref _ _ _ Hb) as Hkind. apply repr_object in Hb.
    destruct tb as [ | | | | |tsb|ktsb|db]; try done.
    + destruct Hb as (lb' & ys & [= <-] & Hlb & Hys).
      rewrite (isEqual_objects _ _ _ _ _ _ Hne Hla Hlb).
      rewrite (isEqual_objects _ _ _ _ _ _ (not_eq_sym Hne) Hlb Hla). by exists false.
    + destruct Hb as (lb' & pb & [= <-] & Hlb & Hpb).
      rewrite (isEqual_objects _ _ _ _ _ _ Hne Hla Hlb).
      rewrite (isEqual_objects _ _ _ _ _ _ (not_eq_sym Hne) Hlb Hla).
      cbn [own_keys length]. rewrite (Nat.eqb_sym (length pb.*1)).
      destruct pb as [|p pb]; [by exists true|by exists false].
    + destruct Hb as (lb' & [= <-] & Hlb).
      rewrite (isEqual_objects _ _ _ _ _ _ Hne Hla Hlb).
      rewrite (isEqual_objects _ _ _ _ _ _ (not_eq_sym Hne) Hlb Hla).
      exists (num_eqb da db). by rewrite (num_eqb_sym db).
Qed.

(** C3, as the code has it: [isEqual(a, a)] is [true] for every [a]
    but [NaN]; on Values whose mappings have plain keys (no key is a
    name that [Object.prototype] defines, [well_keyed]), [isEqual(a, b)]
    and [isEqual(b, a)] return the same boolean, and two distinct keyed
    mappings are equal iff they have the same keys and equal values at
    each; two distinct sequences are equal iff they have the same length
    and equal elements at each index; a sequence and a keyed mapping are
    never equal. *)
Theorem isEqual_laws h fuel :
  (forall a, a <> VNum NaN -> Utils.isEqual (S fuel) a a h = Ret true h)
  /\ (forall a b ta tb,
        repr h a ta -> repr h b tb ->
        well_keyed ta = true -> well_keyed tb = true -> depth ta < fuel ->
        exists r, Utils.isEqual fuel a b h = Ret r h /\ Utils.isEqual fuel b a h = Ret r h)
  /\ (forall la lb pa pb ktsa ktsb,
        la <> lb ->
        h !! la = Some (OMap pa) -> h !! lb = Some (OMap pb) ->
        repr h (VRef la) (Mapping ktsa) -> repr h (VRef lb) (Mapping ktsb) ->
        well_keyed (Mapping ktsa) = true -> well_keyed (Mapping ktsb) = true ->
        Utils.isEqual (S fuel) (VRef la) (VRef lb) h = Ret true h
        <-> (forall k, k ∈ pa.*1 <-> k ∈ pb.*1)
            /\ forall k x y, prop_lookup k pa = Some x -> prop_lookup k pb = Some y ->
                 Utils.isEqual fuel x y h = Ret true h)
  /\ (forall la lb xs ys,
        la <> lb ->
        h !! la = Some (OArr xs) -> h !! lb = Some (OArr ys) ->
        Utils.isEqual (S fuel) (VRef la) (VRef lb) h = Ret true h
        <-> length xs = length ys
            /\ forall i x y, xs !! i = Some x -> ys !! i = Some y ->
                 Utils.isEqual fuel x y h = Ret true h)
  /\ (forall la lb xs pb,
        h !! la = Some (OArr xs) -> h !! lb = Some (OMap pb) ->
        Utils.isEqual (S fuel) (VRef la) (VRef lb) h = Ret false h
        /\ Utils.isEqual (S fuel) (VRef lb) (VRef la) h = Ret false h).
Proof.
  split_and!.
  - intros a Ha. cbn [Utils.isEqual].
    assert (strict_eq a a = true) as ->; [|done].
    destruct a as [ | |b|x|s|l]; cbn [strict_eq]; try done.
    + by destruct b.
    + apply num_eqb_refl. by destruct x.
    + apply String.eqb_refl.
    + apply Nat.eqb_refl.
  - intros a b ta tb Hra Hrb Hwa Hwb Hfuel.
    exact (isEqual_sym ta Hwa tb h a b fuel Hwb Hra Hrb Hfuel).
  - intros la lb pa pb ktsa ktsb Hne Hla Hlb Hra Hrb Hwa Hwb.
    inversion Hra as [ | | | | | |la' pa' kts' Hla' Hpa| ]; subst.
    inversion Hrb as [ | | | | | |lb' pb' kts' Hlb' Hpb| ]; subst.
    rewrite Hla in Hla'. injection Hla' as <-. rewrite Hlb in Hlb'. injection Hlb' as <-.
    destruct (well_keyed_mapping_keys _ _ _ Hpa Hwa) as [Hnda _].
    destruct (well_keyed_mapping_keys _ _ _ Hpb Hwb) as [Hndb Hhopb].
    by apply isEqual_mappings.
  - intros la lb xs ys Hne Hla Hlb. by apply isEqual_sequences.
  - intros la lb xs pb Hla Hlb.
    assert (Hne : la <> lb) by (intros ->; congruence).
    rewrite (isEqual_objects _ _ _ _ _ _ Hne Hla Hlb).
    by rewrite (isEqual_objects _ _ _ _ _ _ (not_eq_sym Hne) Hlb Hla).
Qed.

End Equality.

(* ===================================================================== *)
(** * [deepMerge] and its target; [set] along a path *)
(* ===================================================================== *)

Section Merge.
Context `{Host}.

(** C5: whatever [deepMerge(target, source)] does, returning or
    throwing, it leaves the store it started from as it was: every
    object reachable from [target] is unchanged, and [target] holds the
    Value it held. *)
Theorem deepMerge_leaves_target fuel target source h h'
    (Hrun : final_store (Utils.deepMerge fuel target source h) = Some h') :
  kept h h'
  /\ (forall l, reach h target l -> h' !! l = h !! l)
  /\ (forall t, repr h target t -> repr h' target t).
Proof.
  assert (Hkept : kept h h').
  { pose proof (deepMerge_writes_above (length h) fuel target source h (le_n _)) as Hw.
    destruct (Utils.deepMerge fuel target source h) as [r h1|e msg h1| |];
      try done; injection Hrun as ->.
    - destruct Hw as (Hlow & _). intros l o Hl. rewrite Hlow; [done|]. by eapply lookup_lt_Some.
    - destruct Hw as (Hlow & _). intros l o Hl. rewrite Hlow; [done|]. by eapply lookup_lt_Some. }
  split_and!; [done| |].
  - intros l Hl. destruct (reach_is_Some _ _ _ Hl) as [o Ho]. by rewrite Ho, (Hkept _ _ Ho).
  - intros t Ht. by eapply repr_kept.
Qed.

End Merge.

Section SetPath.
Context `{Host}.

Lemma repr_det t1 : forall h v t2, repr h v t1 -> repr h v t2 -> t1 = t2.
Proof.
  induction t1 as [ | | b | x | s | ts IH | kts IH | d] using Value_nested_ind;
    intros h v t2 H1 H2;
    inversion H1 as [ | | | | | l items ts1 Hl Hitems | l props kts1 Hl Hprops | l t' Hl];
    subst; inversion H2 as [ | | | | | l2 items2 ts2 Hl2 Hitems2 | l2 props2 kts2 Hl2 Hprops2
                            | l2 t2' Hl2]; subst; try done; try congruence.
  - rewrite Hl in Hl2. injection Hl2 as <-. f_equal.
    clear Hl H1 H2. revert ts2 Hitems2.
    induction Hitems as [|x t items ts Hx _ IHl]; intros ts2 H2.
    + by apply Forall2_nil_inv_l in H2.
    + apply Forall2_cons_inv_l in H2 as (t2 & ts2' & Hx2 & H2 & ->).
      apply Forall_cons in IH as [IHt IHts]. f_equal; [by eapply IHt|by apply IHl].
  - rewrite Hl in Hl2. injection Hl2 as <-. f_equal.
    clear Hl H1 H2. revert kts2 Hprops2.
    induction Hprops as [|p q props kts [Hk Hp] _ IHl]; intros kts2 H2.
    + by apply Forall2_nil_inv_l in H2.
    + apply Forall2_cons_inv_l in H2 as (q2 & kts2' & [Hk2 Hp2] & H2 & ->).
      apply Forall_cons in IH as [IHt IHts]. f_equal; [|by apply IHl].
      destruct q as [k t], q2 as [k2 t2]. cbn [fst snd] in *. f_equal; [congruence|].
      by eapply IHt.
Qed.

Lemma repr_children h l o t x :
  repr h (VRef l) t -> h !! l = Some o -> x ∈ children o ->
  exists t', repr h x t' /\ depth t' < depth t.
Proof.
  intros Hr Ho Hx.
  inversion Hr as [ | | | | | l1 items ts Hl Hitems | l1 props kts Hl Hprops | l1 d Hl];
    subst; rewrite Ho in Hl; injection Hl as ->; cbn [children] in Hx.
  - destruct (repr_child_seq _ _ _ _ Hitems Hx) as (t' & Ht' & Hr').
    exists t'. split; [done|]. by apply depth_seq_elem.
  - destruct (repr_child_map _ _ _ _ Hprops Hx) as (q & Hq & Hr').
    exists q.2. split; [done|]. by apply depth_map_elem.
  - by apply elem_of_nil in Hx.
Qed.

Lemma reach_subvalue h v l :
  reach h v l -> forall t, repr h v t -> exists t', repr h (VRef l) t' /\ depth t' <= depth t.
Proof.
  induction 1 as [l o Hl|l o x l' Hl Hx Hreach IH]; intros t Hr; [by eauto|].
  destruct (repr_children _ _ _ _ _ Hr Hl Hx) as (tx & Hrx & Hdx).
  destruct (IH tx Hrx) as (t' & Hr' & Hd'). exists t'. split; [done|lia].
Qed.

Lemma no_cycle h l o t x :
  repr h (VRef l) t -> h !! l = Some o -> x ∈ children o -> ~ reach h x l.
Proof.
  intros Hr Ho Hx Hreach.
  destruct (repr_children _ _ _ _ _ Hr Ho Hx) as (tx & Hrx & Hdx).
  destruct (reach_subvalue _ _ _ Hreach tx Hrx) as (t' & Hr' & Hd').
  pose proof (repr_det _ _ _ _ Hr Hr') as ->. lia.
Qed.

Lemma field_aligned h (props : list (key * val)) kts k :
  Forall2 (fun p q => p.1 = q.1 /\ repr h p.2 q.2) props kts ->
  match prop_lookup k props, field k kts with
  | Some v, Some t => repr h v t
  | None, None => True
  | _, _ => False
  end.
Proof.
  induction 1 as [|[k1 v] [k2 t] props kts [Hk Hv] _ IH]; cbn [prop_lookup field]; [done|].
  cbn [fst snd] in *. subst k2. by destruct (decide (k = k1)).
Qed.

Lemma truthy_repr h v t : repr h v t -> truthy v = truthy_value t.
Proof. by destruct 1. Qed.

Lemma set_path_last k v x h : set_path [k] v x h = set_prop v (to_key k) x h.
Proof. reflexivity. Qed.

Lemma set_path_step k k' rest v x h :
  set_path (k :: k' :: rest) v x h
  = (c <- get_prop v (to_key k) ;;
     (if negb (truthy c) then
        e <- alloc (OMap []) ;; set_prop v (to_key k) e
      else ret tt) ;;;
     current <- get_prop v (to_key k) ;;
     set_path (k' :: rest) current x) h.
Proof.
  unfold set_path. change (removelast (k :: k' :: rest)) with (k :: removelast (k' :: rest)).
  change (List.last (k :: k' :: rest) EmptyString) with (List.last (k' :: rest) EmptyString).
  cbn [Utils.set_loop]. unfold bind.
  destruct (get_prop v (to_key k) h) as [c h1| | |]; [|done..].
  destruct (negb (truthy c)).
  - destruct (alloc (OMap []) h1) as [e h2| | |]; [|done..].
    destruct (set_prop v (to_key k) e h2) as [[] h3| | |]; [|done..].
    by destruct (get_prop v (to_key k) h3).
  - cbn [ret]. by destruct (get_prop v (to_key k) h1).
Qed.

Lemma settable_empty keys :
  keys <> [] -> forallb fresh_key keys = true -> settable (Mapping []) keys = true.
Proof.
  induction keys as [|k [|k' rest] IH]; intros Hne Hall; [done|..];
    cbn [settable field forallb] in *.
  - rewrite andb_true_r in Hall. by rewrite Hall, orb_true_r.
  - done.
Qed.

Lemma reach_empty_mapping h l l' : h !! l = Some (OMap []) -> reach h (VRef l) l' -> l' = l.
Proof.
  intros Hl Hreach. inversion Hreach as [l1 o Hl1|l1 o x l2 Hl1 Hx Hrx]; subst; [done|].
  rewrite Hl in Hl1. injection Hl1 as <-. by apply elem_of_nil in Hx.
Qed.

(** Following a settable path from a value. *)
Lemma set_path_stored x keys :
  forall t v h,
    repr h v t -> settable t keys = true ->
    exists h',
      set_path keys v x h = Ret tt h'
      /\ stored h' v keys = Some x
      /\ length h <= length h'
      /\ forall l o, h !! l = Some o -> ~ reach h v l -> h' !! l = Some o.
Proof.
  induction keys as [|k rest IH]; intros t v h Hr Hs; [done|].
  cbn [settable] in Hs. destruct t as [ | | | | | |kts| ]; try done.
  inversion Hr as [ | | | | | |l props kts' Hl Hprops| ]; subst.
  pose proof (field_aligned _ _ _ (to_key k) Hprops) as Hfield.
  assert (Hlt : l < length h) by (by eapply lookup_lt_Some).
  destruct rest as [|k' rest].
  - (* the last segment *)
    rewrite set_path_last. cbn [stored].
    destruct (prop_lookup (to_key k) props) as [c|] eqn:Hlook.
    + rewrite (run_set_prop_own _ _ _ _ x Hl) by eauto.
      eexists. split_and!; [done| |by rewrite length_insert|].
      * rewrite list_lookup_insert_eq by done.
        rewrite prop_lookup_replace by eauto. by rewrite decide_True.
      * intros l0 o Hl0 Hn. rewrite list_lookup_insert_ne; [done|].
        intros <-. apply Hn. by eapply reach_here.
    + destruct (field (to_key k) kts) eqn:Hf; [done|].
      rewrite bool_decide_false in Hs by (by intros [? ?]). cbn [orb] in Hs.
      apply negb_true_iff in Hs.
      rewrite (run_set_prop_new _ _ _ _ x Hl Hlook Hs).
      eexists. split_and!; [done| |by rewrite length_insert|].
      * rewrite list_lookup_insert_eq by done.
        rewrite prop_lookup_insert by done. by rewrite decide_True.
      * intros l0 o Hl0 Hn. rewrite list_lookup_insert_ne; [done|].
        intros <-. apply Hn. by eapply reach_here.
  - (* an intermediate segment *)
    rewrite set_path_step.
    assert (Hmake : forall props2,
      let h2 := <[l := OMap props2]> (h ++ [OMap []]) in
      prop_lookup (to_key k) props2 = Some (VRef (length h)) ->
      forallb fresh_key (k' :: rest) = true ->
      exists h',
        (current <- get_prop (VRef l) (to_key k) ;; set_path (k' :: rest) current x) h2
        = Ret tt h'
        /\ stored h' (VRef l) (k :: k' :: rest) = Some x
        /\ length h <= length h'
        /\ forall l0 o, h !! l0 = Some o -> ~ reach h (VRef l) l0 -> h' !! l0 = Some o).
    { intros props2 h2 Hlook2 Hfresh.
      assert (Hlen2 : length h2 = S (length h)).
      { unfold h2. rewrite length_insert, length_app. cbn. lia. }
      assert (Hl2 : h2 !! l = Some (OMap props2)).
      { unfold h2. apply list_lookup_insert_eq. rewrite length_app. cbn. lia. }
      assert (He2 : h2 !! length h = Some (OMap [])).
      { unfold h2. rewrite list_lookup_insert_ne by lia.
        rewrite lookup_app_r by done. by rewrite Nat.sub_diag. }
      destruct (IH (Mapping []) (VRef (length h)) h2) as (h' & Hrun & Hst & Hlen' & Hframe).
      { econstructor; [exact He2|constructor]. }
      { by apply settable_empty. }
      exists h'. rewrite (bind_Ret _ _ _ _ _ (run_get_prop_own _ _ _ _ _ Hl2 Hlook2)).
      split_and!; [done| |lia|].
      - cbn [stored].
        rewrite (Hframe l (OMap props2) Hl2).
        + by rewrite Hlook2.
        + intros Hreach. apply (reach_empty_mapping _ _ _ He2) in Hreach. lia.
      - intros l0 o Hl0 Hn.
        assert (l0 < length h) by (by eapply lookup_lt_Some).
        apply Hframe.
        + unfold h2. rewrite list_lookup_insert_ne.
          * by apply lookup_app_l_Some.
          * intros <-. apply Hn. by eapply reach_here.
        + intros Hreach. apply (reach_empty_mapping _ _ _ He2) in Hreach. lia. }
    assert (Hl1 : (h ++ [OMap []]) !! l = Some (OMap props)) by (by apply lookup_app_l_Some).
    destruct (prop_lookup (to_key k) props) as [c|] eqn:Hlook;
      destruct (field (to_key k) kts) as [ct|] eqn:Hf; try done.
    + rewrite (bind_Ret _ _ _ _ _ (run_get_prop_own _ _ _ _ _ Hl Hlook)).
      rewrite (truthy_repr _ _ _ Hfield).
      destruct (truthy_value ct) eqn:Htr; cbn [negb].
      * (* descend *)
        rewrite (bind_Ret _ _ _ tt h) by done.
        rewrite (bind_Ret _ _ _ _ _ (run_get_prop_own _ _ _ _ _ Hl Hlook)).
        destruct (IH ct c h Hfield Hs) as (h' & Hrun & Hst & Hlen' & Hframe).
        assert (Hchild : c ∈ children (OMap props)).
        { cbn [children]. apply list_elem_of_fmap. exists (to_key k, c).
          split; [done|]. by apply prop_lookup_elem. }
        exists h'. split_and!; [done| |done|].
        -- cbn [stored]. rewrite (Hframe l _ Hl) by (by eapply no_cycle). by rewrite Hlook.
        -- intros l0 o Hl0 Hn. apply Hframe; [done|]. intros Hreach. apply Hn.
           by eapply reach_child.
      * (* a falsy value: replaced by a new mapping *)
        rewrite bind_assoc, (bind_Ret _ _ _ _ _ (run_alloc _ _)).
        rewrite (bind_Ret _ _ _ _ _ (run_set_prop_own _ _ _ _ _ Hl1 ltac:(eauto))).
        apply Hmake; [|done]. rewrite prop_lookup_replace by eauto. by rewrite decide_True.
    + (* absent: a new mapping *)
      apply andb_true_iff in Hs as [Hk Hfresh]. pose proof Hk as Hk'.
      apply negb_true_iff in Hk'.
      rewrite (bind_Ret _ _ _ _ _ (run_get_prop_absent _ _ _ _ Hl Hlook Hk')).
      cbn [truthy negb].
      rewrite bind_assoc, (bind_Ret _ _ _ _ _ (run_alloc _ _)).
      rewrite (bind_Ret _ _ _ _ _ (run_set_prop_new _ _ _ _ _ Hl1 Hlook Hk')).
      apply Hmake; [|done]. rewrite prop_lookup_insert by done. by rewrite decide_True.
Qed.


End SetPath.

(* ===================================================================== *)
(** * [sortBy] *)
(* ===================================================================== *)

Section Sorting.
Variable le : val -> val -> bool.
Variable U : list val.
Hypothesis le_total : forall a b, a ∈ U -> b ∈ U -> le a b = false -> le b a = true.
Hypothesis le_trans : forall a b c, a ∈ U -> b ∈ U -> c ∈ U ->
  le a b = true -> le b c = true -> le a c = true.

Lemma insert_by_perm x l : Permutation (x :: l) (insert_by le x l).
Proof.
  induction l as [|y r IH]; cbn [insert_by]; [done|].
  destruct (le x y); [done|]. rewrite perm_swap. by constructor.
Qed.

Lemma sort_by_perm l : Permutation l (sort_by le l).
Proof.
  induction l as [|x r IH]; cbn [sort_by]; [done|].
  rewrite <- insert_by_perm. by constructor.
Qed.

Lemma insert_by_sorted x l :
  x ∈ U -> Forall (fun y => y ∈ U) l ->
  StronglySorted (fun a b => le a b = true) l ->
  StronglySorted (fun a b => le a b = true) (insert_by le x l).
Proof.
  intros Hx HU Hs. induction Hs as [|y r Hr IH Hy]; cbn [insert_by].
  - repeat constructor.
  - apply Forall_cons in HU as [HyU HrU].
    destruct (le x y) eqn:Hxy.
    + constructor; [by constructor|]. constructor; [done|].
      rewrite Forall_forall in Hy, HrU |- *. intros z Hz.
      apply (le_trans x y z); auto.
    + constructor; [auto|].
      rewrite <- insert_by_perm. constructor; [by apply le_total|done].
Qed.

Lemma sort_by_sorted l :
  Forall (fun y => y ∈ U) l -> StronglySorted (fun a b => le a b = true) (sort_by le l).
Proof.
  induction l as [|x r IH]; intros HU; cbn [sort_by]; [constructor|].
  apply Forall_cons in HU as [Hx Hr].
  apply insert_by_sorted; [done| |auto].
  by rewrite <- sort_by_perm.
Qed.

(** Elements that tie keep their order: [eqv a] picks a class of
    elements, and no element that [x] passes is in the class of [x]. *)
Lemma insert_by_stable (eqv : val -> bool) x l :
  (forall y, y ∈ l -> eqv x = true -> eqv y = true -> le x y = true) ->
  filter (fun y => eqv y = true) (insert_by le x l)
  = filter (fun y => eqv y = true) (x :: l).
Proof.
  induction l as [|y r IH]; intros Hcls; cbn [insert_by]; [done|].
  destruct (le x y) eqn:Hxy; [done|].
  rewrite filter_cons, IH by (intros z Hz; apply Hcls; by right).
  rewrite !filter_cons.
  destruct (decide (eqv y = true)) as [Hy|Hy]; [|done].
  destruct (decide (eqv x = true)) as [Hx|Hx]; [|done].
  rewrite (Hcls y) in Hxy; [done|left|done|done].
Qed.

Lemma sort_by_stable (eqv : val -> bool) l :
  Forall (fun y => y ∈ U) l ->
  (forall x y, x ∈ U -> y ∈ U -> eqv x = true -> eqv y = true -> le x y = true) ->
  filter (fun y => eqv y = true) (sort_by le l) = filter (fun y => eqv y = true) l.
Proof.
  intros HU Hcls. induction l as [|x r IH]; cbn [sort_by]; [done|].
  apply Forall_cons in HU as [Hx Hr].
  rewrite insert_by_stable.
  - rewrite !filter_cons, IH by done. done.
  - intros y Hy. apply Hcls; [done|].
    rewrite <- sort_by_perm in Hy. rewrite Forall_forall in Hr. auto.
Qed.

End Sorting.

Section SortBy.
Context `{Host}.

Lemma persistent_ret {A} (a : A) : persistent (ret a).
Proof. intros h h' a' _ [= ->]. done. Qed.

Lemma persistent_bind {A B} (c : M A) (k : A -> M B) :
  reads_only c -> persistent c -> (forall a, persistent (k a)) -> persistent (bind c k).
Proof.
  intros Hro Hc Hk h h' b Hkept Hrun.
  apply bind_inv in Hrun as (a & h1 & Ha & Hb).
  pose proof (reads_only_Ret _ _ _ _ Hro Ha) as ->.
  rewrite (bind_Ret _ _ _ _ _ (Hc _ _ _ Hkept Ha)). by apply (Hk a h h' b).
Qed.

Lemma persistent_get_prop v k : persistent (get_prop v k).
Proof.
  assert (Habs : forall p, persistent (absent p k)).
  { intros p h h' x _. unfold absent. destruct (inherited p k); [done|].
    by intros [= <-]. }
  intros h h' x Hkept. destruct v as [ | | | |s|l]; cbn [get_prop]; try done.
  - by apply Habs.
  - by apply Habs.
  - destruct k as [i|n]; [destruct (String.get i s)|destruct (String.eqb n "length")];
      first [by apply Habs | by intros [= <-]].
  - unfold bind, load.
    destruct (h !! l) as [o|] eqn:Hl; [|done]. rewrite (Hkept _ _ Hl).
    destruct o as [items|props|t].
    + destruct k as [i|n]; [destruct (items !! i)|destruct (String.eqb n "length")];
        first [by apply Habs | by intros [= <-]].
    + destruct (prop_lookup k props); first [by apply Habs | by intros [= <-]].
    + by apply Habs.
Qed.

Lemma persistent_get_elem v kv : persistent (get_elem v kv).
Proof.
  unfold get_elem. destruct (to_property_key kv); [apply persistent_get_prop|done].
Qed.

Lemma persistent_js_lt x y : persistent (js_lt x y).
Proof.
  intros h h' b _. unfold js_lt.
  destruct x, y; cbn; try done; try (intros [= <-]; done).
Qed.

Lemma reads_only_get_elem v kv : reads_only (get_elem v kv).
Proof.
  unfold get_elem. destruct (to_property_key kv);
    [apply reads_only_get_prop|apply reads_only_unmodelled].
Qed.

Lemma reads_only_js_lt x y : reads_only (js_lt x y).
Proof.
  unfold js_lt. destruct x, y; cbn; try apply reads_only_ret; try apply reads_only_unmodelled.
Qed.

Lemma reads_only_compare_keys keys orders : forall i a b,
  reads_only (Data.compare_keys keys orders i a b).
Proof.
  induction keys as [|k keys IH]; intros i a b; cbn [Data.compare_keys];
    [apply reads_only_ret|].
  apply reads_only_bind; [apply reads_only_get_elem|]. intros valA.
  apply reads_only_bind; [apply reads_only_get_elem|]. intros valB.
  apply reads_only_bind; [apply reads_only_js_lt|]. intros [|]; [apply reads_only_ret|].
  apply reads_only_bind; [apply reads_only_js_lt|]. intros [|]; [apply reads_only_ret|].
  apply IH.
Qed.

Lemma persistent_compare_keys keys orders : forall i a b,
  persistent (Data.compare_keys keys orders i a b).
Proof.
  induction keys as [|k keys IH]; intros i a b; cbn [Data.compare_keys];
    [apply persistent_ret|].
  apply persistent_bind; [apply reads_only_get_elem|apply persistent_get_elem|]. intros valA.
  apply persistent_bind; [apply reads_only_get_elem|apply persistent_get_elem|]. intros valB.
  apply persistent_bind; [apply reads_only_js_lt|apply persistent_js_lt|].
  intros [|]; [apply persistent_ret|].
  apply persistent_bind; [apply reads_only_js_lt|apply persistent_js_lt|].
  intros [|]; [apply persistent_ret|]. apply IH.
Qed.

Lemma compared_run h keys orders a b z :
  compared h keys orders a b = Some z ->
  Data.compare_keys keys orders 0 a b h = Ret z h.
Proof.
  unfold compared. destruct (Data.compare_keys keys orders 0 a b h) as [z' h'| | |] eqn:Hrun;
    try done.
  intros [= ->]. by rewrite (reads_only_Ret _ _ _ _ (reads_only_compare_keys _ _ _ _ _) Hrun).
Qed.

Lemma sort_insert_run cmp le x l h :
  (forall y, y ∈ l -> exists z, cmp x y h = Ret z h /\ le x y = (z <=? 0)%Z) ->
  sort_insert cmp x l h = Ret (insert_by le x l) h.
Proof.
  induction l as [|y r IH]; intros Hcmp; cbn [sort_insert insert_by]; [done|].
  destruct (Hcmp y) as (z & Hz & Hle); [left|].
  rewrite (bind_Ret _ _ _ _ _ Hz), Hle. destruct (z <=? 0)%Z; [done|].
  rewrite (bind_Ret _ _ _ (insert_by le x r) h); [done|].
  apply IH. intros y' Hy'. apply Hcmp. by right.
Qed.

Lemma sort_items_run cmp le l h :
  (forall x y, x ∈ l -> y ∈ l -> exists z, cmp x y h = Ret z h /\ le x y = (z <=? 0)%Z) ->
  sort_items cmp l h = Ret (sort_by le l) h.
Proof.
  induction l as [|x r IH]; intros Hcmp; cbn [sort_items sort_by]; [done|].
  rewrite (bind_Ret _ _ _ (sort_by le r) h).
  - apply sort_insert_run. intros y Hy. rewrite <- sort_by_perm in Hy.
    apply Hcmp; [left|by right].
  - apply IH. intros a b Ha Hb. apply Hcmp; by right.
Qed.

Lemma forallb_agree {A} (f g : A -> bool) (l : list A) :
  (forall x, x ∈ l -> f x = g x) -> forallb f l = forallb g l.
Proof.
  induction l as [|x l IH]; intros Hfg; cbn [forallb]; [done|].
  rewrite (Hfg x) by (apply elem_of_cons; by left).
  rewrite IH; [done|]. intros y Hy. apply Hfg, elem_of_cons. by right.
Qed.

(** [consistent] looks at the comparison on the items only. *)
Lemma consistent_ext (c1 c2 : val -> val -> option Z) items :
  (forall a b, a ∈ items -> b ∈ items -> c1 a b = c2 a b) ->
  consistent c1 items = consistent c2 items.
Proof.
  intros Hext. unfold consistent.
  apply forallb_agree. intros a Ha.
  apply forallb_agree. intros b Hb.
  rewrite (Hext a b), (Hext b a) by done. f_equal.
  apply forallb_agree. intros c Hc.
  unfold precedes. by rewrite (Hext a b), (Hext b c), (Hext a c).
Qed.

(** [sort] with a comparison that runs, without changing the store, to
    what a consistent [c] says. *)
Lemma run_array_sort cmp (c : val -> val -> option Z) l items h :
  h !! l = Some (OArr items) ->
  VUndef ∉ items ->
  consistent c items = true ->
  (forall x y, x ∈ items -> y ∈ items ->
     exists z, cmp x y h = Ret z h /\ c x y = Some z) ->
  array_sort cmp (VRef l) h = Ret tt (<[l := OArr (sort_by (precedes c) items)]> h).
Proof.
  intros Hl Hno Hc Hcmp.
  assert (Hdef : filter (fun v => v <> VUndef) items = items
                 /\ filter (fun v => v = VUndef) items = []).
  { clear -Hno. induction items as [|v r IH]; [done|].
    apply not_elem_of_cons in Hno as [Hv Hr]. destruct (IH Hr) as [IH1 IH2].
    rewrite !filter_cons, decide_True, decide_False, IH1, IH2; done. }
  destruct Hdef as [Hdef Hundef].
  unfold array_sort. rewrite (bind_Ret _ _ _ _ _ (run_array_items _ _ _ Hl)).
  cbv zeta. rewrite Hdef, Hundef.
  assert (Hok : consistent (compares cmp h) items = true).
  { rewrite <- Hc. apply consistent_ext. intros a b Ha Hb.
    destruct (Hcmp a b Ha Hb) as (z & Hz & ->). unfold compares.
    by rewrite Hz, decide_True. }
  unfold reads at 1. unfold bind at 1. rewrite Hok.
  rewrite (bind_Ret _ _ _ (sort_by (precedes c) items) h).
  - by rewrite app_nil_r.
  - apply sort_items_run. intros x y Hx Hy.
    destruct (Hcmp x y Hx Hy) as (z & Hz & Hcz). exists z. split; [done|].
    unfold precedes. by rewrite Hcz.
Qed.

(** What [consistent] says. *)
Lemma consistent_spec cmp items :
  consistent cmp items = true ->
  (forall a b, a ∈ items -> b ∈ items ->
     exists x y, cmp a b = Some x /\ cmp b a = Some y /\ Z.sgn y = (- Z.sgn x)%Z)
  /\ (forall a b c, a ∈ items -> b ∈ items -> c ∈ items ->
        precedes cmp a b = true -> precedes cmp b c = true -> precedes cmp a c = true).
Proof.
  unfold consistent. rewrite forallb_forall. intros Hall. split.
  - intros a b Ha Hb. apply list_elem_of_In in Ha, Hb.
    specialize (Hall a Ha). rewrite forallb_forall in Hall. specialize (Hall b Hb).
    apply andb_true_iff in Hall as [Hsgn _].
    destruct (cmp a b) as [x|], (cmp b a) as [y|]; try done.
    exists x, y. split_and!; try done. by apply Z.eqb_eq.
  - intros a b c Ha Hb Hc Hab Hbc. apply list_elem_of_In in Ha, Hb, Hc.
    specialize (Hall a Ha). rewrite forallb_forall in Hall. specialize (Hall b Hb).
    apply andb_true_iff in Hall as [_ Htr]. rewrite forallb_forall in Htr.
    specialize (Htr c Hc). by rewrite Hab, Hbc in Htr.
Qed.

Lemma run_arg_list h v :
  (if is_array h v then array_items v else ret [v]) h = Ret (arg_list h v) h.
Proof.
  unfold is_array, arg_list. destruct v as [ | | | | |l]; try done.
  destruct (h !! l) as [[items|props|t]|] eqn:Hl; try done.
  by apply run_array_items.
Qed.

Lemma run_order_list h order :
  (if is_array h order then array_items order
   else ret [if truthy order then order else VStr "asc"]) h = Ret (order_list h order) h.
Proof.
  unfold order_list. destruct (is_array h order) eqn:Ha; [|done].
  unfold is_array, arg_list in *. destruct order as [ | | | | |l]; try done.
  destruct (h !! l) as [[items|props|t]|] eqn:Hl; try done.
  by apply run_array_items.
Qed.

(** Text under a key is compared in lower case, in the direction in
    force; a tie passes to the next key. *)
Lemma compare_keys_text h k keys orders i a b s1 s2 :
  get_elem a k h = Ret (VStr s1) h -> get_elem b k h = Ret (VStr s2) h ->
  Data.compare_keys (k :: keys) orders i a b h
  = match String.compare (toLowerCase s1) (toLowerCase s2) with
    | Lt => Ret (if ascending orders i then (-1)%Z else 1%Z) h
    | Gt => Ret (if ascending orders i then 1%Z else (-1)%Z) h
    | Eq => Data.compare_keys keys orders (S i) a b h
    end.
Proof.
  intros Ha Hb. cbn [Data.compare_keys].
  rewrite (bind_Ret _ _ _ _ _ Ha), (bind_Ret _ _ _ _ _ Hb). cbn [js_lt].
  rewrite !(bind_Ret _ _ _ _ _ (run_ret _ _)). unfold String.ltb.
  rewrite (String.compare_antisym (toLowerCase s1) (toLowerCase s2)).
  assert (Hasc : forall (x y : Z),
    (if strict_eq match orders !! i with
                  | Some o => if truthy o then o else VStr "asc"
                  | None => VStr "asc"
                  end (VStr "asc") then x else y)
    = if ascending orders i then x else y).
  { intros x y. unfold ascending. destruct (orders !! i) as [o|]; [|done].
    by destruct (truthy o). }
  destruct (toLowerCase s2 ?= toLowerCase s1)%string; cbn [CompOpp];
    rewrite ?(bind_Ret _ _ _ _ _ (run_ret _ _)); by rewrite ?Hasc.
Qed.

(** Numbers under a key are compared by [<], in the direction in
    force; a tie passes to the next key. *)
Lemma compare_keys_number h k keys orders i a b x y :
  get_elem a k h = Ret (VNum x) h -> get_elem b k h = Ret (VNum y) h ->
  Data.compare_keys (k :: keys) orders i a b h
  = if num_ltb x y then Ret (if ascending orders i then (-1)%Z else 1%Z) h
    else if num_ltb y x then Ret (if ascending orders i then 1%Z else (-1)%Z) h
    else Data.compare_keys keys orders (S i) a b h.
Proof.
  intros Ha Hb. cbn [Data.compare_keys].
  rewrite (bind_Ret _ _ _ _ _ Ha), (bind_Ret _ _ _ _ _ Hb). cbn [js_lt to_number].
  rewrite !(bind_Ret _ _ _ _ _ (run_ret _ _)).
  assert (Hasc : forall (u v : Z),
    (if strict_eq match orders !! i with
                  | Some o => if truthy o then o else VStr "asc"
                  | None => VStr "asc"
                  end (VStr "asc") then u else v)
    = if ascending orders i then u else v).
  { intros u v. unfold ascending. destruct (orders !! i) as [o|]; [|done].
    by destruct (truthy o). }
  destruct (num_ltb x y); [by rewrite Hasc|].
  rewrite !(bind_Ret _ _ _ _ _ (run_ret _ _)).
  destruct (num_ltb y x); by rewrite ?Hasc.
Qed.

(** For an array without [undefined] elements on which the comparison of
    [sortBy] is consistent, [sortBy] returns a new array that is a
    permutation of the input, in the order of the comparison, with
    elements that tie in their input order. *)
Lemma sortBy_sorts h la items key order
    (Hla : h !! la = Some (OArr items)) (Hno : VUndef ∉ items)
    (Hc : consistent (compared h (arg_list h key) (order_list h order)) items = true) :
  exists out,
    Data.sortBy (VRef la) key order h = Ret (VRef (length h)) (h ++ [OArr out])
    /\ Permutation items out
    /\ StronglySorted
         (fun a b => precedes (compared h (arg_list h key) (order_list h order)) a b = true) out
    /\ (forall a, a ∈ items ->
          filter (fun b => tied (compared h (arg_list h key) (order_list h order)) a b = true) out
          = filter (fun b => tied (compared h (arg_list h key) (order_list h order)) a b = true)
              items).
Proof.
  set (keys := arg_list h key) in *. set (orders := order_list h order) in *.
  set (cmp := compared h keys orders) in *.
  destruct (consistent_spec _ _ Hc) as [Hpair Htrans].
  assert (Htotal : forall a b, a ∈ items -> b ∈ items ->
            precedes cmp a b = false -> precedes cmp b a = true).
  { intros a b Ha Hb. unfold precedes.
    destruct (Hpair a b Ha Hb) as (x & y & -> & -> & Hsgn). lia. }
  exists (sort_by (precedes cmp) items).
  split_and!.
  - unfold Data.sortBy. mstep. rewrite (is_array_seq _ _ _ Hla). cbn [negb].
    mstep. rewrite (bind_Ret _ _ _ _ _ (run_arg_list h key)).
    mstep. rewrite (bind_Ret _ _ _ _ _ (run_order_list h order)).
    mstep. mstep. fold keys orders.
    assert (Hnew : (h ++ [OArr items]) !! length h = Some (OArr items)).
    { rewrite lookup_app_r by done. by rewrite Nat.sub_diag. }
    assert (Hcmp : forall x y, x ∈ items -> y ∈ items ->
              exists z, Data.compare_keys keys orders 0 x y (h ++ [OArr items])
                        = Ret z (h ++ [OArr items]) /\ cmp x y = Some z).
    { intros x y Hx Hy. destruct (Hpair x y Hx Hy) as (z & _ & Hz & _). exists z.
      split; [|done].
      apply (persistent_compare_keys keys orders 0 x y h); [apply kept_app|].
      by apply compared_run. }
    rewrite (bind_Ret _ _ _ _ _ (run_array_sort _ cmp _ _ _ Hnew Hno Hc Hcmp)).
    unfold ret. do 2 f_equal.
    rewrite insert_app_r_alt by done. by rewrite Nat.sub_diag.
  - apply sort_by_perm.
  - apply (sort_by_sorted _ items); [done|done|]. by apply Forall_forall.
  - intros a Ha. apply (sort_by_stable _ items); [by apply Forall_forall|].
    intros x y Hx Hy Hax Hay. apply (Htrans x a y); [done..| |].
    + unfold tied, precedes in *.
      destruct (Hpair a x Ha Hx) as (u & v & Hu & Hv & Hsgn). rewrite Hu in Hax. rewrite Hv.
      lia.
    + unfold tied, precedes in *. destruct (cmp a y); [lia|done].
Qed.

(** C6, as the code has it: for an array without [undefined] elements
    on which the comparison that [sortBy] makes is consistent (any two
    elements compare, with opposite signs in the two orders, and "not
    after" is transitive), [sortBy] returns a new array that is a
    permutation of the input, in the order of the comparison, with
    elements that tie in their input order. The comparison goes through
    the keys: where both elements hold strings it takes them without
    regard to case, where both hold numbers it takes them by [<], in the
    direction of the key (ascending when the order is missing or falsy,
    or is ['asc'], and descending otherwise); on a tie it goes on to
    the next key, and after the last key the elements tie. *)
Theorem sortBy_stable_sort h la items key order
    (Hla : h !! la = Some (OArr items)) (Hno : VUndef ∉ items)
    (Hc : consistent (compared h (arg_list h key) (order_list h order)) items = true) :
  exists out,
    Data.sortBy (VRef la) key order h = Ret (VRef (length h)) (h ++ [OArr out])
    /\ Permutation items out
    /\ StronglySorted
         (fun a b => precedes (compared h (arg_list h key) (order_list h order)) a b = true) out
    /\ (forall a, a ∈ items ->
          filter (fun b => tied (compared h (arg_list h key) (order_list h order)) a b = true) out
          = filter (fun b => tied (compared h (arg_list h key) (order_list h order)) a b = true)
              items)
    /\ (forall k keys orders i a b s1 s2,
          get_elem a k h = Ret (VStr s1) h -> get_elem b k h = Ret (VStr s2) h ->
          Data.compare_keys (k :: keys) orders i a b h
          = match String.compare (toLowerCase s1) (toLowerCase s2) with
            | Lt => Ret (if ascending orders i then (-1)%Z else 1%Z) h
            | Gt => Ret (if ascending orders i then 1%Z else (-1)%Z) h
            | Eq => Data.compare_keys keys orders (S i) a b h
            end)
    /\ (forall k keys orders i a b x y,
          get_elem a k h = Ret (VNum x) h -> get_elem b k h = Ret (VNum y) h ->
          Data.compare_keys (k :: keys) orders i a b h
          = if num_ltb x y then Ret (if ascending orders i then (-1)%Z else 1%Z) h
            else if num_ltb y x then Ret (if ascending orders i then 1%Z else (-1)%Z) h
            else Data.compare_keys keys orders (S i) a b h)
    /\ (forall orders i a b, Data.compare_keys [] orders i a b h = Ret 0%Z h).
Proof.
  destruct (sortBy_sorts h la items key order Hla Hno Hc)
    as (out & Hrun & Hperm & Hsorted & Hstable).
  exists out. split_and!; [done..| | |done].
  - intros. by apply compare_keys_text.
  - intros. by apply compare_keys_number.
Qed.

End SortBy.

(* ===================================================================== *)
(** * [flatten] *)
(* ===================================================================== *)

Section Flatten.
Context `{Host}.

(** C10: [flatten(data, 0)] is [flatten(data)]: a falsy [depth] becomes
    [Infinity], and the call returns a new array of all the primitive
    values inside [data], in traversal order. *)
Theorem flatten_depth_zero_is_unlimited :
  (forall fuel data d h,
     truthy d = false -> Data.flatten fuel data d h = Data.flatten fuel data VUndef h)
  /\ (forall fuel data h,
        Data.flatten fuel data (VNum (S754_zero false)) h = Data.flatten fuel data VUndef h)
  /\ (forall h data t fuel,
        repr h data t -> well_keyed t = true -> depth t < fuel ->
        Data.flatten fuel data (VNum (S754_zero false)) h
        = Ret (VRef (length h)) (h ++ [OArr (leaves t)])).
Proof.
  assert (Hfalsy : forall fuel data d h, truthy d = false ->
    Data.flatten fuel data d h = Data.flatten fuel data VUndef h).
  { intros fuel data d h Hd. unfold Data.flatten. by rewrite Hd. }
  split; [exact Hfalsy|]. split; [intros; by apply Hfalsy|].
  intros h data t fuel Hr Hwk Hfuel.
  unfold Data.flatten. cbn [truthy].
  rewrite (bind_Ret _ _ _ _ _ (flattenRecursive_leaves t Hwk h data fuel 0 Hr Hfuel)).
  reflexivity.
Qed.

End Flatten.

(* ===================================================================== *)
(** * The scenarios, evaluated *)
(* ===================================================================== *)

Section Evaluated.
Import Examples.
Existing Instance es_host.

Ltac repr_tac :=
  repeat first [ eapply repr_seq; [reflexivity|]
               | eapply repr_map; [reflexivity|]
               | eapply repr_date; reflexivity
               | constructor ].

Lemma sam_value_repr : repr sam_heap (VRef 1) sam_value.
Proof. repr_tac. Qed.

Lemma flatten_value_repr : repr flatten_heap (VRef 2) flatten_value.
Proof. repr_tac. Qed.

Lemma clone_value_repr : repr clone_heap (VRef 2) clone_value.
Proof. repr_tac. Qed.

Lemma equal_value_repr l : l = 2 \/ l = 3 -> repr equal_heap (VRef l) equal_value.
Proof. intros [->| ->]; repr_tac. Qed.

(** C1: [deepMerge({}, {a: {b: 1}})] returns [{a: undefined}]: the key
    [a] is only in the second argument, and the result does not hold the
    second argument's value there. The empty mapping the code first puts
    at [a] (location 4) is replaced by the merge of [undefined] and
    [{b: 1}], which is the clone of [undefined]. *)
Theorem deepMerge_drops_new_mapping :
  Utils.deepMerge 4 (VRef 0) (VRef 2) merge_heap
  = Ret (VRef 3) (merge_heap ++ [OMap [(KStr "a", VUndef)]; OMap []]).
Proof. vm_compute. reflexivity. Qed.



(** [isEqual(NaN, NaN)] is false; and with a key that hides
    [hasOwnProperty], [isEqual({hasOwnProperty: 1}, {x: 1})] is false
    while [isEqual({x: 1}, {hasOwnProperty: 1})] throws. *)
Lemma isEqual_counterexample :
  Utils.isEqual 1 (VNum NaN) (VNum NaN) [] = Ret false []
  /\ Utils.isEqual 2 (VRef 0) (VRef 1) shadow_heap = Ret false shadow_heap
  /\ Utils.isEqual 2 (VRef 1) (VRef 0) shadow_heap
     = Throw TypeError "hasOwnProperty is not a function" shadow_heap.
Proof. vm_compute. repeat split. Qed.

Lemma isEqual_laws_witness :
  Utils.isEqual 1 (VRef 2) (VRef 2) flatten_heap = Ret true flatten_heap
  /\ (exists r, Utils.isEqual 3 (VRef 2) (VRef 3) equal_heap = Ret r equal_heap
                /\ Utils.isEqual 3 (VRef 3) (VRef 2) equal_heap = Ret r equal_heap)
  /\ Utils.isEqual 3 (VRef 2) (VRef 3) equal_heap = Ret true equal_heap
  /\ Utils.isEqual 2 (VRef 0) (VRef 1) equal_heap = Ret true equal_heap
  /\ Utils.isEqual 1 (VRef 2) (VRef 1) flatten_heap = Ret false flatten_heap
  /\ Utils.isEqual 1 (VRef 1) (VRef 2) flatten_heap = Ret false flatten_heap.
Proof.
  split_and!.
  - apply (proj1 (isEqual_laws flatten_heap 0)). discriminate.
  - apply (proj1 (proj2 (isEqual_laws equal_heap 3)) (VRef 2) (VRef 3) equal_value equal_value).
    + apply equal_value_repr. by left.
    + apply equal_value_repr. by right.
    + vm_compute. reflexivity.
    + vm_compute. reflexivity.
    + cbn. lia.
  - apply (proj1 (proj2 (proj2 (isEqual_laws equal_heap 2))) 2 3
             [(KStr "t", VStr "a"); (KStr "n", VRef 0)]
             [(KStr "t", VStr "a"); (KStr "n", VRef 1)]
             [(KStr "t", Text "a"); (KStr "n", Sequence [Number (num_of_nat 1); Text "x"])]
             [(KStr "t", Text "a"); (KStr "n", Sequence [Number (num_of_nat 1); Text "x"])]).
    + lia.
    + reflexivity.
    + reflexivity.
    + apply equal_value_repr. by left.
    + apply equal_value_repr. by right.
    + vm_compute. reflexivity.
    + vm_compute. reflexivity.
    + split; [done|]. intros k x y Hx Hy. cbn [prop_lookup] in Hx, Hy.
      destruct (decide (k = KStr "t"));
        [injection Hx as <-; injection Hy as <-; vm_compute; reflexivity|].
      destruct (decide (k = KStr "n")); [|done].
      injection Hx as <-; injection Hy as <-. vm_compute. reflexivity.
  - apply (proj1 (proj2 (proj2 (proj2 (isEqual_laws equal_heap 1)))) 0 1
             [VNum (num_of_nat 1); VStr "x"] [VNum (num_of_nat 1); VStr "x"]).
    + lia.
    + reflexivity.
    + reflexivity.
    + split; [done|]. intros [|[|i]] x y Hx Hy; try done;
        injection Hx as <-; injection Hy as <-; vm_compute; reflexivity.
  - apply (proj2 (proj2 (proj2 (proj2 (isEqual_laws flatten_heap 0)))) 2 1
             [VNum (num_of_nat 1); VRef 1] [(KStr "k", VRef 0)]); reflexivity.
  - apply (proj2 (proj2 (proj2 (proj2 (isEqual_laws flatten_heap 0)))) 2 1
             [VNum (num_of_nat 1); VRef 1] [(KStr "k", VRef 0)]); reflexivity.
Defined.

(** [isEqual(deepClone(NaN), NaN)] is false; and for
    [{hasOwnProperty: 1}], which holds no [NaN], [deepClone] throws. *)
Lemma isEqual_deepClone_counterexample :
  (clone <- Utils.deepClone 2 (VNum NaN) ;; Utils.isEqual 2 clone (VNum NaN)) []
  = Ret false []
  /\ (clone <- Utils.deepClone 2 (VRef 0) ;; Utils.isEqual 2 clone (VRef 0)) shadow_heap
     = Throw TypeError "hasOwnProperty is not a function" (shadow_heap ++ [OMap []]).
Proof. vm_compute. split; reflexivity. Qed.

Lemma isEqual_deepClone_witness :
  exists h',
    (clone <- Utils.deepClone 4 (VRef 2) ;; Utils.isEqual 4 clone (VRef 2)) flatten_heap
    = Ret true h'.
Proof.
  apply (isEqual_deepClone flatten_heap (VRef 2) flatten_value 4).
  - exact flatten_value_repr.
  - vm_compute. reflexivity.
  - vm_compute. reflexivity.
  - cbn. lia.
Defined.

Lemma deepMerge_leaves_target_witness :
  exists h',
    final_store (Utils.deepMerge 6 (VRef 1) (VRef 4) merge_both_heap) = Some h'
    /\ kept merge_both_heap h'
    /\ (forall l, reach merge_both_heap (VRef 1) l -> h' !! l = merge_both_heap !! l)
    /\ (forall t, repr merge_both_heap (VRef 1) t -> repr h' (VRef 1) t).
Proof.
  eexists. split.
  - vm_compute. reflexivity.
  - apply (deepMerge_leaves_target 6 (VRef 1) (VRef 4) merge_both_heap).
    vm_compute. reflexivity.
Defined.

(** In [sortBy([{a: 2}, {}, {a: 1}], 'a')] the comparison puts [{a: 2}]
    after [{a: 1}], but ties [{}], which lacks the key, with both: a
    stable sort by insertion, run with it, leaves [{a: 2}] before
    [{a: 1}]; the comparison is not consistent on the elements, and no
    order of the three is in the order of the comparison with the
    elements that tie with [{}] (all three) in their input order. *)
Lemma sortBy_counterexample :
  sort_items (Data.compare_keys [VStr "a"] [VStr "asc"] 0) [VRef 0; VRef 1; VRef 2]
    sort_gap_heap
  = Ret [VRef 0; VRef 1; VRef 2] sort_gap_heap
  /\ compared sort_gap_heap [VStr "a"] [VStr "asc"] (VRef 0) (VRef 2) = Some 1%Z
  /\ compared sort_gap_heap [VStr "a"] [VStr "asc"] (VRef 0) (VRef 1) = Some 0%Z
  /\ compared sort_gap_heap [VStr "a"] [VStr "asc"] (VRef 1) (VRef 2) = Some 0%Z
  /\ consistent (compared sort_gap_heap [VStr "a"] [VStr "asc"]) [VRef 0; VRef 1; VRef 2]
     = false
  /\ (forall out,
        Permutation [VRef 0; VRef 1; VRef 2] out ->
        StronglySorted
          (fun a b => precedes (compared sort_gap_heap [VStr "a"] [VStr "asc"]) a b = true)
          out ->
        filter (fun b => tied (compared sort_gap_heap [VStr "a"] [VStr "asc"]) (VRef 1) b
                         = true) out
        <> filter (fun b => tied (compared sort_gap_heap [VStr "a"] [VStr "asc"]) (VRef 1) b
                            = true) [VRef 0; VRef 1; VRef 2]).
Proof.
  split_and!; [by vm_compute..|].
  intros out Hperm Hsorted Heq.
  assert (Hall : filter (fun b => tied (compared sort_gap_heap [VStr "a"] [VStr "asc"])
                                    (VRef 1) b = true) out = out).
  { assert (Hin : Forall (fun b => b ∈ [VRef 0; VRef 1; VRef 2]) out).
    { apply Forall_forall. intros b Hb. by rewrite Hperm. }
    clear -Hin. induction Hin as [|b out Hb _ IH]; [done|].
    rewrite filter_cons, IH.
    rewrite decide_True; [done|].
    apply elem_of_cons in Hb as [->|Hb]; [by vm_compute|].
    apply elem_of_cons in Hb as [->|Hb]; [by vm_compute|].
    apply list_elem_of_singleton in Hb as ->. by vm_compute. }
  rewrite Hall in Heq. subst out.
  apply StronglySorted_inv in Hsorted as [_ Hfirst].
  apply Forall_cons in Hfirst as [_ Hfirst]. apply Forall_cons in Hfirst as [Hfirst _].
  by vm_compute in Hfirst.
Qed.

(** [sortBy(people, ['a', 'n'], ['desc'])]: by [a] descending, then by
    [n] ascending without regard to case. *)
Lemma sortBy_scenario :
  Data.sortBy (VRef 3) (VRef 4) (VRef 5) sort_heap
  = Ret (VRef 6) (sort_heap ++ [OArr [VRef 1; VRef 0; VRef 2]]).
Proof. vm_compute. reflexivity. Qed.

Lemma sortBy_stable_sort_witness :
  exists out,
    Data.sortBy (VRef 3) (VRef 4) (VRef 5) sort_heap
    = Ret (VRef 6) (sort_heap ++ [OArr out])
    /\ Permutation [VRef 0; VRef 1; VRef 2] out
    /\ StronglySorted
         (fun a b => precedes (compared sort_heap [VStr "a"; VStr "n"] [VStr "desc"]) a b = true)
         out
    /\ filter (fun b => tied (compared sort_heap [VStr "a"; VStr "n"] [VStr "desc"])
                          (VRef 0) b = true) out
       = [VRef 0]
    /\ Data.compare_keys [VStr "n"] [] 0 (VRef 0) (VRef 1) sort_heap = Ret 1%Z sort_heap
    /\ Data.compare_keys [VStr "a"; VStr "n"] [VStr "desc"] 0 (VRef 2) (VRef 0) sort_heap
       = Ret 1%Z sort_heap
    /\ Data.compare_keys [VStr "a"; VStr "n"] [VStr "desc"] 0 (VRef 0) (VRef 1) sort_heap
       = Data.compare_keys [VStr "n"] [VStr "desc"] 1 (VRef 0) (VRef 1) sort_heap.
Proof.
  destruct (sortBy_stable_sort sort_heap 3 [VRef 0; VRef 1; VRef 2] (VRef 4) (VRef 5))
    as (out & Hrun & Hperm & Hsorted & Hstable & Htext & Hnumber & _).
  - reflexivity.
  - apply (bool_decide_unpack (VUndef ∉ [VRef 0; VRef 1; VRef 2])). vm_compute. reflexivity.
  - vm_compute. reflexivity.
  - exists out. split; [exact Hrun|]. split; [exact Hperm|]. split; [exact Hsorted|].
    split; [|split; [|split]].
    + etrans; [apply (Hstable (VRef 0)); apply elem_of_cons; by left|].
      vm_compute. reflexivity.
    + exact (Htext (VStr "n") [] [] 0 (VRef 0) (VRef 1) "Bob" "amy" eq_refl eq_refl).
    + exact (Hnumber (VStr "a") [VStr "n"] [VStr "desc"] 0 (VRef 2) (VRef 0)
               (num_of_nat 25) (num_of_nat 30) eq_refl eq_refl).
    + exact (Hnumber (VStr "a") [VStr "n"] [VStr "desc"] 0 (VRef 0) (VRef 1)
               (num_of_nat 30) (num_of_nat 30) eq_refl eq_refl).
Defined.


(** [groupBy([{t: 'a'}, {t: 'b'}, {t: 'a'}], 't')] is
    [{a: [first, third], b: [second]}]. *)
Lemma groupBy_scenario :
  Data.groupBy (VRef 3) (Data.KeyVal (VStr "t")) group_heap
  = Ret (VRef 4)
      (group_heap ++ [OMap [(KStr "a", VRef 5); (KStr "b", VRef 6)];
                      OArr [VRef 0; VRef 2]; OArr [VRef 1]]).
Proof. vm_compute. reflexivity. Qed.


(** [groupBy([{a: 2}, {}, {a: 1}], 'a')] is [{1: [third], 2: [first],
    undefined: [second]}]: the element without the key is in the group
    ['undefined']. *)
Lemma groupBy_gap_scenario :
  Data.groupBy (VRef 3) (Data.KeyVal (VStr "a")) sort_gap_heap
  = Ret (VRef 4)
      (sort_gap_heap ++ [OMap [(KIdx 1, VRef 7); (KIdx 2, VRef 5); (KStr "undefined", VRef 6)];
                         OArr [VRef 0]; OArr [VRef 1]; OArr [VRef 2]]).
Proof. vm_compute. reflexivity. Qed.

Lemma get_scenario_witness :
  Utils.get (VRef 1) "user.age" (VNum (S754_zero false)) sam_heap
  = Ret (VNum (S754_zero false)) sam_heap
  /\ Utils.get (VStr "Sam") "length" (VNum (S754_zero false)) sam_heap
     = Ret (VNum (S754_zero false)) sam_heap
  /\ Utils.get (VRef 1) "user.name" (VNum (S754_zero false)) sam_heap
     = Ret (VStr "Sam") sam_heap.
Proof.
  split; [|split].
  - apply (proj1 (proj2 (get_default_or_stored sam_heap (VRef 1) "user.age"
                           (VNum (S754_zero false))))).
    vm_compute. reflexivity.
  - apply (proj1 (get_default_or_stored sam_heap (VStr "Sam") "length"
                    (VNum (S754_zero false)))).
    reflexivity.
  - apply (proj2 (proj2 (get_default_or_stored sam_heap (VRef 1) "user.name"
                           (VNum (S754_zero false)))) (VStr "Sam")).
    reflexivity.
Defined.

(** No keyed mapping has the segment [length] of [user.name.length], and
    the result is not the default; and for a stored [undefined], the
    result is the default. *)
Lemma get_counterexample :
  stored sam_heap (VRef 1) (split "." "user.name.length") = None
  /\ Utils.get (VRef 1) "user.name.length" (VNum (S754_zero false)) sam_heap
     = Ret (VNum (num_of_nat 3)) sam_heap
  /\ stored [OMap [(KStr "a", VUndef)]] (VRef 0) (split "." "a") = Some VUndef
  /\ Utils.get (VRef 0) "a" (VNum (S754_zero false)) [OMap [(KStr "a", VUndef)]]
     = Ret (VNum (S754_zero false)) [OMap [(KStr "a", VUndef)]].
Proof. vm_compute. repeat split. Qed.

(** [deepClone({hasOwnProperty: 1, d: new Date(0)})] throws: the own
    property hides the method that the loop calls, and no clone is
    returned. *)
Lemma deepClone_counterexample :
  Utils.deepClone 3 (VRef 1) shadow_date_heap
  = Throw TypeError "hasOwnProperty is not a function" (shadow_date_heap ++ [OMap []]).
Proof. vm_compute. reflexivity. Qed.

Lemma deepClone_shares_nothing_witness :
  exists clone h',
    Utils.deepClone 3 (VRef 2) clone_heap = Ret clone h'
    /\ repr h' clone clone_value
    /\ (forall l, reach h' clone l -> ~ reach h' (VRef 2) l)
    /\ (forall l o, reach h' clone l -> repr (<[l := o]> h') (VRef 2) clone_value).
Proof.
  destruct (deepClone_shares_nothing clone_heap (VRef 2) clone_value 3)
    as (clone & h' & Hrun & Hrepr & _ & _ & Hsep & Hframe).
  - exact clone_value_repr.
  - vm_compute. reflexivity.
  - cbn. lia.
  - exists clone, h'. split; [exact Hrun|]. split; [exact Hrepr|]. split; [exact Hsep|exact Hframe].
Defined.

(** [deepClone] of the scenario, run: the date inside is a new date
    (location 4) with the time of the old one (location 0). *)
Lemma deepClone_scenario :
  Utils.deepClone 3 (VRef 2) clone_heap
  = Ret (VRef 5)
      (clone_heap ++ [ OMap [(KStr "when", VRef 4); (KStr "n", VNum (num_of_nat 1))];
                       ODate (num_of_nat 1000);
                       OArr [VRef 3; VStr "x"] ]).
Proof. vm_compute. reflexivity. Qed.

Lemma flatten_depth_zero_witness :
  Data.flatten 4 (VRef 2) (VNum (S754_zero false)) flatten_heap
  = Ret (VRef 3)
      (flatten_heap ++ [OArr [VNum (num_of_nat 1); VNum (num_of_nat 2); VNum (num_of_nat 3)]]).
Proof.
  apply (proj2 (proj2 flatten_depth_zero_is_unlimited) flatten_heap (VRef 2) flatten_value 4).
  - exact flatten_value_repr.
  - vm_compute. reflexivity.
  - cbn. lia.
Defined.

End Evaluated.
(* ===================================================================== *)
(** * [escapeHtml] and [unescapeHtml] *)
(* ===================================================================== *)

Section Html.

Lemma prefix_head a r c t : a <> c -> String.prefix (String a r) (String c t) = false.
Proof. intros Hne. cbn [String.prefix]. by destruct (Ascii.ascii_dec a c). Qed.

Lemma find_prefix_none (alts : list string) a c t :
  Forall (fun w => exists r, w = String a r) alts -> a <> c ->
  List.find (fun w => String.prefix w (String c t)) alts = None.
Proof.
  intros Hall Hne. induction Hall as [|w alts [r ->] _ IH]; [done|].
  cbn [List.find]. by rewrite prefix_head.
Qed.

Lemma unescape_unit c t :
  c <> "&"%char ->
  replace_words (Utils.htmlUnescapes.*1) (Utils.table_get Utils.htmlUnescapes) 0 (String c t)
  = String c (replace_words (Utils.htmlUnescapes.*1) (Utils.table_get Utils.htmlUnescapes) 0 t).
Proof.
  intros Hc. cbn [replace_words].
  rewrite (find_prefix_none _ "&"%char); [done| |done].
  repeat constructor; eexists; reflexivity.
Qed.

Lemma unescape_entity c e t :
  (c, e) ∈ Utils.htmlEscapes ->
  replace_words (Utils.htmlUnescapes.*1) (Utils.table_get Utils.htmlUnescapes) 0 (e +:+ t)
  = String c (replace_words (Utils.htmlUnescapes.*1) (Utils.table_get Utils.htmlUnescapes) 0 t).
Proof.
  intros Hin. unfold Utils.htmlEscapes in Hin.
  repeat (apply elem_of_cons in Hin as [Hin|Hin];
          [injection Hin as -> ->; destruct t; reflexivity|]).
  by apply elem_of_nil in Hin.
Qed.

Lemma escaped_class_table c :
  Utils.escaped_class c = true -> (c, Utils.table_get Utils.htmlEscapes c) ∈ Utils.htmlEscapes.
Proof.
  unfold Utils.escaped_class. intros Hc. apply bool_decide_eq_true in Hc.
  repeat (apply elem_of_cons in Hc as [->|Hc]; [vm_compute; repeat constructor|]).
  by apply elem_of_nil in Hc.
Qed.

(** [unescapeHtml] undoes [escapeHtml], for every string. *)
Theorem unescapeHtml_escapeHtml (s : string) :
  Utils.unescapeHtml (Utils.escapeHtml (VStr s)) = VStr s.
Proof.
  unfold Utils.unescapeHtml, Utils.escapeHtml. f_equal.
  induction s as [|c s IH]; [reflexivity|].
  cbn [replace_units]. destruct (Utils.escaped_class c) eqn:Hc.
  - rewrite (unescape_entity c) by by apply escaped_class_table. by rewrite IH.
  - rewrite unescape_unit; [by rewrite IH|]. intros ->. by vm_compute in Hc.
Qed.

Lemma units_app s t : units (s +:+ t) = units s ++ units t.
Proof. induction s as [|c s IH]; [done|]. cbn [units]. unfold append; fold append. cbn. by rewrite IH. Qed.

(** What [escapeHtml] returns for a string has none of the units of
    its class but [&]: none of [<], [>], the two quotes, the backtick,
    [=] and [/]; and for a value that is not a string it returns the
    empty string. *)
Theorem escapeHtml_safe (str : val) :
  (typeof str <> TString -> Utils.escapeHtml str = VStr EmptyString)
  /\ exists e, Utils.escapeHtml str = VStr e
       /\ forall c, c ∈ units e -> Utils.escaped_class c = true -> c = "&"%char.
Proof.
  split; [by destruct str|].
  destruct str as [| | | |s|]; try (eexists; split; [reflexivity|]; intros c Hc; by apply elem_of_nil in Hc).
  eexists; split; [reflexivity|].
  induction s as [|c s IH]; [intros c Hc; by apply elem_of_nil in Hc|].
  cbn [replace_units]. destruct (Utils.escaped_class c) eqn:Hc.
  - intros d Hd Hclass. rewrite units_app in Hd. apply elem_of_app in Hd as [Hd|Hd]; [|by apply IH].
    apply escaped_class_table in Hc.
    remember (Utils.table_get Utils.htmlEscapes c) as e eqn:He. clear He.
    unfold Utils.htmlEscapes in Hc.
    repeat (apply elem_of_cons in Hc as [Hc|Hc];
      [injection Hc as -> ->; cbn [units] in Hd;
       repeat (apply elem_of_cons in Hd as [->|Hd]; [by vm_compute in Hclass|]);
       by apply elem_of_nil in Hd|]).
    by apply elem_of_nil in Hc.
  - intros d Hd Hclass. cbn [units] in Hd. apply elem_of_cons in Hd as [->|Hd]; [congruence|by apply IH].
Qed.
End Html.

(* ===================================================================== *)
(** * [unique] and [compact] *)
(* ===================================================================== *)

Section Filters.

Lemma filter_from_pure (callback : val -> nat -> M val) (w : val -> nat -> val)
    array items h :
  array_items array h = Ret items h ->
  (forall x k, callback x k h = Ret (w x k) h) ->
  forall n k,
    filter_from callback array k n h
    = Ret (keep_from (fun x k => truthy (w x k)) (take n (drop k items)) k) h.
Proof.
  intros Hitems Hcb. induction n as [|n IH]; intros k; cbn [filter_from].
  - by rewrite take_0.
  - rewrite (bind_Ret _ _ _ _ _ Hitems).
    destruct (items !! k) as [x|] eqn:Hk.
    + rewrite (drop_S _ _ _ Hk). cbn [take keep_from].
      rewrite (bind_Ret _ _ _ _ _ (Hcb x k)), (bind_Ret _ _ _ _ _ (IH (S k))).
      reflexivity.
    + rewrite IH. apply lookup_ge_None in Hk.
      rewrite !drop_ge by lia. by rewrite !take_nil.
Qed.

Lemma run_array_filter (callback : val -> nat -> M val) (w : val -> nat -> val) h l items :
  h !! l = Some (OArr items) ->
  (forall x k, callback x k h = Ret (w x k) h) ->
  array_filter callback (VRef l) h
  = Ret (VRef (length h)) (h ++ [OArr (keep_from (fun x k => truthy (w x k)) items 0)]).
Proof.
  intros Hl Hcb. unfold array_filter.
  rewrite (bind_Ret _ _ _ _ _ (run_array_items _ _ _ Hl)).
  rewrite (bind_Ret _ _ _ _ _
             (filter_from_pure callback w _ _ _ (run_array_items _ _ _ Hl) Hcb _ 0)).
  by rewrite drop_0, firstn_all.
Qed.

Lemma keep_from_filter (g : val -> bool) items k :
  keep_from (fun x _ => g x) items k = List.filter g items.
Proof.
  revert k. induction items as [|x items IH]; intros k; cbn [keep_from List.filter]; [done|].
  by rewrite IH.
Qed.

Lemma keep_from_ext g g' items k :
  (forall x k, g x k = g' x k) -> keep_from g items k = keep_from g' items k.
Proof.
  intros Hg. revert k. induction items as [|x items IH]; intros k; cbn [keep_from]; [done|].
  by rewrite Hg, IH.
Qed.

Lemma keep_from_sublist g items k : sublist (keep_from g items k) items.
Proof.
  revert k. induction items as [|x items IH]; intros k; cbn [keep_from]; [constructor|].
  destruct (g x k); by constructor.
Qed.

Lemma elem_of_keep_from g items k y :
  y ∈ keep_from g items k <-> exists i, items !! i = Some y /\ g y (k + i) = true.
Proof.
  revert k. induction items as [|x items IH]; intros k; cbn [keep_from].
  - split; [by intros ?%elem_of_nil|by intros (i & ? & _)].
  - assert (Hrest : y ∈ keep_from g items (S k)
                    <-> exists i, (x :: items) !! S i = Some y /\ g y (k + S i) = true).
    { rewrite IH. by setoid_rewrite Nat.add_succ_r. }
    destruct (g x k) eqn:Hg.
    + rewrite elem_of_cons, Hrest. split.
      * intros [->|(i & Hi & Hgi)]; [exists 0; by rewrite Nat.add_0_r|by exists (S i)].
      * intros ([|i] & Hi & Hgi); [left; by injection Hi|right; by exists i].
    + rewrite Hrest. split.
      * intros (i & Hi & Hgi). by exists (S i).
      * intros ([|i] & Hi & Hgi); [|by exists i].
        injection Hi as ->. rewrite Nat.add_0_r in Hgi. congruence.
Qed.

(** ** [indexOf] *)

Lemma index_of_Some x items i :
  index_of x items = Some i
  <-> (exists y, items !! i = Some y /\ strict_eq y x = true)
      /\ forall j y, j < i -> items !! j = Some y -> strict_eq y x = false.
Proof.
  revert i. induction items as [|z items IH]; intros i; cbn [index_of].
  - split; [done|]. by intros [(y & Hy & _) _].
  - destruct (strict_eq z x) eqn:Hz.
    + split.
      * intros [= <-]. split; [by exists z|]. intros j y Hj. lia.
      * intros [(y & Hy & Hyx) Hfirst]. destruct i as [|i]; [done|].
        specialize (Hfirst 0 z). cbn in Hfirst. rewrite Hfirst in Hz; [done|lia|done].
    + rewrite fmap_Some. split.
      * intros (i' & Hi' & ->). apply IH in Hi' as [Hy Hfirst]. split; [done|].
        intros [|j] y Hj Hjy; [by injection Hjy as <-|].
        apply (Hfirst j); [lia|done].
      * intros [(y & Hy & Hyx) Hfirst]. destruct i as [|i]; [cbn in Hy; congruence|].
        exists i. split; [|done]. apply IH. split; [by exists y|].
        intros j y' Hj Hjy. apply (Hfirst (S j)); [lia|done].
Qed.

Lemma index_of_None x items :
  index_of x items = None <-> forall y, y ∈ items -> strict_eq y x = false.
Proof.
  induction items as [|z items IH]; cbn [index_of].
  - split; [by intros _ y ?%elem_of_nil|done].
  - destruct (strict_eq z x) eqn:Hz.
    + split; [done|]. intros Hall. rewrite Hall in Hz; [done|by left].
    + rewrite fmap_None, IH. split.
      * intros Hall y [->|Hy]%elem_of_cons; [done|]. by apply Hall.
      * intros Hall y Hy. apply Hall. by right.
Qed.

Lemma num_eqb_trans x y z : num_eqb x y = true -> num_eqb y z = true -> num_eqb x z = true.
Proof.
  unfold num_eqb, SFeqb.
  destruct x as [sx|sx| |sx mx ex], y as [sy|sy| |sy my ey], z as [sz|sz| |sz mz ez];
    cbn; try done; try (by destruct sx, sy, sz); try (by destruct sx, sy).
  destruct sx, sy, sz; try done;
    destruct (ex ?= ey)%Z eqn:He1; try done;
    destruct (ey ?= ez)%Z eqn:He2; try done;
    apply Z.compare_eq in He1, He2; subst; rewrite Z.compare_refl;
    destruct (Pos.compare_cont Eq mx my) eqn:Hm1; try done;
    destruct (Pos.compare_cont Eq my mz) eqn:Hm2; try done;
    apply Pos.compare_eq in Hm1, Hm2; subst; by rewrite Pos.compare_cont_refl.
Qed.

Lemma strict_eq_trans a b c :
  strict_eq a b = true -> strict_eq b c = true -> strict_eq a c = true.
Proof.
  destruct a, b, c; cbn; try done.
  - by destruct b, b0, b1.
  - apply num_eqb_trans.
  - intros ->%String.eqb_eq ->%String.eqb_eq. apply String.eqb_refl.
  - intros ->%Nat.eqb_eq ->%Nat.eqb_eq. apply Nat.eqb_refl.
Qed.


Lemma StronglySorted_lookup {A} (R : A -> A -> Prop) l i j a b :
  StronglySorted R l -> i < j -> l !! i = Some a -> l !! j = Some b -> R a b.
Proof.
  intros Hs. revert i j. induction Hs as [|x l Hs IH Hall]; intros i j Hij Hi Hj; [done|].
  destruct j as [|j]; [lia|]. destruct i as [|i].
  - injection Hi as ->. rewrite Forall_forall in Hall. apply Hall.
    by eapply list_elem_of_lookup_2.
  - apply (IH i j); [lia|done|done].
Qed.

Lemma keep_from_all g l k :
  (forall i x, l !! i = Some x -> g x (k + i) = true) -> keep_from g l k = l.
Proof.
  revert k. induction l as [|x l IH]; intros k Hall; cbn [keep_from]; [done|].
  rewrite (IH (S k)).
  - specialize (Hall 0 x eq_refl). rewrite Nat.add_0_r in Hall. by rewrite Hall.
  - intros i y Hi. specialize (Hall (S i) y Hi). by rewrite Nat.add_succ_r in Hall.
Qed.

(** The test of [unique]'s filter: the element is at the index
    [indexOf] finds for it. *)
Lemma first_sorted items l k :
  (forall i x, l !! i = Some x -> items !! (k + i) = Some x) ->
  StronglySorted (fun y z => strict_eq y z = false)
    (keep_from (fun x k => bool_decide (index_of x items = Some k)) l k).
Proof.
  revert k. induction l as [|x l IH]; intros k Hl; cbn [keep_from]; [constructor|].
  assert (Hrest : forall i y, l !! i = Some y -> items !! (S k + i) = Some y).
  { intros i y Hi. specialize (Hl (S i) y Hi). by rewrite Nat.add_succ_r in Hl. }
  destruct (bool_decide (index_of x items = Some k)) eqn:Hx; [|by apply IH].
  constructor; [by apply IH|].
  rewrite Forall_forall. intros z Hz.
  apply elem_of_keep_from in Hz as (i & Hi & Hg). apply bool_decide_eq_true in Hg.
  apply index_of_Some in Hg as [_ Hfirst]. apply (Hfirst k); [lia|].
  specialize (Hl 0 x eq_refl). by rewrite Nat.add_0_r in Hl.
Qed.

Lemma run_unique_test items x k :
  truthy (VBool match index_of x items with Some i => i =? k | None => false end)
  = bool_decide (index_of x items = Some k).
Proof.
  cbn [truthy]. destruct (index_of x items) as [i|]; [|done].
  destruct (Nat.eqb_spec i k) as [->|Hne]; [by rewrite bool_decide_eq_true_2|].
  rewrite bool_decide_eq_false_2; [done|congruence].
Qed.

Lemma run_unique h la items :
  h !! la = Some (OArr items) ->
  Utils.unique (VRef la) h
  = Ret (VRef (length h))
      (h ++ [OArr (keep_from (fun x k => bool_decide (index_of x items = Some k)) items 0)]).
Proof.
  intros Hla. unfold Utils.unique. mstep. erewrite is_array_seq by done. cbn [negb].
  erewrite (run_array_filter _ (fun x k => VBool match index_of x items with
                                                  | Some i => i =? k | None => false end))
    by (try done; intros x k; by rewrite (bind_Ret _ _ _ _ _ (run_array_items _ _ _ Hla))).
  do 3 f_equal. f_equal. apply keep_from_ext. intros x k. apply run_unique_test.
Qed.

Lemma keep_from_lookup_lt g items k i j a b :
  i < j ->
  keep_from g items k !! i = Some a -> keep_from g items k !! j = Some b ->
  exists i' j', i' < j' /\ g a (k + i') = true /\ g b (k + j') = true.
Proof.
  revert k i j. induction items as [|x items IH]; intros k i j Hij; cbn [keep_from]; [done|].
  assert (Hrest : keep_from g items (S k) !! i = Some a ->
                  keep_from g items (S k) !! j = Some b ->
                  exists i' j', i' < j' /\ g a (k + i') = true /\ g b (k + j') = true).
  { intros Hi Hj. destruct (IH (S k) i j Hij Hi Hj) as (i' & j' & Hlt & Ha & Hb).
    exists (S i'), (S j'). rewrite !Nat.add_succ_r. split; [lia|done]. }
  destruct (g x k) eqn:Hx; [|done].
  destruct j as [|j]; [lia|]. destruct i as [|i].
  - intros [= <-] Hj.
    assert (Hb : b ∈ keep_from g items (S k)) by by eapply list_elem_of_lookup_2.
    apply elem_of_keep_from in Hb as (j' & _ & Hb).
    exists 0, (S j'). rewrite Nat.add_0_r, Nat.add_succ_r. split; [lia|done].
  - intros Hi Hj. destruct (IH (S k) i j ltac:(lia) Hi Hj) as (i' & j' & Hlt & Ha & Hb).
    exists (S i'), (S j'). rewrite !Nat.add_succ_r. split; [lia|done].
Qed.

(** [unique(array)] returns a new array with the elements of [array]
    that stand at the first index [indexOf] finds for them, in the order
    of these indices: the first occurrence of every element but [NaN],
    which [indexOf] never finds, and no two elements [===]. It leaves
    [array] as it is; for a value that is not an array it returns a new
    empty array. *)
Theorem unique_first_occurrences (h : heap) :
  (forall v, is_array h v = false ->
     Utils.unique v h = Ret (VRef (length h)) (h ++ [OArr []]))
  /\ (forall la items, h !! la = Some (OArr items) ->
        exists out,
          Utils.unique (VRef la) h = Ret (VRef (length h)) (h ++ [OArr out])
          /\ out = keep_from (fun x i => bool_decide (index_of x items = Some i)) items 0
          /\ sublist out items
          /\ (forall y, y ∈ out ->
                exists i, index_of y items = Some i /\ items !! i = Some y)
          /\ (forall i j a b, i < j -> out !! i = Some a -> out !! j = Some b ->
                exists i' j', index_of a items = Some i' /\ index_of b items = Some j'
                              /\ i' < j')
          /\ StronglySorted (fun y z => strict_eq y z = false) out
          /\ (forall x, x ∈ items -> strict_eq x x = true ->
                exists y, y ∈ out /\ strict_eq y x = true)).
Proof.
  split.
  - intros v Hv. unfold Utils.unique. mstep. by rewrite Hv.
  - intros la items Hla. eexists. split; [by apply run_unique|]. split; [done|].
    split; [apply keep_from_sublist|]. split; [|split; [|split]].
    + intros y (i & Hi & Hg)%elem_of_keep_from. apply bool_decide_eq_true in Hg. by exists i.
    + intros i j a b Hij Hi Hj.
      destruct (keep_from_lookup_lt _ _ _ _ _ _ _ Hij Hi Hj) as (i' & j' & Hlt & Ha & Hb).
      apply bool_decide_eq_true in Ha, Hb. by exists i', j'.
    + apply first_sorted. by intros i x Hi.
    + intros x Hx Hxx.
      destruct (index_of x items) as [i0|] eqn:Hi0.
      * apply index_of_Some in Hi0 as [(y & Hy & Hyx) Hfirst].
        exists y. split; [|done]. apply elem_of_keep_from. exists i0. split; [done|].
        apply bool_decide_eq_true. apply index_of_Some. split.
        -- exists y. split; [done|]. apply (strict_eq_trans _ x); [done|].
           by rewrite strict_eq_sym.
        -- intros j y' Hj Hy'. destruct (strict_eq y' y) eqn:Hyy; [|done].
           rewrite <- (Hfirst j y' Hj Hy'). symmetry. by apply (strict_eq_trans _ y).
      * rewrite index_of_None in Hi0. by rewrite (Hi0 x Hx) in Hxx.
Qed.

(** [unique] of what [unique] returned has the same elements. *)
Theorem unique_idempotent h la items (Hla : h !! la = Some (OArr items)) :
  exists out,
    Utils.unique (VRef la) h = Ret (VRef (length h)) (h ++ [OArr out])
    /\ (u <- Utils.unique (VRef la) ;; Utils.unique u) h
       = Ret (VRef (S (length h))) (h ++ [OArr out; OArr out]).
Proof.
  eexists. split; [by apply run_unique|].
  rewrite (bind_Ret _ _ _ _ _ (run_unique _ _ _ Hla)).
  set (out := keep_from _ items 0).
  rewrite (run_unique _ (length h) out) by (by rewrite lookup_app_r, Nat.sub_diag by lia).
  rewrite length_app, Nat.add_comm. cbn [length Nat.add]. rewrite <- app_assoc. cbn [app].
  do 4 f_equal. f_equal. apply keep_from_all. intros k y Hk. cbn [Nat.add].
  apply bool_decide_eq_true. apply index_of_Some.
  assert (Hself : strict_eq y y = true).
  { assert (Hy : y ∈ out) by by eapply list_elem_of_lookup_2.
    apply elem_of_keep_from in Hy as (i & Hi & Hg). apply bool_decide_eq_true in Hg.
    cbn [Nat.add] in Hg. apply index_of_Some in Hg as [(y' & Hy' & Hyy) _]. congruence. }
  split; [by exists y|].
  intros j y' Hj Hy'.
  apply (StronglySorted_lookup (fun y z => strict_eq y z = false) out j k); [|done|done|done].
  apply first_sorted. by intros i x Hi.
Qed.

Lemma compact_test x :
  truthy (VBool (negb (strict_eq x VNull) && negb (strict_eq x VUndef)
                 && negb (strict_eq x (VBool false))
                 && negb (strict_eq x (VNum (S754_zero false)))
                 && negb (strict_eq x (VStr EmptyString))))
  = bool_decide (truthy x = true \/ x = VNum NaN).
Proof.
  assert (Hyes : forall P : Prop, forall `{Decision P}, P -> true = bool_decide P)
    by (intros; symmetry; by apply bool_decide_eq_true_2).
  assert (Hno : forall P : Prop, forall `{Decision P}, ~ P -> false = bool_decide P)
    by (intros; symmetry; by apply bool_decide_eq_false_2).
  destruct x as [| |[]|[[]|[]| |[] m e]|[|c s]|l]; cbn;
    first [ apply Hyes; (by left) || (by right) | apply Hno; intros [?|?]; done ].
Qed.

(** [compact(array)] returns a new array with the elements of [array]
    that are truthy or [NaN], in order. *)
Theorem compact_keeps_truthy_and_NaN (h : heap) :
  (forall v, is_array h v = false ->
     Utils.compact v h = Ret (VRef (length h)) (h ++ [OArr []]))
  /\ (forall la items, h !! la = Some (OArr items) ->
        Utils.compact (VRef la) h
        = Ret (VRef (length h))
            (h ++ [OArr (filter (fun v => truthy v = true \/ v = VNum NaN) items)])).
Proof.
  split.
  - intros v Hv. unfold Utils.compact. mstep. by rewrite Hv.
  - intros la items Hla. unfold Utils.compact. mstep. erewrite is_array_seq by done.
    cbn [negb]. erewrite run_array_filter by (try done; intros x k; reflexivity).
    do 3 f_equal. f_equal. clear Hla. generalize 0.
    induction items as [|x l IH]; intros k; cbn [keep_from]; [done|].
    rewrite filter_cons, IH, compact_test.
    destruct (decide (truthy x = true \/ x = VNum NaN));
      [by rewrite bool_decide_eq_true_2|by rewrite bool_decide_eq_false_2].
Qed.

End Filters.

(* ===================================================================== *)
(** * [chunk] *)
(* ===================================================================== *)

Section Chunks.

Lemma slice_items_take items (i n : nat) :
  slice_items items (Z.of_nat i) (Z.of_nat i + Z.of_nat n) = take n (drop i items).
Proof.
  unfold slice_items, slice_bound.
  destruct (Z.ltb_spec (Z.of_nat i) 0) as [|_]; [lia|].
  destruct (Z.ltb_spec (Z.of_nat i + Z.of_nat n) 0) as [|_]; [lia|].
  rewrite Nat2Z.id, <- Nat2Z.inj_add, Nat2Z.id.
  destruct (Nat.le_gt_cases i (length items)) as [Hi|Hi].
  - rewrite (Nat.min_l i) by done.
    destruct (Nat.le_gt_cases (i + n) (length items)) as [Hn|Hn].
    + rewrite Nat.min_l by done. f_equal. lia.
    + rewrite Nat.min_r by lia. rewrite !take_ge; [done| |]; rewrite length_drop; lia.
  - rewrite !drop_ge by lia. by rewrite !take_nil.
Qed.

Lemma chunks_of_concat fuel n l :
  0 < n -> length l <= fuel -> concat (chunks_of fuel n l) = l.
Proof.
  intros Hn. revert l. induction fuel as [|fuel IH]; intros l Hl.
  - destruct l; [done|cbn in Hl; lia].
  - destruct l as [|x l]; [done|]. cbn [chunks_of concat].
    rewrite IH; [apply take_drop|]. rewrite length_drop. cbn [length] in *. lia.
Qed.

Lemma chunks_of_lengths fuel n l :
  0 < n -> Forall (fun c => 0 < length c <= n) (chunks_of fuel n l).
Proof.
  intros Hn. revert l. induction fuel as [|fuel IH]; intros l; [constructor|].
  destruct l as [|x l]; [constructor|]. cbn [chunks_of]. constructor; [|apply IH].
  rewrite length_take. cbn [length]. lia.
Qed.

Lemma chunks_of_full fuel n l i c :
  0 < n -> length l <= fuel ->
  chunks_of fuel n l !! i = Some c -> S i < length (chunks_of fuel n l) -> length c = n.
Proof.
  intros Hn. revert l i c. induction fuel as [|fuel IH]; intros l i c Hl; [done|].
  destruct l as [|x l]; [done|]. cbn [chunks_of]. destruct i as [|i]; cbn [lookup list_lookup length].
  - intros [= <-] Hlen. rewrite length_take.
    destruct (drop n (x :: l)) as [|y r] eqn:Hd.
    + destruct fuel; cbn in Hlen; lia.
    + assert (Hr : length (drop n (x :: l)) = S (length r)) by by rewrite Hd.
      rewrite length_drop in Hr. cbn [length] in *. apply Nat.min_l. lia.
  - intros Hi Hlen. apply (IH (drop n (x :: l)) i c); [|done|lia].
    rewrite length_drop. cbn [length] in *. lia.
Qed.

Lemma chunk_loop_run n la lc items :
  0 < n -> la <> lc ->
  forall fuel i acc H,
    H !! la = Some (OArr items) -> H !! lc = Some (OArr acc) ->
    length items - i < fuel ->
    Utils.chunk_loop fuel (VRef la) (VRef lc) (Z.of_nat n) (Z.of_nat i) H
    = Ret tt (<[lc := OArr (acc ++ (VRef <$> seq (length H)
                                      (length (chunks_of fuel n (drop i items)))))]> H
              ++ (OArr <$> chunks_of fuel n (drop i items))).
Proof.
  intros Hn Hne. induction fuel as [|fuel IH]; intros i acc H Hla Hlc Hfuel; [lia|].
  cbn [Utils.chunk_loop]. rewrite (bind_Ret _ _ _ _ _ (run_array_items _ _ _ Hla)).
  cbv beta.
  destruct (Z.ltb_spec (Z.of_nat i) (Z.of_nat (length items))) as [Hi|Hi].
  - rewrite (bind_Ret _ _ _ _ _ (run_alloc _ _)).
    assert (Hlc' : (H ++ [OArr (slice_items items (Z.of_nat i) (Z.of_nat i + Z.of_nat n))]) !! lc
                   = Some (OArr acc)).
    { rewrite lookup_app_l; [done|]. by eapply lookup_lt_Some. }
    rewrite (bind_Ret _ _ _ _ _ (run_push _ _ _ _ Hlc')). cbv beta.
    rewrite <- Nat2Z.inj_add, Nat2Z.inj_add, slice_items_take, <- Nat2Z.inj_add.
    assert (Hlt : lc < length H) by by eapply lookup_lt_Some.
    rewrite (IH (i + n) (acc ++ [VRef (length H)])).
    + destruct (drop i items) as [|x r] eqn:Hd.
      { assert (Hr : length (drop i items) = 0) by by rewrite Hd.
        rewrite length_drop in Hr. lia. }
      cbn [chunks_of]. rewrite <- Hd, drop_drop.
      set (cs := chunks_of fuel n (drop (i + n) items)).
      rewrite list_insert_insert_eq, length_insert, length_app, Nat.add_1_r.
      rewrite insert_app_l by done. cbn [length seq fmap list_fmap].
      rewrite <- !app_assoc. cbn [app]. done.
    + rewrite list_lookup_insert_ne by done. rewrite lookup_app_l; [done|].
      by eapply lookup_lt_Some.
    + rewrite list_lookup_insert_eq; [done|]. rewrite length_app. lia.
    + lia.
  - rewrite drop_ge by lia. destruct fuel; cbn [chunks_of length seq fmap list_fmap];
      rewrite !app_nil_r; by rewrite list_insert_id.
Qed.


Lemma chunk_loop_back la lc items size :
  (size < 0)%Z -> la <> lc -> items <> [] ->
  forall fuel i acc H,
    (i <= 0)%Z ->
    H !! la = Some (OArr items) -> H !! lc = Some (OArr acc) ->
    Utils.chunk_loop fuel (VRef la) (VRef lc) size i H = OutOfFuel.
Proof.
  intros Hsize Hne Hitems. induction fuel as [|fuel IH]; intros i acc H Hi Hla Hlc; [done|].
  cbn [Utils.chunk_loop]. rewrite (bind_Ret _ _ _ _ _ (run_array_items _ _ _ Hla)).
  cbv beta.
  destruct (Z.ltb_spec i (Z.of_nat (length items))) as [_|Hge].
  - rewrite (bind_Ret _ _ _ _ _ (run_alloc _ _)).
    assert (Hlt : lc < length H) by by eapply lookup_lt_Some.
    assert (Hlc' : (H ++ [OArr (slice_items items i (i + size))]) !! lc = Some (OArr acc))
      by by rewrite lookup_app_l.
    rewrite (bind_Ret _ _ _ _ _ (run_push _ _ _ _ Hlc')). cbv beta.
    apply (IH _ (acc ++ [VRef (length H)])); [lia| |].
    + rewrite list_lookup_insert_ne by done. rewrite lookup_app_l; [done|].
      by eapply lookup_lt_Some.
    + rewrite list_lookup_insert_eq; [done|]. rewrite length_app. lia.
  - destruct items; [done|]. cbn [length] in Hge. lia.
Qed.

(** [chunk(array, size)] with a positive integer [size], or a falsy one
    (taken as 1): a new array of new arrays that, one after the other,
    hold the elements of [array]; every piece has [size] elements but
    the last, which has between 1 and [size]. For a value that is not an
    array the result is a new empty array. *)
Theorem chunk_pieces (h : heap) :
  (forall fuel v size, is_array h v = false ->
     Utils.chunk fuel v size h = Ret (VRef (length h)) (h ++ [OArr []]))
  /\ (forall fuel la items size n,
        h !! la = Some (OArr items) ->
        (truthy size = false /\ n = 1)
        \/ (exists x, size = VNum x /\ num_to_Z x = Some (Z.of_nat n) /\ 0 < n) ->
        length items < fuel ->
        exists cs,
          Utils.chunk fuel (VRef la) size h
          = Ret (VRef (length h))
              (h ++ OArr (VRef <$> seq (S (length h)) (length cs)) :: (OArr <$> cs))
          /\ concat cs = items
          /\ Forall (fun c => 0 < length c <= n) cs
          /\ (forall i c, cs !! i = Some c -> S i < length cs -> length c = n)).
Proof.
  split.
  - intros fuel v size Hv. unfold Utils.chunk. mstep. by rewrite Hv.
  - intros fuel la items size n Hla Hsize Hfuel.
    assert (Hn : 0 < n) by (destruct Hsize as [[_ ->]|(x & _ & _ & Hn)]; [lia|done]).
    exists (chunks_of fuel n items). split; [|split; [|split]].
    + unfold Utils.chunk. mstep. erewrite is_array_seq by done. cbn [negb].
      assert (Hz : match (if truthy size then size else VNum (num_of_nat 1)) with
                   | VNum x => num_to_Z x = Some (Z.of_nat n)
                   | _ => False
                   end).
      { destruct Hsize as [[-> ->]|(x & -> & Hx & _)]; [reflexivity|].
        destruct x as [s|s| |s m e]; try done. cbn in Hx. injection Hx as Hx. lia. }
      destruct (if truthy size then size else VNum (num_of_nat 1)) as [| | |x| |]; try done.
      rewrite Hz. rewrite (bind_Ret _ _ _ _ _ (run_alloc _ _)).
      assert (Hlt : la < length h) by by eapply lookup_lt_Some.
      change 0%Z with (Z.of_nat 0).
      rewrite (bind_Ret _ _ _ tt _ (chunk_loop_run n la (length h) items Hn
                 ltac:(lia) fuel 0 [] (h ++ [OArr []]) ltac:(by rewrite lookup_app_l)
                 ltac:(by rewrite lookup_app_r, Nat.sub_diag by lia) ltac:(lia))).
      rewrite drop_0, length_app, Nat.add_1_r. cbn [app length].
      rewrite insert_app_r_alt, Nat.sub_diag by lia. cbn [insert list_insert].
      by rewrite <- app_assoc.
    + apply chunks_of_concat; [done|lia].
    + by apply chunks_of_lengths.
    + intros i c. apply chunks_of_full; [done|lia].
Qed.

(** [chunk(array, size)] with a negative integer [size] never returns,
    for an array that is not empty: the index only goes down. *)
Theorem chunk_negative_size_never_returns fuel h la items x p
    (Hla : h !! la = Some (OArr items)) (Hitems : items <> [])
    (Hx : num_to_Z x = Some (Z.neg p)) :
  Utils.chunk fuel (VRef la) (VNum x) h = OutOfFuel.
Proof.
  unfold Utils.chunk. mstep. erewrite is_array_seq by done. cbn [negb].
  assert (Ht : truthy (VNum x) = true) by (by destruct x as [s|s| |s m e]).
  rewrite Ht, Hx. rewrite (bind_Ret _ _ _ _ _ (run_alloc _ _)).
  assert (Hlt : la < length h) by by eapply lookup_lt_Some.
  unfold bind.
  rewrite (chunk_loop_back la (length h) items (Z.neg p) ltac:(lia) ltac:(lia) Hitems
             fuel 0 [] (h ++ [OArr []]) ltac:(lia)); [done| |].
  - by rewrite lookup_app_l.
  - by rewrite lookup_app_r, Nat.sub_diag by lia.
Qed.

End Chunks.

(* ===================================================================== *)
(** * [pick] and [omit] *)
(* ===================================================================== *)

Section Objects.
Context `{Host}.

Lemma ordered_keys_sublist (ks1 ks2 : list key) :
  sublist ks1 ks2 -> ordered_keys ks2 = true -> ordered_keys ks1 = true.
Proof.
  induction 1 as [|k ks1 ks2 Hsub IH|k ks1 ks2 Hsub IH]; cbn [ordered_keys]; [done| |].
  - rewrite !andb_true_iff, !forallb_forall. intros [Hk Hord]. split; [|auto].
    intros k' Hk'. apply Hk. apply list_elem_of_In. apply list_elem_of_In in Hk'.
    by eapply elem_of_sublist.
  - rewrite andb_true_iff. intros [_ Hord]. auto.
Qed.

Lemma select_fields_sublist g (props : list (key * val)) :
  sublist (select_fields g props).*1 props.*1.
Proof.
  unfold select_fields. induction props as [|[k v] props IH]; cbn [omap list_omap fmap list_fmap fst snd];
    [constructor|].
  destruct (g k v); cbn [fmap option_fmap option_map list_fmap fst]; by constructor.
Qed.

Lemma select_fields_app g (props1 props2 : list (key * val)) :
  select_fields g (props1 ++ props2) = select_fields g props1 ++ select_fields g props2.
Proof. unfold select_fields. apply omap_app. Qed.

(** A loop over the own keys of a mapping that puts fields into the
    mapping at [lr]. *)
Lemma fields_loop (lr : nat) (props : list (key * val)) g (body : key -> M unit) (J : heap -> Prop) :
  ordered_keys props.*1 = true ->
  forallb plain_key props.*1 = true ->
  (forall H o, J H -> J (<[lr := o]> H)) ->
  (forall k v H, prop_lookup k props = Some v -> J H ->
     body k H = match g k v with
                | Some y => set_prop (VRef lr) k y H
                | None => Ret tt H
                end) ->
  forall todo done_ H,
    props = done_ ++ todo -> J H ->
    H !! lr = Some (OMap (select_fields g done_)) ->
    forM todo.*1 body H = Ret tt (<[lr := OMap (select_fields g props)]> H).
Proof.
  intros Hord Hplain HJ Hbody.
  induction todo as [|[k v] todo IH]; intros done_ H0 Hprops HJ0 Hlr.
  - rewrite app_nil_r in Hprops. subst done_. by rewrite list_insert_id.
  - cbn [fmap list_fmap forM fst].
    assert (Hlook : prop_lookup k props = Some v).
    { apply prop_lookup_NoDup; [by apply ordered_keys_NoDup|].
      rewrite Hprops. apply elem_of_app. right. left. }
    assert (Hdone : props = (done_ ++ [(k, v)]) ++ todo) by by rewrite <- app_assoc.
    rewrite (bind_Ret _ _ _ tt
               (match g k v with
                | Some y => <[lr := OMap (select_fields g (done_ ++ [(k, v)]))]> H0
                | None => H0
                end)).
    + destruct (g k v) as [y|] eqn:Hg.
      * rewrite (IH (done_ ++ [(k, v)])); [by rewrite list_insert_insert_eq|done|by apply HJ|].
        rewrite list_lookup_insert_eq; [done|]. by eapply lookup_lt_Some.
      * apply (IH (done_ ++ [(k, v)])); [done|done|].
        rewrite select_fields_app. unfold select_fields at 2. cbn. rewrite Hg. cbn.
        by rewrite app_nil_r.
    + rewrite (Hbody k v H0 Hlook HJ0). destruct (g k v) as [y|] eqn:Hg; [|done].
      assert (Hnew : prop_lookup k (select_fields g done_) = None).
      { apply prop_lookup_None. intros Hin.
        pose proof (select_fields_sublist g done_) as Hsub.
        apply (fun Hin => elem_of_sublist _ _ _ Hin Hsub) in Hin.
        apply ordered_keys_NoDup in Hord. rewrite Hprops, fmap_app, fmap_cons in Hord.
        apply NoDup_app in Hord as (_ & Hdisj & _). apply (Hdisj _ Hin). left. }
      assert (Hinh : inherited ObjectProto k = false).
      { rewrite forallb_forall in Hplain. specialize (Hplain k).
        unfold plain_key in Hplain. destruct (inherited ObjectProto k); [|done].
        discriminate Hplain. apply list_elem_of_In. rewrite Hprops, fmap_app, fmap_cons.
        apply elem_of_app. right. left. }
      rewrite (run_set_prop_new _ _ _ _ _ Hlr Hnew Hinh).
      rewrite prop_insert_last.
      * rewrite select_fields_app. unfold select_fields at 3. cbn. by rewrite Hg.
      * apply (ordered_keys_sublist _ (done_.*1 ++ [k])).
        -- apply sublist_app; [apply select_fields_sublist|done].
        -- rewrite Hprops, fmap_app, fmap_cons in Hord. by eapply ordered_keys_prefix.
Qed.


Lemma select_fields_filter (P : key * val -> Prop) `{forall p, Decision (P p)}
    (props : list (key * val)) :
  select_fields (fun k v => if bool_decide (P (k, v)) then Some v else None) props
  = filter P props.
Proof.
  unfold select_fields. induction props as [|[k v] props IH]; [done|].
  cbn [omap list_omap fst snd]. rewrite filter_cons, IH.
  destruct (decide (P (k, v))) as [HP|HP].
  - by rewrite bool_decide_eq_true_2.
  - by rewrite bool_decide_eq_false_2.
Qed.

Lemma run_omit h lo props keys lk ks h1 :
  h !! lo = Some (OMap props) ->
  ordered_keys props.*1 = true ->
  forallb plain_key props.*1 = true ->
  (if is_array h keys then h1 = h /\ keys = VRef lk else h1 = h ++ [OArr [keys]] /\ lk = length h) ->
  h1 !! lk = Some (OArr ks) ->
  Utils.omit (VRef lo) keys h
  = Ret (VRef (length h1))
      (h1 ++ [OMap (filter (fun p => index_of (VStr (key_name p.1)) ks = None) props)]).
Proof.
  intros Hlo Hord Hplain Hkeys Hlk. unfold Utils.omit.
  mstep. msimp. mstep.
  assert (Hlo1 : h1 !! lo = Some (OMap props)).
  { destruct (is_array h keys); destruct Hkeys as [-> ?]; [done|]. by apply lookup_app_l_Some. }
  assert (Hwrap : (if negb (is_array h keys) then alloc (OArr [keys]) else ret keys) h
                  = Ret (VRef lk) h1).
  { destruct (is_array h keys); destruct Hkeys as [-> ->]; reflexivity. }
  rewrite (bind_Ret _ _ _ _ _ Hwrap). mstep.
  assert (Hlo2 : (h1 ++ [OMap []]) !! lo = Some (OMap props)) by by apply lookup_app_l_Some.
  assert (Hlk2 : (h1 ++ [OMap []]) !! lk = Some (OArr ks)) by by apply lookup_app_l_Some.
  rewrite (bind_Ret _ _ _ _ _ (run_object_keys _ _ _ Hlo2)). cbn [own_keys].
  set (g := fun (k : key) (v : val) =>
              if bool_decide (index_of (VStr (key_name k)) ks = None) then Some v else None).
  match goal with |- context [forM _ ?body] =>
    assert (Hloop : forM props.*1 body (h1 ++ [OMap []])
                    = Ret tt (<[length h1 := OMap (select_fields g props)]> (h1 ++ [OMap []])))
  end.
  { apply (fields_loop (length h1) props g _
             (fun H0 => H0 !! lo = Some (OMap props) /\ H0 !! lk = Some (OArr ks)
                        /\ lo < length h1 /\ lk < length h1) Hord Hplain)
      with (done_ := []).
    - intros H0 o (H1 & H2 & H3 & H4). split_and!; [| |done|done];
        rewrite list_lookup_insert_ne by lia; done.
    - intros k v H0 Hk (H1 & H2 & _).
      rewrite (bind_Ret _ _ _ true H0).
      2:{ rewrite (hasOwnProperty_map _ _ _ _ H1) by by apply plain_keys_hasOwnProperty.
          by rewrite Hk, bool_decide_eq_true_2 by eauto. }
      cbv beta iota. rewrite bind_assoc, (bind_Ret _ _ _ _ _ (run_array_items _ _ _ H2)).
      cbn [ret bind andb]. unfold g.
      destruct (index_of (VStr (key_name k)) ks) as [i|] eqn:Hi.
      + rewrite bool_decide_eq_true_2 by eauto. by rewrite bool_decide_eq_false_2.
      + rewrite bool_decide_eq_false_2 by (by intros [? ?]). cbn [negb].
        rewrite bool_decide_eq_true_2 by done.
        by rewrite (bind_Ret _ _ _ _ _ (run_get_prop_own _ _ _ _ _ H1 Hk)).
    - done.
    - split_and!; [done|done|by eapply lookup_lt_Some|by eapply lookup_lt_Some].
    - by rewrite lookup_app_r, Nat.sub_diag by lia. }
  rewrite (bind_Ret _ _ _ _ _ Hloop).
  cbn [ret]. rewrite insert_app_r_alt, Nat.sub_diag by lia. cbn [insert list_insert].
  do 4 f_equal.
  exact (select_fields_filter (fun p => index_of (VStr (key_name p.1)) ks = None) props).
Qed.


(** A [forEach] whose callback keeps the array as it is, with an
    invariant [I] of the elements visited and the store. *)
Lemma forEach_run (I : list val -> heap -> Prop) (callback : val -> M unit) la items :
  (forall seen H0, I seen H0 -> H0 !! la = Some (OArr items)) ->
  (forall seen x rest H0, items = seen ++ x :: rest -> I seen H0 ->
     exists H1, callback x H0 = Ret tt H1 /\ I (seen ++ [x]) H1) ->
  forall n k H0, k + n = length items -> I (take k items) H0 ->
    exists H1, forEach_from callback (VRef la) k n H0 = Ret tt H1 /\ I items H1.
Proof.
  intros Harr Hstep. induction n as [|n IH]; intros k H0 Hk HI.
  - exists H0. split; [done|]. rewrite Nat.add_0_r in Hk. subst k. by rewrite firstn_all in HI.
  - cbn [forEach_from].
    rewrite (bind_Ret _ _ _ _ _ (run_array_items _ _ _ (Harr _ _ HI))).
    destruct (lookup_lt_is_Some_2 items k) as [x Hx]; [lia|]. rewrite Hx.
    destruct (Hstep (take k items) x (drop (S k) items) H0) as (H1 & Hcb & HI1);
      [by rewrite take_drop_middle|done|].
    rewrite (bind_Ret _ _ _ _ _ Hcb).
    apply IH; [lia|]. by erewrite take_S_r.
Qed.

Lemma run_pick h lo props keys lk ks h1 :
  h !! lo = Some (OMap props) ->
  forallb plain_key props.*1 = true ->
  (if is_array h keys then h1 = h /\ keys = VRef lk else h1 = h ++ [OArr [keys]] /\ lk = length h) ->
  h1 !! lk = Some (OArr ks) ->
  Forall (fun kv => is_Some (to_property_key kv)) ks ->
  exists rp,
    Utils.pick (VRef lo) keys h = Ret (VRef (length h1)) (h1 ++ [OMap rp])
    /\ forall k, prop_lookup k rp
                 = if bool_decide (Some k ∈ to_property_key <$> ks)
                   then prop_lookup k props else None.
Proof.
  intros Hlo Hplain Hkeys Hlk Hks. unfold Utils.pick.
  mstep. msimp. mstep.
  assert (Hlo1 : h1 !! lo = Some (OMap props)).
  { destruct (is_array h keys); destruct Hkeys as [-> ?]; [done|]. by apply lookup_app_l_Some. }
  assert (Hwrap : (if negb (is_array h keys) then alloc (OArr [keys]) else ret keys) h
                  = Ret (VRef lk) h1).
  { destruct (is_array h keys); destruct Hkeys as [-> ->]; reflexivity. }
  rewrite (bind_Ret _ _ _ _ _ Hwrap). mstep.
  set (I := fun (seen : list val) (H0 : heap) =>
              exists rp, H0 = h1 ++ [OMap rp]
                /\ forall k, prop_lookup k rp
                             = if bool_decide (Some k ∈ to_property_key <$> seen)
                               then prop_lookup k props else None).
  unfold array_forEach.
  assert (Hlk2 : (h1 ++ [OMap []]) !! lk = Some (OArr ks)) by by apply lookup_app_l_Some.
  rewrite bind_assoc, (bind_Ret _ _ _ _ _ (run_array_items _ _ _ Hlk2)).
  match goal with |- context [forEach_from ?cb _ _ _] =>
    destruct (forEach_run I cb lk ks) with (n := length ks) (k := 0) (H0 := h1 ++ [OMap []])
      as (H1 & Hrun & rp & -> & Hrp)
  end.
  - intros seen H0 (rp & -> & _). by apply lookup_app_l_Some.
  - intros seen x rest H0 Hsplit (rp & -> & Hrp).
    assert (Hx : is_Some (to_property_key x)).
    { rewrite Forall_forall in Hks. apply Hks. rewrite Hsplit. apply elem_of_app. right. left. }
    destruct Hx as [k Hx].
    assert (Hlo2 : (h1 ++ [OMap rp]) !! lo = Some (OMap props)) by by apply lookup_app_l_Some.
    assert (Hlr : (h1 ++ [OMap rp]) !! length h1 = Some (OMap rp))
      by by rewrite lookup_app_r, Nat.sub_diag by lia.
    cbv beta. unfold hasOwnElem, get_elem, set_elem. rewrite Hx.
    rewrite (bind_Ret _ _ _ _ _ (hasOwnProperty_map _ _ _ _ Hlo2
               (plain_keys_hasOwnProperty _ Hplain))).
    assert (Hseen : forall k', bool_decide (Some k' ∈ to_property_key <$> seen ++ [x])
                    = bool_decide (k' = k) || bool_decide (Some k' ∈ to_property_key <$> seen)).
    { intros k'. rewrite fmap_app. cbn [fmap list_fmap]. rewrite Hx.
      destruct (decide (k' = k)) as [->|Hne].
      - rewrite (bool_decide_eq_true_2 (k = k)) by done. cbn [orb].
        apply bool_decide_eq_true_2. apply elem_of_app. right. left.
      - rewrite (bool_decide_eq_false_2 (k' = k)) by done. cbn [orb].
        apply bool_decide_ext. rewrite elem_of_app, list_elem_of_singleton.
        split; [intros [?|[= ?]]; done|by left]. }
    destruct (prop_lookup k props) as [v|] eqn:Hk.
    + rewrite bool_decide_eq_true_2 by eauto.
      rewrite (bind_Ret _ _ _ _ _ (run_get_prop_own _ _ _ _ _ Hlo2 Hk)).
      destruct (prop_lookup k rp) as [v0|] eqn:Hk0.
      * rewrite (run_set_prop_own _ _ _ _ _ Hlr) by eauto.
        eexists. split; [reflexivity|]. eexists. split.
        { rewrite insert_app_r_alt, Nat.sub_diag by lia. reflexivity. }
        intros k'. rewrite prop_lookup_replace by eauto. rewrite Hseen, Hrp.
        destruct (decide (k' = k)) as [->|Hne];
          [by rewrite (bool_decide_eq_true_2 (k = k))|].
        by rewrite (bool_decide_eq_false_2 (k' = k)).
      * assert (Hinh : inherited ObjectProto k = false).
        { rewrite forallb_forall in Hplain. specialize (Hplain k).
          unfold plain_key in Hplain. destruct (inherited ObjectProto k); [|done].
          discriminate Hplain. apply list_elem_of_In.
          apply prop_lookup_elem in Hk. apply list_elem_of_fmap. by exists (k, v). }
        rewrite (run_set_prop_new _ _ _ _ _ Hlr Hk0 Hinh).
        eexists. split; [reflexivity|]. eexists. split.
        { rewrite insert_app_r_alt, Nat.sub_diag by lia. reflexivity. }
        intros k'. rewrite prop_lookup_insert by done. rewrite Hseen, Hrp.
        destruct (decide (k' = k)) as [->|Hne];
          [by rewrite (bool_decide_eq_true_2 (k = k))|].
        by rewrite (bool_decide_eq_false_2 (k' = k)).
    + rewrite bool_decide_eq_false_2 by (by intros [? ?]).
      eexists. split; [reflexivity|]. exists rp. split; [done|].
      intros k'. rewrite Hseen, Hrp.
      destruct (decide (k' = k)) as [->|Hne].
      * rewrite (bool_decide_eq_true_2 (k = k)) by done. cbn [orb]. rewrite Hk.
        by destruct (bool_decide _).
      * by rewrite (bool_decide_eq_false_2 (k' = k)).
  - done.
  - exists []. split; [done|]. intros k. cbn. rewrite bool_decide_eq_false_2; [done|].
    by intros ?%elem_of_nil.
  - exists rp. rewrite (bind_Ret _ _ _ _ _ Hrun). done.
Qed.


Lemma index_of_not_string s ks :
  (forall v, v ∈ ks -> typeof v <> TString) -> index_of (VStr s) ks = None.
Proof.
  intros Hks. apply index_of_None. intros y Hy. specialize (Hks y Hy). by destruct y.
Qed.

Lemma filter_all {A} (P : A -> Prop) `{forall x, Decision (P x)} (l : list A) :
  (forall x, x ∈ l -> P x) -> filter P l = l.
Proof.
  induction l as [|x l IH]; intros Hall; [done|].
  rewrite filter_cons, decide_True by (apply Hall; left). f_equal. apply IH.
  intros y Hy. apply Hall. by right.
Qed.

(** [omit(obj, keys)], for a keyed mapping [obj] with plain keys (no
    key is a name that [Object.prototype] defines, such as
    [hasOwnProperty] or [__proto__]): a new mapping with the fields of
    [obj], in order, whose name is not [===] to an element of [keys]
    ([keys] itself, when it is no array); numbers in [keys] omit
    nothing, as the names are strings. [obj] is left as it is. When
    [obj] is not an object the result is a new empty mapping. *)
Theorem omit_drops_listed_names (h : heap) :
  (forall obj keys, Utils.isObject obj h = Ret false h ->
     Utils.omit obj keys h = Ret (VRef (length h)) (h ++ [OMap []]))
  /\ (forall lo props, h !! lo = Some (OMap props) ->
        ordered_keys props.*1 = true -> forallb plain_key props.*1 = true ->
        (forall lk ks, h !! lk = Some (OArr ks) ->
           Utils.omit (VRef lo) (VRef lk) h
           = Ret (VRef (length h))
               (h ++ [OMap (filter (fun p => index_of (VStr (key_name p.1)) ks = None) props)]))
        /\ (forall kv, is_array h kv = false ->
              Utils.omit (VRef lo) kv h
              = Ret (VRef (S (length h)))
                  (h ++ [OArr [kv];
                         OMap (filter (fun p => index_of (VStr (key_name p.1)) [kv] = None)
                                 props)]))
        /\ (forall ks, (forall v, v ∈ ks -> typeof v <> TString) ->
              filter (fun p => index_of (VStr (key_name p.1)) ks = None) props = props)).
Proof.
  split.
  - intros obj keys Hobj. unfold Utils.omit. by rewrite (bind_Ret _ _ _ _ _ Hobj).
  - intros lo props Hlo Hord Hplain. split_and!.
    + intros lk ks Hlk. apply (run_omit h lo props (VRef lk) lk ks h); try done.
      by rewrite (is_array_seq _ _ _ Hlk).
    + intros kv Hkv.
      rewrite (run_omit h lo props kv (length h) [kv] (h ++ [OArr [kv]])); try done.
      * rewrite length_app, Nat.add_1_r. by rewrite <- app_assoc.
      * by rewrite Hkv.
      * by rewrite lookup_app_r, Nat.sub_diag by lia.
    + intros ks Hks. apply filter_all. intros p _. by apply index_of_not_string.
Qed.

(** [pick(obj, keys)], for a keyed mapping [obj] with plain keys (no
    key is a name that [Object.prototype] defines, such as
    [hasOwnProperty] or [__proto__]) and [keys] that are primitives
    naming a property: a new mapping that has, of the keys in [keys]
    ([keys] itself, when it is no array), those [obj] has, each with the
    value [obj] has there; [obj] is left as it is. When [obj] is not an
    object the result is a new empty mapping. *)
Theorem pick_takes_listed_keys (h : heap) :
  (forall obj keys, Utils.isObject obj h = Ret false h ->
     Utils.pick obj keys h = Ret (VRef (length h)) (h ++ [OMap []]))
  /\ (forall lo props, h !! lo = Some (OMap props) ->
        forallb plain_key props.*1 = true ->
        (forall lk ks, h !! lk = Some (OArr ks) ->
           Forall (fun kv => is_Some (to_property_key kv)) ks ->
           exists rp,
             Utils.pick (VRef lo) (VRef lk) h = Ret (VRef (length h)) (h ++ [OMap rp])
             /\ forall k, prop_lookup k rp
                          = if bool_decide (Some k ∈ to_property_key <$> ks)
                            then prop_lookup k props else None)
        /\ (forall kv k, is_array h kv = false -> to_property_key kv = Some k ->
              exists rp,
                Utils.pick (VRef lo) kv h
                = Ret (VRef (S (length h))) (h ++ [OArr [kv]; OMap rp])
                /\ forall k', prop_lookup k' rp
                              = if bool_decide (k' = k) then prop_lookup k' props else None)).
Proof.
  split.
  - intros obj keys Hobj. unfold Utils.pick. by rewrite (bind_Ret _ _ _ _ _ Hobj).
  - intros lo props Hlo Hplain. split.
    + intros lk ks Hlk Hks. apply (run_pick h lo props (VRef lk) lk ks h); try done.
      by rewrite (is_array_seq _ _ _ Hlk).
    + intros kv k Hkv Hk.
      destruct (run_pick h lo props kv (length h) [kv] (h ++ [OArr [kv]])) as (rp & Hrun & Hrp);
        try done.
      * by rewrite Hkv.
      * by rewrite lookup_app_r, Nat.sub_diag by lia.
      * constructor; [by rewrite Hk|constructor].
      * exists rp. split.
        -- rewrite Hrun, length_app, Nat.add_1_r. by rewrite <- app_assoc.
        -- intros k'. rewrite Hrp. cbn [fmap list_fmap]. rewrite Hk.
           destruct (decide (k' = k)) as [->|Hne].
           ++ rewrite !bool_decide_eq_true_2; [done|done|left].
           ++ rewrite !bool_decide_eq_false_2; [done|done|].
              intros [[= ?]|[]%elem_of_nil]%elem_of_cons. done.
Qed.

(** [pick] and [omit] with the same array of strings split the fields
    of a mapping whose keys are plain names (no array index, and no name
    that [Object.prototype] defines): [omit] returns the fields whose
    key [pick] does not return, and [pick] the others. *)
Theorem pick_omit_split h lo props lk ks
    (Hlo : h !! lo = Some (OMap props))
    (Hord : ordered_keys props.*1 = true)
    (Hplain : forallb plain_key props.*1 = true)
    (Hnames : forallb is_name props.*1 = true)
    (Hlk : h !! lk = Some (OArr ks))
    (Hks : Forall (fun kv => typeof kv = TString) ks) :
  exists picked omitted,
    Utils.pick (VRef lo) (VRef lk) h = Ret (VRef (length h)) (h ++ [OMap picked])
    /\ Utils.omit (VRef lo) (VRef lk) h = Ret (VRef (length h)) (h ++ [OMap omitted])
    /\ forall k v, prop_lookup k props = Some v ->
         (prop_lookup k picked = Some v /\ prop_lookup k omitted = None)
         \/ (prop_lookup k picked = None /\ prop_lookup k omitted = Some v).
Proof.
  destruct (run_pick h lo props (VRef lk) lk ks h) as (rp & Hpick & Hrp); try done.
  { by rewrite (is_array_seq _ _ _ Hlk). }
  { eapply Forall_impl; [exact Hks|]. intros [] Ht; try done; eauto. }
  exists rp. eexists. split; [exact Hpick|]. split.
  { apply (run_omit h lo props (VRef lk) lk ks h); try done.
    by rewrite (is_array_seq _ _ _ Hlk). }
  intros k v Hk. rewrite Hrp, Hk.
  assert (Hname : exists s, k = KStr s /\ to_key s = KStr s).
  { rewrite forallb_forall in Hnames. specialize (Hnames k).
    destruct k as [i|s]; cbn in Hnames.
    - discriminate Hnames. apply list_elem_of_In, list_elem_of_fmap.
      exists (KIdx i, v). split; [done|]. by apply prop_lookup_elem.
    - exists s. split; [done|]. eapply bool_decide_eq_true_1. apply Hnames.
      apply list_elem_of_In, list_elem_of_fmap.
      exists (KStr s, v). split; [done|]. by apply prop_lookup_elem. }
  destruct Hname as (s & -> & Hs).
  assert (Hnd : NoDup props.*1) by by apply ordered_keys_NoDup.
  assert (Hlisted : Some (KStr s) ∈ to_property_key <$> ks
                    <-> index_of (VStr (key_name (KStr s))) ks <> None).
  { cbn [key_name]. rewrite list_elem_of_fmap. split.
    - intros (x & Hx & Hin) Hnone. rewrite index_of_None in Hnone.
      specialize (Hnone x Hin). rewrite Forall_forall in Hks. specialize (Hks x Hin).
      destruct x as [| | | |s'|]; try done. cbn in Hx, Hnone.
      injection Hx as Hx. symmetry in Hx.
      assert (s' = s); [|subst; by rewrite String.eqb_refl in Hnone].
      unfold to_key in Hx, Hs. destruct (array_index s'); [done|].
      destruct (array_index s); [done|]. congruence.
    - intros Hsome. destruct (index_of (VStr s) ks) as [i|] eqn:Hi; [|done].
      apply index_of_Some in Hi as [(y & Hy & Hys) _].
      exists y. split; [|by eapply list_elem_of_lookup_2].
      destruct y as [| | | |s'|]; try done. cbn in Hys. apply String.eqb_eq in Hys.
      subst s'. cbn. by rewrite Hs. }
  destruct (decide (Some (KStr s) ∈ to_property_key <$> ks)) as [Hin|Hnin].
  - left. rewrite bool_decide_eq_true_2 by done. split; [done|].
    apply prop_lookup_None. intros Hk'%list_elem_of_fmap. destruct Hk' as ([k' v'] & Hk' & Hin').
    cbn in Hk'. subst k'. apply list_elem_of_filter in Hin' as [Hnone _].
    cbn [fst] in Hnone. by apply Hlisted in Hin.
  - right. rewrite bool_decide_eq_false_2 by done. split; [done|].
    apply prop_lookup_NoDup.
    + apply (sublist_NoDup _ props.*1); [exact Hnd|apply fmap_sublist, sublist_filter].
    + apply list_elem_of_filter. split; [|by apply prop_lookup_elem].
      cbn [fst]. destruct (index_of (VStr (key_name (KStr s))) ks) eqn:Hi; [|done].
      exfalso. apply Hnin, Hlisted. done.
Qed.

End Objects.

(* ===================================================================== *)
(** * [has] and [delete] *)
(* ===================================================================== *)

Section OwnPaths.
Context `{Host}.

Lemma run_hasOwnProperty_unshadowed h l props k :
  unshadowed h -> h !! l = Some (OMap props) ->
  hasOwnProperty (VRef l) k h = Ret (bool_decide (is_Some (prop_lookup k props))) h.
Proof.
  intros Hun Hl. unfold hasOwnProperty, bind, load. by rewrite Hl, (Hun _ _ Hl).
Qed.

Lemma has_loop_stored h (Hun : unshadowed h) keys :
  forall v, is_Some (stored h v keys) -> Utils.has_loop keys v h = Ret true h.
Proof.
  induction keys as [|k keys IH]; intros v [x Hs]; cbn [stored] in Hs; [done|].
  cbn [Utils.has_loop].
  destruct v as [ | | | | |l]; try done.
  destruct (h !! l) as [[|props|]|] eqn:Hl; try done.
  destruct (prop_lookup (to_key k) props) as [c|] eqn:Hk; [|done].
  cbn [strict_eq orb].
  rewrite (bind_Ret _ _ _ _ _ (run_hasOwnProperty_unshadowed _ _ _ _ Hun Hl)).
  rewrite Hk, bool_decide_eq_true_2 by eauto. cbn [negb].
  rewrite (bind_Ret _ _ _ _ _ (run_get_prop_own _ _ _ _ _ Hl Hk)). apply IH. eauto.
Qed.

Lemma has_loop_lacks h (Hun : unshadowed h) keys :
  forall v, lacks h v keys = true -> Utils.has_loop keys v h = Ret false h.
Proof.
  induction keys as [|k keys IH]; intros v Hs; cbn [lacks] in Hs; [done|].
  cbn [Utils.has_loop].
  destruct v as [ | | | | |l]; try done.
  destruct (h !! l) as [[|props|]|] eqn:Hl; try done.
  cbn [strict_eq orb].
  rewrite (bind_Ret _ _ _ _ _ (run_hasOwnProperty_unshadowed _ _ _ _ Hun Hl)).
  destruct (prop_lookup (to_key k) props) as [c|] eqn:Hk.
  - rewrite bool_decide_eq_true_2 by eauto. cbn [negb].
    rewrite (bind_Ret _ _ _ _ _ (run_get_prop_own _ _ _ _ _ Hl Hk)). by apply IH.
  - by rewrite bool_decide_eq_false_2 by (by intros [? ?]).
Qed.

Lemma stored_isObject h v k keys x :
  stored h v (k :: keys) = Some x -> Utils.isObject v h = Ret true h.
Proof.
  cbn [stored]. destruct v as [ | | | | |l]; try done.
  destruct (h !! l) as [[|props|]|] eqn:Hl; try done. intros _.
  rewrite run_isObject. by rewrite (is_array_map _ _ _ Hl).
Qed.

(** [has(obj, path)] follows own properties: it is [true] when a value
    is stored at the path, also when that value is [undefined] (for
    which [get] returns the default); it is [false] when a segment is not
    an own property of the keyed mapping the walk has come to, or the
    walk comes to [null] or [undefined] first, and when [obj] is not an
    object. *)
Theorem has_follows_own_keys h obj path (Hun : unshadowed h) :
  (Utils.isObject obj h = Ret false h -> Utils.has obj path h = Ret false h)
  /\ (is_Some (stored h obj (split "." path)) -> Utils.has obj path h = Ret true h)
  /\ (Utils.isObject obj h = Ret true h -> lacks h obj (split "." path) = true ->
      Utils.has obj path h = Ret false h)
  /\ (forall d, stored h obj (split "." path) = Some VUndef ->
        Utils.has obj path h = Ret true h /\ Utils.get obj path d h = Ret d h).
Proof.
  assert (Hstored : is_Some (stored h obj (split "." path)) ->
                    Utils.has obj path h = Ret true h).
  { intros [x Hs]. unfold Utils.has.
    destruct (split "." path) as [|k keys] eqn:Hsplit; [by apply split_not_nil in Hsplit|].
    rewrite (bind_Ret _ _ _ _ _ (stored_isObject _ _ _ _ _ Hs)). cbn [negb].
    apply has_loop_stored; eauto. }
  split_and!.
  - intros Hobj. unfold Utils.has. by rewrite (bind_Ret _ _ _ _ _ Hobj).
  - done.
  - intros Hobj Hl. unfold Utils.has. rewrite (bind_Ret _ _ _ _ _ Hobj). cbn [negb].
    by apply has_loop_lacks.
  - intros d Hs. split; [apply Hstored; eauto|]. unfold Utils.get.
    destruct (split "." path) as [|k keys] eqn:Hsplit; [by apply split_not_nil in Hsplit|].
    rewrite (bind_Ret _ _ _ _ _ (stored_isObject _ _ _ _ _ Hs)). cbn [negb].
    by rewrite (get_loop_stored _ d _ _ _ Hs).
Qed.


Lemma prop_lookup_remove k (props : list (key * val)) k' :
  prop_lookup k' (prop_remove k props)
  = if decide (k' = k) then None else prop_lookup k' props.
Proof.
  induction props as [|[k0 v0] props IH]; cbn [prop_remove prop_lookup].
  - by destruct (decide (k' = k)).
  - destruct (decide (k = k0)) as [<-|Hne].
    + rewrite IH. destruct (decide (k' = k)); done.
    + cbn [prop_lookup]. rewrite IH.
      destruct (decide (k' = k0)) as [->|]; [|done].
      by rewrite decide_False by done.
Qed.

Lemma prop_remove_absent k (props : list (key * val)) :
  prop_lookup k props = None -> prop_remove k props = props.
Proof.
  induction props as [|[k0 v0] props IH]; cbn [prop_remove prop_lookup]; [done|].
  destruct (decide (k = k0)); [done|]. intros Hk. by rewrite IH.
Qed.

Lemma run_delete_prop h l props k :
  h !! l = Some (OMap props) ->
  delete_prop (VRef l) k h = Ret true (<[l := OMap (prop_remove k props)]> h).
Proof. intros Hl. unfold delete_prop, bind, load, store. by rewrite Hl. Qed.

Lemma delete_loop_stored h keys :
  forall v x, stored h v keys = Some x -> truthy x = true ->
    Utils.delete_loop keys v h = Ret (Some x) h.
Proof.
  induction keys as [|k keys IH]; intros v x Hs Hx; cbn [stored] in Hs.
  - by injection Hs as ->.
  - cbn [Utils.delete_loop].
    destruct v as [ | | | | |l]; try done.
    destruct (h !! l) as [[|props|]|] eqn:Hl; try done.
    destruct (prop_lookup (to_key k) props) as [c|] eqn:Hk; [|done].
    rewrite (bind_Ret _ _ _ _ _ (run_get_prop_own _ _ _ _ _ Hl Hk)).
    assert (Hc : truthy c = true).
    { destruct keys as [|k' keys]; cbn [stored] in Hs; [by injection Hs as ->|].
      by destruct c. }
    rewrite Hc. cbn [negb].
    rewrite (bind_Ret _ _ _ _ _ (run_get_prop_own _ _ _ _ _ Hl Hk)). by apply IH.
Qed.

Lemma delete_loop_blocked h keys :
  forall v, blocked h v keys = true -> Utils.delete_loop keys v h = Ret None h.
Proof.
  induction keys as [|k keys IH]; intros v Hb; cbn [blocked] in Hb; [done|].
  cbn [Utils.delete_loop].
  destruct v as [ | | | | |l]; try done.
  destruct (h !! l) as [[|props|]|] eqn:Hl; try done.
  destruct (prop_lookup (to_key k) props) as [c|] eqn:Hk.
  - rewrite (bind_Ret _ _ _ _ _ (run_get_prop_own _ _ _ _ _ Hl Hk)).
    destruct (truthy c); [|done]. cbn [negb orb] in *.
    rewrite (bind_Ret _ _ _ _ _ (run_get_prop_own _ _ _ _ _ Hl Hk)). by apply IH.
  - apply negb_true_iff in Hb.
    by rewrite (bind_Ret _ _ _ _ _ (run_get_prop_absent _ _ _ _ Hl Hk Hb)).
Qed.

(** After a field of the mapping at [l] is removed, a path that led to
    it lacks a segment. *)
Lemma lacks_after_remove h l props keys :
  h !! l = Some (OMap props) ->
  keys <> [] ->
  forall v, stored h v (removelast keys) = Some (VRef l) ->
    lacks (<[l := OMap (prop_remove (to_key (List.last keys EmptyString)) props)]> h) v keys
    = true.
Proof.
  intros Hl. induction keys as [|k keys IH]; intros Hne v Hs; [done|].
  assert (Hlt : l < length h) by by eapply lookup_lt_Some.
  destruct keys as [|k' keys].
  - cbn in Hs. injection Hs as ->. cbn [lacks List.last].
    rewrite list_lookup_insert_eq by done. rewrite prop_lookup_remove.
    by rewrite decide_True.
  - change (removelast (k :: k' :: keys)) with (k :: removelast (k' :: keys)) in Hs.
    change (List.last (k :: k' :: keys) EmptyString) with (List.last (k' :: keys) EmptyString).
    cbn [stored] in Hs. cbn [lacks].
    destruct v as [ | | | | |l0]; try done.
    destruct (h !! l0) as [[|props0|]|] eqn:Hl0; try done.
    destruct (prop_lookup (to_key k) props0) as [c|] eqn:Hk; [|done].
    destruct (decide (l0 = l)) as [->|Hne0].
    + rewrite list_lookup_insert_eq by done. rewrite prop_lookup_remove.
      destruct (decide _); [done|].
      rewrite Hl in Hl0. injection Hl0 as <-. rewrite Hk. by apply IH.
    + rewrite list_lookup_insert_ne by done. rewrite Hl0, Hk. by apply IH.
Qed.

Lemma unshadowed_remove h l props k :
  unshadowed h -> h !! l = Some (OMap props) ->
  unshadowed (<[l := OMap (prop_remove k props)]> h).
Proof.
  intros Hun Hl l0 props0. destruct (decide (l0 = l)) as [->|Hne].
  - rewrite list_lookup_insert_eq by by eapply lookup_lt_Some. intros [= <-].
    rewrite prop_lookup_remove. destruct (decide _); [done|]. by eapply Hun.
  - rewrite list_lookup_insert_ne by done. apply Hun.
Qed.

(** [delete(obj, path)], when the path but its last segment leads to a
    keyed mapping: the call returns [true] and the mapping has no
    property for the last segment afterwards, whether it had one or not
    (then nothing changes); every other object is as it was; and in a
    store where no mapping has an own property [hasOwnProperty], [has]
    then returns [false] for the path. *)
Theorem delete_removes_the_property h obj path l props
    (Hs : stored h obj (removelast (split "." path)) = Some (VRef l))
    (Hl : h !! l = Some (OMap props)) :
  let k := to_key (List.last (split "." path) EmptyString) in
  let h' := <[l := OMap (prop_remove k props)]> h in
  Utils.delete obj path h = Ret true h'
  /\ (prop_lookup k props = None -> h' = h)
  /\ (forall l', l' <> l -> h' !! l' = h !! l')
  /\ (unshadowed h -> Utils.has obj path h' = Ret false h').
Proof.
  intros k h'.
  assert (Hobj : Utils.isObject obj h = Ret true h).
  { destruct (removelast (split "." path)) as [|k0 keys] eqn:Hr.
    - cbn in Hs. injection Hs as ->. rewrite run_isObject. by rewrite (is_array_map _ _ _ Hl).
    - by eapply stored_isObject. }
  assert (Hobj' : Utils.isObject obj h' = Ret true h').
  { assert (Harr : is_array h' obj = is_array h obj).
    { destruct obj as [ | | | | |lo]; try done. unfold is_array, h'.
      destruct (decide (lo = l)) as [->|Hne].
      - rewrite list_lookup_insert_eq by by eapply lookup_lt_Some. by rewrite Hl.
      - by rewrite list_lookup_insert_ne by done. }
    pose proof Hobj as Hobj0. rewrite run_isObject in Hobj0. injection Hobj0 as Hobj0.
    by rewrite run_isObject, Harr, Hobj0. }
  split_and!.
  - unfold Utils.delete. rewrite (bind_Ret _ _ _ _ _ Hobj). cbn [negb].
    rewrite (bind_Ret _ _ _ _ _ (delete_loop_stored _ _ _ _ Hs eq_refl)).
    by apply run_delete_prop.
  - intros Hk. unfold h'. rewrite prop_remove_absent by done. by apply list_insert_id.
  - intros l' Hne. unfold h'. by rewrite list_lookup_insert_ne by done.
  - intros Hun. unfold Utils.has. rewrite (bind_Ret _ _ _ _ _ Hobj'). cbn [negb].
    apply has_loop_lacks; [by apply unshadowed_remove|].
    apply lacks_after_remove; [done|apply split_not_nil|done].
Qed.

(** [delete(obj, path)] returns [false] and changes nothing when [obj]
    is not an object, and when the walk is [blocked]: following own keys
    of keyed mappings, a segment before the last holds a falsy value, or
    the mapping reached lacks it and it is no name that
    [Object.prototype] defines. *)
Theorem delete_stops_at_falsy h obj path :
  (Utils.isObject obj h = Ret false h -> Utils.delete obj path h = Ret false h)
  /\ (Utils.isObject obj h = Ret true h ->
      blocked h obj (removelast (split "." path)) = true ->
      Utils.delete obj path h = Ret false h).
Proof.
  split.
  - intros Hobj. unfold Utils.delete. by rewrite (bind_Ret _ _ _ _ _ Hobj).
  - intros Hobj Hb. unfold Utils.delete. rewrite (bind_Ret _ _ _ _ _ Hobj). cbn [negb].
    by rewrite (bind_Ret _ _ _ _ _ (delete_loop_blocked _ _ _ Hb)).
Qed.

End OwnPaths.

(* ===================================================================== *)
(** * [flatten] with a depth *)
(* ===================================================================== *)

Section FlattenDepth.
Context `{Host}.

Lemma leaves_primitive t : Forall (fun v => ~ is_ref v) (leaves t).
Proof.
  induction t as [ | | b | x | s | ts IH | kts IH | d] using Value_nested_ind;
    cbn [leaves]; try (repeat constructor; by intros [? ?]).
  - induction IH as [|t ts Ht _ IHts]; cbn [map concat]; [constructor|].
    by apply Forall_app.
  - induction IH as [|[k t] kts Ht _ IHts]; cbn [map concat]; [constructor|].
    by apply Forall_app.
Qed.

Lemma repr_primitives h (vs : list val) :
  Forall (fun v => ~ is_ref v) vs ->
  Forall2 (repr h) vs (value_of_primitive <$> vs)
  /\ concat (map leaves (value_of_primitive <$> vs)) = vs
  /\ forallb well_keyed (value_of_primitive <$> vs) = true
  /\ depth (Sequence (value_of_primitive <$> vs)) <= 1.
Proof.
  induction 1 as [|v vs Hv _ (IH1 & IH2 & IH3 & IH4)]; [by repeat constructor|].
  assert (Hd : depth (value_of_primitive v) = 0) by by destruct v.
  split_and!.
  - constructor; [|done]. destruct v; try constructor. exfalso. apply Hv. by eexists.
  - cbn [fmap list_fmap map concat]. rewrite IH2.
    destruct v; try done. exfalso. apply Hv. by eexists.
  - cbn [fmap list_fmap forallb]. rewrite IH3. by destruct v.
  - cbn [depth fmap list_fmap foldr] in *. rewrite Hd. lia.
Qed.

(** [flatten] is idempotent: flattening what [flatten] returned gives
    an array with the same elements. *)
Theorem flatten_idempotent h data t fuel
    (Hr : repr h data t) (Hwk : well_keyed t = true) (Hfuel : depth t < fuel)
    (Hfuel2 : 1 < fuel) :
  (a <- Data.flatten fuel data VUndef ;; Data.flatten fuel a VUndef) h
  = Ret (VRef (S (length h))) (h ++ [OArr (leaves t); OArr (leaves t)]).
Proof.
  unfold Data.flatten at 1. cbn [truthy]. rewrite bind_assoc.
  rewrite (bind_Ret _ _ _ _ _ (flattenRecursive_leaves t Hwk h data fuel 0 Hr Hfuel)).
  rewrite (bind_Ret _ _ _ _ _ (run_alloc _ _)).
  destruct (repr_primitives (h ++ [OArr (leaves t)]) (leaves t) (leaves_primitive t))
    as (Hitems & Hleaves & Hwk2 & Hd2).
  assert (Hnew : (h ++ [OArr (leaves t)]) !! length h = Some (OArr (leaves t))).
  { rewrite lookup_app_r by lia. by rewrite Nat.sub_diag. }
  assert (Hfuel3 : depth (Sequence (value_of_primitive <$> leaves t)) < fuel) by lia.
  unfold Data.flatten. cbn [truthy].
  rewrite (bind_Ret _ _ _ _ _
             (flattenRecursive_leaves (Sequence (value_of_primitive <$> leaves t)) Hwk2
                (h ++ [OArr (leaves t)]) (VRef (length h)) fuel 0
                (repr_seq _ _ _ _ Hnew Hitems) Hfuel3)).
  cbn [leaves]. rewrite Hleaves. rewrite run_alloc, length_app, Nat.add_1_r.
  by rewrite <- app_assoc.
Qed.







End FlattenDepth.

(* ===================================================================== *)
(** * [isEmpty], and [isEqual] on dates *)
(* ===================================================================== *)

Section Emptiness.
Context `{Host}.

Lemma trimStart_spaces s : forallb is_space (units s) = true -> trimStart s = EmptyString.
Proof.
  induction s as [|c s IH]; cbn [units forallb trimStart]; [done|].
  intros [Hc Hs]%andb_true_iff. rewrite Hc. auto.
Qed.

Lemma trimStart_other s :
  forallb is_space (units s) = false ->
  exists c r, trimStart s = String c r /\ is_space c = false.
Proof.
  induction s as [|c s IH]; cbn [units forallb trimStart]; [done|].
  destruct (is_space c) eqn:Hc; cbn [andb]; [auto|]. intros _. by exists c, s.
Qed.

Lemma trimEnd_other c r : is_space c = false -> trimEnd (String c r) <> EmptyString.
Proof. intros Hc. cbn [trimEnd]. rewrite Hc. by destruct (trimEnd r). Qed.

Lemma trim_empty s : String.eqb (trim s) EmptyString = forallb is_space (units s).
Proof.
  unfold trim. destruct (forallb is_space (units s)) eqn:Hs.
  - by rewrite trimStart_spaces.
  - destruct (trimStart_other _ Hs) as (c & r & -> & Hc).
    apply String.eqb_neq. by apply trimEnd_other.
Qed.

(** [isEmpty(value)] is [true] for [null], [undefined], a string of
    white space only, an array without elements, a keyed mapping without
    keys and every date; it is [false] for every number and boolean,
    also for [0], [NaN] and [false]. *)
Theorem isEmpty_cases h value :
  match value with
  | VRef l => is_Some (h !! l)
  | _ => True
  end ->
  Utils.isEmpty value h
  = Ret match value with
        | VUndef | VNull => true
        | VBool _ | VNum _ => false
        | VStr s => forallb is_space (units s)
        | VRef l =>
            match h !! l with
            | Some (OArr items) => bool_decide (items = [])
            | Some (OMap props) => bool_decide (props = [])
            | _ => true
            end
        end h.
Proof.
  intros Hv. unfold Utils.isEmpty. destruct value as [ | |b|x|s|l]; try reflexivity.
  - cbn [strict_eq orb]. rewrite trim_empty.
    destruct (forallb is_space (units s)); reflexivity.
  - destruct Hv as [o Hl]. rewrite Hl. cbn [strict_eq orb]. mstep.
    destruct o as [items|props|d].
    + rewrite (is_array_seq _ _ _ Hl). mstep.
      destruct items as [|x items]; [reflexivity|].
      cbn [length Nat.eqb andb typeof jstype_eqb]. rewrite (bind_Ret _ _ _ _ _ (run_object_keys _ _ _ Hl)).
      cbn [own_keys length]. by rewrite length_fmap, length_seq.
    + rewrite (is_array_map _ _ _ Hl). cbn [ret bind andb typeof jstype_eqb].
      rewrite (bind_Ret _ _ _ _ _ (run_object_keys _ _ _ Hl)).
      cbn [own_keys]. rewrite length_fmap. by destruct props.
    + rewrite (is_array_date _ _ _ Hl). cbn [ret bind andb typeof jstype_eqb].
      by rewrite (bind_Ret _ _ _ _ _ (run_object_keys _ _ _ Hl)).
Qed.

(** [isEqual] on dates: two dates are equal when their times are
    [===], so a date with the time [NaN] differs from every other date
    object; and a date is equal to every keyed mapping without keys. *)
Theorem isEqual_dates h fuel la lb ta (Hne : la <> lb) (Hla : h !! la = Some (ODate ta)) :
  (forall tb, h !! lb = Some (ODate tb) ->
     Utils.isEqual (S fuel) (VRef la) (VRef lb) h = Ret (num_eqb ta tb) h)
  /\ (h !! lb = Some (OMap []) ->
      Utils.isEqual (S fuel) (VRef la) (VRef lb) h = Ret true h
      /\ Utils.isEqual (S fuel) (VRef lb) (VRef la) h = Ret true h)
  /\ (h !! lb = Some (ODate NaN) ->
      Utils.isEqual (S fuel) (VRef la) (VRef lb) h = Ret false h).
Proof.
  split_and!.
  - intros tb Hlb. by rewrite (isEqual_objects _ _ _ _ _ _ Hne Hla Hlb).
  - intros Hlb. rewrite (isEqual_objects _ _ _ _ _ _ Hne Hla Hlb).
    by rewrite (isEqual_objects _ _ _ _ _ _ (not_eq_sym Hne) Hlb Hla).
  - intros Hlb. rewrite (isEqual_objects _ _ _ _ _ _ Hne Hla Hlb).
    by destruct ta as [[]|[]| |[] m e].
Qed.

End Emptiness.

(* ===================================================================== *)
(** * [keyBy] *)
(* ===================================================================== *)

Section Keyed.
Context `{Host}.

Lemma filter_snoc {A} (P : A -> Prop) `{forall x, Decision (P x)} (l : list A) x :
  filter P (l ++ [x]) = filter P l ++ (if decide (P x) then [x] else []).
Proof. rewrite filter_app. f_equal. Qed.

(** [keyBy(array, key)], for a property name [key] and an array whose
    elements all have a group key ([group_key], as for [groupBy]:
    reading [item[key]] gives, without leaving the fragment, a value
    whose property name [Object.prototype] does not define): a new
    mapping that has, at every group key, the last element with that
    group key; the array and its elements are left as they are. For a
    value that is not an array the result is a new empty mapping. *)
Theorem keyBy_last_wins (h : heap) :
  (forall v key, is_array h v = false ->
     Utils.keyBy v key h = Ret (VRef (length h)) (h ++ [OMap []]))
  /\ (forall la items kv k,
        h !! la = Some (OArr items) ->
        to_property_key kv = Some k ->
        Forall (fun item => is_Some (group_key h k item)) items ->
        exists keyed,
          Utils.keyBy (VRef la) kv h = Ret (VRef (length h)) (h ++ [OMap keyed])
          /\ forall g, prop_lookup g keyed
                       = last (filter (fun item => group_key h k item = Some g) items)).
Proof.
  split.
  - intros v key Hv. unfold Utils.keyBy. mstep. by rewrite Hv.
  - intros la items kv k Hla Hkv Hitems. unfold Utils.keyBy.
    mstep. rewrite (is_array_seq _ _ _ Hla). cbn [negb]. mstep.
    set (I := fun (seen : list val) (H0 : heap) =>
                exists rp, H0 = h ++ [OMap rp]
                  /\ forall g, prop_lookup g rp
                               = last (filter (fun item => group_key h k item = Some g) seen)).
    unfold array_forEach.
    assert (Hla2 : (h ++ [OMap []]) !! la = Some (OArr items)) by by apply lookup_app_l_Some.
    rewrite bind_assoc, (bind_Ret _ _ _ _ _ (run_array_items _ _ _ Hla2)).
    match goal with |- context [forEach_from ?cb _ _ _] =>
      destruct (forEach_run I cb la items) with (n := length items) (k := 0)
                                                (H0 := h ++ [OMap []])
        as (H1 & Hrun & rp & -> & Hrp)
    end.
    + intros seen H0 (rp & -> & _). by apply lookup_app_l_Some.
    + intros seen x rest H0 Hsplit (rp & -> & Hrp).
      assert (Hx : is_Some (group_key h k x)).
      { rewrite Forall_forall in Hitems. apply Hitems. rewrite Hsplit.
        apply elem_of_app. right. left. }
      destruct Hx as [gk Hx].
      destruct (group_key_get _ _ _ _ (h ++ [OMap rp]) _ Hx (kept_app _ _) Hkv)
        as (g & Hget & Hgk & Hinh).
      cbv beta. rewrite (bind_Ret _ _ _ _ _ Hget). unfold set_elem. rewrite Hgk.
      assert (Hlr : (h ++ [OMap rp]) !! length h = Some (OMap rp))
        by by rewrite lookup_app_r, Nat.sub_diag by lia.
      assert (Hnew : forall rp', (forall g', prop_lookup g' rp'
                        = if decide (g' = gk) then Some x else prop_lookup g' rp) ->
                I (seen ++ [x]) (<[length h := OMap rp']> (h ++ [OMap rp]))).
      { intros rp' Hrp'. exists rp'. split.
        - by rewrite insert_app_r_alt, Nat.sub_diag by lia.
        - intros g'. rewrite Hrp', filter_snoc, Hrp.
          destruct (decide (g' = gk)) as [->|Hne].
          + rewrite decide_True by done. by rewrite last_snoc.
          + rewrite decide_False by congruence. by rewrite app_nil_r. }
      destruct (prop_lookup gk rp) as [v0|] eqn:Hk0.
      * rewrite (run_set_prop_own _ _ _ _ _ Hlr) by eauto.
        eexists. split; [reflexivity|]. apply Hnew. intros g'.
        apply prop_lookup_replace. eauto.
      * rewrite (run_set_prop_new _ _ _ _ _ Hlr Hk0 Hinh).
        eexists. split; [reflexivity|]. apply Hnew. intros g'.
        by apply prop_lookup_insert.
    + done.
    + exists []. split; [done|]. by intros g.
    + exists rp. by rewrite (bind_Ret _ _ _ _ _ Hrun).
Qed.

End Keyed.

(* ===================================================================== *)
(** * [map], [filter] and [pipe] *)
(* ===================================================================== *)

Section MapFilter.
Context `{Host}.






Lemma bind_ext {A B} (c : M A) (k1 k2 : A -> M B) h :
  (forall a h', k1 a h' = k2 a h') -> bind c k1 h = bind c k2 h.
Proof. intros Hk. unfold bind. by destruct (c h). Qed.

Lemma bind_ret_r {A} (c : M A) h : bind c ret h = c h.
Proof. unfold bind, ret. by destruct (c h). Qed.

(** [pipe] applies its functions from left to right: the pipe of one
    function is that function, the pipe of two lists of functions, one
    after the other, is the pipe of the first followed by the pipe of
    the second, and the empty pipe returns its argument. *)
Theorem pipe_composes (fs gs : list (val -> M val)) (value : val) (h : heap) :
  Data.pipe [] value h = Ret value h
  /\ (forall f, Data.pipe [f] value h = f value h)
  /\ Data.pipe (fs ++ gs) value h = (acc <- Data.pipe fs value ;; Data.pipe gs acc) h.
Proof.
  split; [done|]. split; [intros f; apply bind_ret_r|]. revert value h.
  induction fs as [|f fs IH]; intros value h; cbn [app Data.pipe]; [done|].
  rewrite bind_assoc. apply bind_ext. intros a h'. apply IH.
Qed.

End MapFilter.

(* ===================================================================== *)
(** * [deepMerge] with values that are not merged *)
(* ===================================================================== *)

Section MergeFlat.
Context `{Host}.

Lemma prop_lookup_is_Some k (props : list (key * val)) :
  is_Some (prop_lookup k props) <-> k ∈ props.*1.
Proof.
  destruct (prop_lookup k props) eqn:Hk.
  - split; [|eauto]. intros _. apply prop_lookup_elem in Hk.
    apply list_elem_of_fmap. by exists (k, v).
  - apply prop_lookup_None in Hk. split; [by intros [? ?]|done].
Qed.

(** The loop of [deepMerge] over the keys of a source whose values are
    no objects to merge. *)
Lemma merge_flat_loop fuel lt ls lr (props_s cs : list (key * val)) h1 :
  h1 !! ls = Some (OMap props_s) -> ls <> lr ->
  forallb plain_key props_s.*1 = true ->
  Forall (fun p => forall h0, (forall l, l <> lr -> h0 !! l = h1 !! l) ->
                     Utils.isObject p.2 h0 = Ret false h0) props_s ->
  forall todo done_ cs',
    (forall k, k ∈ todo -> k ∈ props_s.*1) ->
    (forall k, prop_lookup k cs'
               = if bool_decide (k ∈ done_) then prop_lookup k props_s else prop_lookup k cs) ->
    h1 !! lr = Some (OMap cs) ->
    exists cs2,
      forM todo (fun key =>
        own <- hasOwnProperty (VRef ls) key ;;
        if own then
          sk <- get_prop (VRef ls) key ;;
          o <- Utils.isObject sk ;;
          if o then
            tk <- get_prop (VRef lt) key ;;
            (if negb (truthy tk) then
               e <- alloc (OMap []) ;; set_prop (VRef lr) key e
             else ret tt) ;;;
            tk <- get_prop (VRef lt) key ;;
            sk <- get_prop (VRef ls) key ;;
            m <- Utils.deepMerge fuel tk sk ;;
            set_prop (VRef lr) key m
          else
            sk <- get_prop (VRef ls) key ;;
            set_prop (VRef lr) key sk
        else ret tt) (<[lr := OMap cs']> h1)
      = Ret tt (<[lr := OMap cs2]> h1)
      /\ forall k, prop_lookup k cs2
                   = if bool_decide (k ∈ done_ ++ todo) then prop_lookup k props_s
                     else prop_lookup k cs.
Proof.
  intros Hls Hne Hplain Hflat.
  assert (Hlr_lt : forall cs0, h1 !! lr = Some (OMap cs0) -> lr < length h1)
    by (intros; by eapply lookup_lt_Some).
  induction todo as [|k todo IH]; intros done_ cs' Htodo Hcs' Hlr.
  - exists cs'. split; [done|]. intros k. by rewrite app_nil_r.
  - cbn [forM].
    assert (Hls' : (<[lr := OMap cs']> h1) !! ls = Some (OMap props_s))
      by by rewrite list_lookup_insert_ne by done.
    assert (Hlr' : (<[lr := OMap cs']> h1) !! lr = Some (OMap cs'))
      by (rewrite list_lookup_insert_eq; [done|by eapply Hlr_lt]).
    assert (Hk : is_Some (prop_lookup k props_s)).
    { apply prop_lookup_is_Some, Htodo. left. }
    destruct Hk as [v Hk].
    rewrite bind_assoc.
    rewrite (bind_Ret _ _ _ true (<[lr := OMap cs']> h1)).
    2:{ rewrite (hasOwnProperty_map _ _ _ _ Hls') by by apply plain_keys_hasOwnProperty.
        by rewrite Hk, bool_decide_eq_true_2 by eauto. }
    cbv iota. rewrite !bind_assoc.
    rewrite (bind_Ret _ _ _ _ _ (run_get_prop_own _ _ _ _ _ Hls' Hk)).
    rewrite !bind_assoc.
    rewrite (bind_Ret _ _ _ false (<[lr := OMap cs']> h1)).
    2:{ rewrite Forall_forall in Hflat. apply (Hflat (k, v)).
        - by apply prop_lookup_elem.
        - intros l Hl. by rewrite list_lookup_insert_ne by done. }
    cbv iota.
    assert (Hinh : inherited ObjectProto k = false).
    { rewrite forallb_forall in Hplain. specialize (Hplain k).
      unfold plain_key in Hplain. destruct (inherited ObjectProto k); [|done].
      discriminate Hplain. apply list_elem_of_In, Htodo. left. }
    assert (Hset : exists cs1,
              set_prop (VRef lr) k v (<[lr := OMap cs']> h1) = Ret tt (<[lr := OMap cs1]> h1)
              /\ forall k', prop_lookup k' cs1
                            = if decide (k' = k) then Some v else prop_lookup k' cs').
    { destruct (prop_lookup k cs') as [v0|] eqn:Hk0.
      - exists (prop_replace k v cs'). split.
        + rewrite (run_set_prop_own _ _ _ _ _ Hlr') by eauto. by rewrite list_insert_insert_eq.
        + intros k'. apply prop_lookup_replace. eauto.
      - exists (prop_insert k v cs'). split.
        + rewrite (run_set_prop_new _ _ _ _ _ Hlr' Hk0 Hinh). by rewrite list_insert_insert_eq.
        + intros k'. by apply prop_lookup_insert. }
    destruct Hset as (cs1 & Hset & Hcs1).
    rewrite !bind_assoc, (bind_Ret _ _ _ _ _ (run_get_prop_own _ _ _ _ _ Hls' Hk)).
    rewrite (bind_Ret _ _ _ _ _ Hset).
    destruct (IH (done_ ++ [k]) cs1) as (cs2 & Hloop & Hcs2).
    + intros k' Hk'. apply Htodo. by right.
    + intros k'. rewrite Hcs1, Hcs'.
      destruct (decide (k' = k)) as [->|Hne'].
      * rewrite bool_decide_eq_true_2; [done|]. apply elem_of_app. right. left.
      * apply (f_equal (fun b : bool => if b then _ else _)).
        apply bool_decide_ext. rewrite elem_of_app, list_elem_of_singleton. tauto.
    + done.
    + exists cs2. split; [done|]. intros k'. rewrite Hcs2. by rewrite <- app_assoc.
Qed.


Lemma repr_off h l o c t :
  repr h c t -> ~ reach h c l -> repr (<[l := o]> h) c t.
Proof.
  intros Hr Hn. eapply repr_agree; [done|]. intros l0 Hl0.
  apply list_lookup_insert_ne. intros ->. done.
Qed.

Lemma reach_off h l o c t l0 :
  repr h c t -> ~ reach h c l -> reach (<[l := o]> h) c l0 -> reach h c l0.
Proof.
  intros Hr Hn Hreach. eapply reach_agree; [done..|]. intros l1 Hl1.
  apply list_lookup_insert_ne. intros ->. done.
Qed.

(** [deepMerge(target, source)] for keyed mappings with plain keys (in
    [target] at every level, [well_keyed]; no key is a name that
    [Object.prototype] defines), when no value of [source] is an object
    to merge (each is a primitive, [null] or an array): the result is a
    new mapping that has, at every key of [source], the value [source]
    has there (an array is the array of [source], not a copy), and at
    every other key of [target] a clone of the value of [target]. *)
Theorem deepMerge_overwrites_flat_values h lt ls kts props_s fuel
    (Hr : repr h (VRef lt) (Mapping kts))
    (Hwk : well_keyed (Mapping kts) = true)
    (Hfuel : depth (Mapping kts) < fuel)
    (Hls : h !! ls = Some (OMap props_s))
    (Hplain : forallb plain_key props_s.*1 = true)
    (Hflat : Forall (fun p => ~ is_ref p.2 \/ is_array h p.2 = true) props_s) :
  exists lr h' merged,
    Utils.deepMerge (S fuel) (VRef lt) (VRef ls) h = Ret (VRef lr) h'
    /\ kept h h' /\ length h <= lr
    /\ h' !! lr = Some (OMap merged)
    /\ forall k,
         match prop_lookup k props_s with
         | Some v => prop_lookup k merged = Some v
         | None =>
             match field k kts with
             | Some tk => exists c, prop_lookup k merged = Some c /\ repr h' c tk
                                    /\ forall l, reach h' c l -> length h <= l
             | None => prop_lookup k merged = None
             end
         end.
Proof.
  destruct (deepClone_value _ Hwk fuel Hfuel h _ Hr) as (clone & h1 & Hclone & Hkept & Hrc & Hfresh).
  pose proof (repr_object _ _ _ Hrc) as (lr & cs & -> & Hlr & Hcs).
  pose proof (repr_object _ _ _ Hr) as (lt' & props_t & [= <-] & Hlt & Hprops_t).
  assert (Hlr_ge : length h <= lr) by (apply Hfresh; by eapply reach_here).
  assert (Hls_lt : ls < length h) by by eapply lookup_lt_Some.
  assert (Hls1 : h1 !! ls = Some (OMap props_s)) by by apply Hkept.
  assert (Hlt1 : h1 !! lt = Some (OMap props_t)) by by apply Hkept.
  destruct (merge_flat_loop fuel lt ls lr props_s cs h1 Hls1 ltac:(lia) Hplain)
    with (todo := props_s.*1) (done_ := @nil key) (cs' := cs) as (merged & Hloop & Hmerged).
  { eapply Forall_impl; [exact Hflat|]. intros [k v] Hv h0 Hag. cbn [snd] in *.
    rewrite run_isObject. destruct Hv as [Hv|Hv].
    - destruct v as [ | | | | |l]; try done. exfalso. apply Hv. by eexists.
    - destruct v as [ | | | | |l]; try done. unfold is_array in *.
      destruct (h !! l) as [[items| |]|] eqn:Hl; try done.
      rewrite Hag by (apply lookup_lt_Some in Hl; lia). by rewrite (Hkept _ _ Hl). }
  { done. }
  { intros k. by rewrite bool_decide_eq_false_2 by by intros ?%elem_of_nil. }
  { done. }
  rewrite list_insert_id in Hloop by done.
  exists lr, (<[lr := OMap merged]> h1), merged. split_and!.
  - cbn [Utils.deepMerge]. rewrite (bind_Ret _ _ _ _ _ Hclone).
    mstep. mstep. rewrite (is_array_map _ _ _ Hlt1), (is_array_map _ _ _ Hls1).
    cbn [strict_eq typeof jstype_eqb negb andb].
    rewrite ?bind_assoc, (bind_Ret _ _ _ _ _ (run_object_keys _ _ _ Hls1)). cbn [own_keys].
    rewrite ?bind_assoc. by rewrite (bind_Ret _ _ _ _ _ Hloop).
  - apply kept_insert; done.
  - done.
  - rewrite list_lookup_insert_eq; [done|]. by eapply lookup_lt_Some.
  - intros k. rewrite Hmerged. cbn [app].
    destruct (prop_lookup k props_s) as [v|] eqn:Hk.
    + rewrite bool_decide_eq_true_2; [done|]. apply prop_lookup_is_Some. eauto.
    + rewrite bool_decide_eq_false_2 by (rewrite <- prop_lookup_is_Some, Hk; by intros [? ?]).
      pose proof (field_aligned _ _ _ k Hcs) as Hal.
      destruct (prop_lookup k cs) as [c|] eqn:Hc, (field k kts) as [tk|]; try done.
      exists c. split; [done|].
      assert (Hchild : c ∈ children (OMap cs)).
      { cbn [children]. apply prop_lookup_elem in Hc. apply list_elem_of_fmap. by exists (k, c). }
      assert (Hoff : ~ reach h1 c lr) by by eapply no_cycle.
      split; [by apply repr_off|].
      intros l Hl. apply Hfresh. eapply reach_child; [exact Hlr|exact Hchild|].
      by eapply reach_off.
Qed.

End MergeFlat.

(* ===================================================================== *)
(** * [truncate] and [pad] *)
(* ===================================================================== *)

Section Strings.

Lemma length_append (s t : string) : String.length (s +:+ t) = String.length s + String.length t.
Proof. induction s as [|c s IH]; [done|]. cbn [String.length]. unfold append; fold append. cbn. by rewrite IH. Qed.

Lemma length_substring (n : nat) (s : string) :
  String.length (String.substring 0 n s) = Nat.min n (String.length s).
Proof.
  revert n. induction s as [|c s IH]; intros [|n]; cbn [String.substring String.length]; try done.
  by rewrite IH.
Qed.

Lemma length_string_repeat (c : string) (n : nat) :
  String.length (string_repeat c n) = n * String.length c.
Proof.
  induction n as [|n IH]; [done|]. cbn [string_repeat]. rewrite length_append, IH. lia.
Qed.

Lemma num_to_count_integer x z : num_to_Z x = Some z -> num_to_count x = Some (Fin z).
Proof. destruct x as [s|s| |s m e]; try done; unfold num_to_count; by intros ->. Qed.

(** [truncate(str, length, suffix)] for an integer [length]: a string
    no longer than [length] is returned as it is; a longer one gives its
    first [length - suffix.length] units (none, when that is negative)
    followed by the suffix ('...' by default), which has [length] units
    when the suffix is no longer than [length], and is the suffix alone,
    longer than [length], otherwise. Without a [length] the result is
    the suffix, for every string; and without a string it is ''. *)
Theorem truncate_length (s : string) (h : heap) :
  (forall x z suffix, num_to_Z x = Some z -> (Z.of_nat (String.length s) <= z)%Z ->
     Utils.truncate (VStr s) (VNum x) suffix h = Ret (VStr s) h)
  /\ (forall x z suffix suf,
        num_to_Z x = Some z -> (z < Z.of_nat (String.length s))%Z ->
        suffix = VStr suf /\ suf <> EmptyString \/ truthy suffix = false /\ suf = "..." ->
        exists r,
          Utils.truncate (VStr s) (VNum x) suffix h = Ret (VStr r) h
          /\ r = String.substring 0 (Z.to_nat (z - Z.of_nat (String.length suf))) s +:+ suf
          /\ Z.of_nat (String.length r) = Z.max z (Z.of_nat (String.length suf)))
  /\ (forall suffix suf,
        suffix = VStr suf /\ suf <> EmptyString \/ truthy suffix = false /\ suf = "..." ->
        Utils.truncate (VStr s) VUndef suffix h = Ret (VStr suf) h)
  /\ (forall str length suffix, typeof str <> TString ->
        Utils.truncate str length suffix h = Ret (VStr EmptyString) h).
Proof.
  assert (Hsuffix : forall suffix suf,
            suffix = VStr suf /\ suf <> EmptyString \/ truthy suffix = false /\ suf = "..." ->
            (if truthy suffix then suffix else VStr "...") = VStr suf).
  { intros suffix suf [[-> Hne]|[-> ->]]; [|done]. cbn [truthy].
    apply String.eqb_neq in Hne. by rewrite Hne. }
  split_and!.
  - intros x z suffix Hx Hle. unfold Utils.truncate. cbn [to_number mbind option_bind].
    rewrite (num_to_count_integer _ _ Hx). apply Z.leb_le in Hle. by rewrite Hle.
  - intros x z suffix suf Hx Hlt Hsuf. eexists. split; [|split; [reflexivity|]].
    + unfold Utils.truncate. cbn [to_number mbind option_bind].
      rewrite (num_to_count_integer _ _ Hx). apply Z.leb_gt in Hlt. rewrite Hlt.
      cbv zeta. by rewrite (Hsuffix _ _ Hsuf).
    + rewrite length_append, length_substring. lia.
  - intros suffix suf Hsuf. unfold Utils.truncate. cbn [to_number mbind option_bind num_to_count NaN].
    cbv zeta. rewrite (Hsuffix _ _ Hsuf). by destruct s.
  - intros str length suffix Hstr. by destruct str.
Qed.

(** [pad(str, length, chars)] for an integer [length]: a string of
    [length] units or more is returned as it is; a shorter one, short
    of [d] units, gets [chars] ([' '] by default) [d / 2] times before
    it, rounded down, and the rest of the [d] times after it, so that
    the result has [length] units when [chars] is one unit, and more
    when [chars] is longer. Without a string the result is ''. *)
Theorem pad_length (s : string) (h : heap) :
  (forall x z chars, num_to_Z x = Some z -> (z <= Z.of_nat (String.length s))%Z ->
     Utils.pad (VStr s) (VNum x) chars h = Ret (VStr s) h)
  /\ (forall x z chars c,
        num_to_Z x = Some z -> (Z.of_nat (String.length s) < z)%Z ->
        chars = VStr c /\ c <> EmptyString \/ truthy chars = false /\ c = " " ->
        let d := (z - Z.of_nat (String.length s))%Z in
        exists r,
          Utils.pad (VStr s) (VNum x) chars h = Ret (VStr r) h
          /\ r = string_repeat c (Z.to_nat (d / 2)) +:+ s
                 +:+ string_repeat c (Z.to_nat (d - d / 2))
          /\ Z.of_nat (String.length r)
             = (Z.of_nat (String.length s) + d * Z.of_nat (String.length c))%Z)
  /\ (forall str length chars, typeof str <> TString ->
        Utils.pad str length chars h = Ret (VStr EmptyString) h).
Proof.
  split_and!.
  - intros x z chars Hx Hle. unfold Utils.pad. cbn [to_number mbind option_bind].
    rewrite (num_to_count_integer _ _ Hx). cbv zeta.
    assert (Hd : (z - Z.of_nat (String.length s) <=? 0)%Z = true) by (apply Z.leb_le; lia).
    by rewrite Hd.
  - intros x z chars c Hx Hlt Hc d. eexists. split; [|split; [reflexivity|]].
    + unfold Utils.pad. cbn [to_number mbind option_bind].
      rewrite (num_to_count_integer _ _ Hx). cbv zeta.
      assert (Hd : (z - Z.of_nat (String.length s) <=? 0)%Z = false) by (apply Z.leb_gt; lia).
      rewrite Hd.
      assert (Hchars : (if truthy chars then chars else VStr " ") = VStr c).
      { destruct Hc as [[-> Hne]|[-> ->]]; [|done]. cbn [truthy].
        apply String.eqb_neq in Hne. by rewrite Hne. }
      by rewrite Hchars.
    + rewrite !length_append, !length_string_repeat.
      assert (0 <= d / 2 <= d)%Z.
      { split; [apply Z.div_pos; lia|]. apply Z.div_le_upper_bound; lia. }
      nia.
  - intros str length chars Hstr. by destruct str.
Qed.

End Strings.

(* ===================================================================== *)
(** * [pluck] *)
(* ===================================================================== *)

Section Pluck.
Context `{Host}.

Lemma forM_run {A} (I : list A -> heap -> Prop) (body : A -> M unit) (l : list A) :
  (forall seen x rest H0, l = seen ++ x :: rest -> I seen H0 ->
     exists H1, body x H0 = Ret tt H1 /\ I (seen ++ [x]) H1) ->
  forall H0, I [] H0 -> exists H1, forM l body H0 = Ret tt H1 /\ I l H1.
Proof.
  intros Hstep.
  assert (Hgen : forall todo seen H0, l = seen ++ todo -> I seen H0 ->
            exists H1, forM todo body H0 = Ret tt H1 /\ I l H1).
  { induction todo as [|x todo IH]; intros seen H0 Hl HI.
    - rewrite app_nil_r in Hl. subst. by exists H0.
    - destruct (Hstep seen x todo H0 Hl HI) as (H1 & Hx & HI1).
      destruct (IH (seen ++ [x]) H1) as (H2 & Hrest & HI2); [by rewrite <- app_assoc|done|].
      exists H2. cbn [forM]. by rewrite (bind_Ret _ _ _ _ _ Hx). }
  intros H0 HI. by apply (Hgen l []).
Qed.

(** What [pluck] makes of one element. *)
Lemma pluck_item h0 li props (keys : list val) :
  h0 !! li = Some (OMap props) ->
  forallb plain_key props.*1 = true ->
  Forall (fun kv => is_Some (to_property_key kv)) keys ->
  exists rp,
    (result <- alloc (OMap []) ;;
     forM keys (fun k =>
       own <- hasOwnElem (VRef li) k ;;
       if own then v <- get_elem (VRef li) k ;; set_elem result k v
       else ret tt) ;;;
     ret result) h0
    = Ret (VRef (length h0)) (h0 ++ [OMap rp])
    /\ forall k, prop_lookup k rp
                 = if bool_decide (Some k ∈ to_property_key <$> keys)
                   then prop_lookup k props else None.
Proof.
  intros Hli Hplain Hkeys. rewrite (bind_Ret _ _ _ _ _ (run_alloc _ _)).
  set (I := fun (seen : list val) (H0 : heap) =>
              exists rp, H0 = h0 ++ [OMap rp]
                /\ forall k, prop_lookup k rp
                             = if bool_decide (Some k ∈ to_property_key <$> seen)
                               then prop_lookup k props else None).
  match goal with |- context [forM _ ?body] =>
    destruct (forM_run I body keys) with (H0 := h0 ++ [OMap []])
      as (H1 & Hrun & rp & -> & Hrp)
  end.
  - intros seen x rest H0 Hsplit (rp & -> & Hrp).
    assert (Hx : is_Some (to_property_key x)).
    { rewrite Forall_forall in Hkeys. apply Hkeys. rewrite Hsplit. apply elem_of_app. right. left. }
    destruct Hx as [k Hx].
    assert (Hlo2 : (h0 ++ [OMap rp]) !! li = Some (OMap props)) by by apply lookup_app_l_Some.
    assert (Hlr : (h0 ++ [OMap rp]) !! length h0 = Some (OMap rp))
      by by rewrite lookup_app_r, Nat.sub_diag by lia.
    cbv beta. unfold hasOwnElem, get_elem, set_elem. rewrite Hx.
    rewrite (bind_Ret _ _ _ _ _ (hasOwnProperty_map _ _ _ _ Hlo2
               (plain_keys_hasOwnProperty _ Hplain))).
    assert (Hseen : forall k', bool_decide (Some k' ∈ to_property_key <$> seen ++ [x])
                    = bool_decide (k' = k) || bool_decide (Some k' ∈ to_property_key <$> seen)).
    { intros k'. rewrite fmap_app. cbn [fmap list_fmap]. rewrite Hx.
      destruct (decide (k' = k)) as [->|Hne].
      - rewrite (bool_decide_eq_true_2 (k = k)) by done. cbn [orb].
        apply bool_decide_eq_true_2. apply elem_of_app. right. left.
      - rewrite (bool_decide_eq_false_2 (k' = k)) by done. cbn [orb].
        apply bool_decide_ext. rewrite elem_of_app, list_elem_of_singleton.
        split; [intros [?|[= ?]]; done|by left]. }
    assert (Hnew : forall v rp', prop_lookup k props = Some v ->
              (forall k', prop_lookup k' rp' = if decide (k' = k) then Some v else prop_lookup k' rp) ->
              I (seen ++ [x]) (<[length h0 := OMap rp']> (h0 ++ [OMap rp]))).
    { intros v rp' Hk Hrp'. exists rp'. split.
      - by rewrite insert_app_r_alt, Nat.sub_diag by lia.
      - intros k'. rewrite Hrp', Hseen, Hrp.
        destruct (decide (k' = k)) as [->|Hne];
          [by rewrite (bool_decide_eq_true_2 (k = k))|].
        by rewrite (bool_decide_eq_false_2 (k' = k)). }
    destruct (prop_lookup k props) as [v|] eqn:Hk.
    + rewrite bool_decide_eq_true_2 by eauto.
      rewrite (bind_Ret _ _ _ _ _ (run_get_prop_own _ _ _ _ _ Hlo2 Hk)).
      destruct (prop_lookup k rp) as [v0|] eqn:Hk0.
      * rewrite (run_set_prop_own _ _ _ _ _ Hlr) by eauto.
        eexists. split; [reflexivity|]. apply (Hnew v); [done|]. intros k'.
        apply prop_lookup_replace. eauto.
      * assert (Hinh : inherited ObjectProto k = false).
        { rewrite forallb_forall in Hplain. specialize (Hplain k).
          unfold plain_key in Hplain. destruct (inherited ObjectProto k); [|done].
          discriminate Hplain. apply list_elem_of_In.
          apply prop_lookup_elem in Hk. apply list_elem_of_fmap. by exists (k, v). }
        rewrite (run_set_prop_new _ _ _ _ _ Hlr Hk0 Hinh).
        eexists. split; [reflexivity|]. apply (Hnew v); [done|]. intros k'.
        by apply prop_lookup_insert.
    + rewrite bool_decide_eq_false_2 by (by intros [? ?]).
      eexists. split; [reflexivity|]. exists rp. split; [done|].
      intros k'. rewrite Hseen, Hrp.
      destruct (decide (k' = k)) as [->|Hne].
      * rewrite (bool_decide_eq_true_2 (k = k)) by done. cbn [orb]. rewrite Hk.
        by destruct (bool_decide _).
      * by rewrite (bool_decide_eq_false_2 (k' = k)).
  - exists []. split; [done|]. intros k. cbn. rewrite bool_decide_eq_false_2; [done|].
    by intros ?%elem_of_nil.
  - exists rp. by rewrite (bind_Ret _ _ _ _ _ Hrun).
Qed.

(** [pluck(array, ...keys)] for an array of keyed mappings with plain
    keys (no key is a name that [Object.prototype] defines) and [keys]
    that are primitives naming a property: a new array of new mappings,
    one for each element and in the same order, each with those of
    [keys] that the element has and the values it has there; the
    elements are left as they are. With no keys the result is [array]
    itself, not a copy. *)
Theorem pluck_takes_listed_keys h la items keys
    (Hla : h !! la = Some (OArr items))
    (Hitems : Forall (fun item => exists li props, item = VRef li /\ h !! li = Some (OMap props)
                                   /\ forallb plain_key props.*1 = true) items)
    (Hkeys : Forall (fun kv => is_Some (to_property_key kv)) keys) :
  Data.pluck (VRef la) [] h = Ret (VRef la) h
  /\ (keys <> [] ->
      exists plucked,
        Data.pluck (VRef la) keys h
        = Ret (VRef (length h + length items))
            (h ++ (OMap <$> plucked)
               ++ [OArr (VRef <$> seq (length h) (length items))])
        /\ Forall2 (fun item rp =>
             exists li props, item = VRef li /\ h !! li = Some (OMap props)
               /\ forall k, prop_lookup k rp
                            = if bool_decide (Some k ∈ to_property_key <$> keys)
                              then prop_lookup k props else None) items plucked).
Proof.
  split.
  - unfold Data.pluck. mstep. by rewrite (is_array_seq _ _ _ Hla).
  - intros Hne. unfold Data.pluck. mstep. rewrite (is_array_seq _ _ _ Hla). cbn [negb].
    assert (Hlen0 : (length keys =? 0) = false) by by destruct keys.
    rewrite Hlen0. clear Hlen0 Hne.
    unfold array_map. rewrite (bind_Ret _ _ _ _ _ (run_array_items _ _ _ Hla)).
    match goal with |- context [mapM ?f _] => set (body := f) end.
    assert (Hloop : forall (todo seen : list val) (rps : list (list (key * val))),
              Forall (fun item => exists li props, item = VRef li /\ h !! li = Some (OMap props)
                                   /\ forallb plain_key props.*1 = true) todo ->
              length rps = length seen ->
              exists rps',
                mapM body todo (h ++ (OMap <$> rps))
                = Ret (VRef <$> seq (length h + length seen) (length todo))
                      (h ++ (OMap <$> rps ++ rps'))
                /\ Forall2 (fun item rp =>
                     exists li props, item = VRef li /\ h !! li = Some (OMap props)
                       /\ forall k, prop_lookup k rp
                                    = if bool_decide (Some k ∈ to_property_key <$> keys)
                                      then prop_lookup k props else None) todo rps').
    { induction todo as [|item todo IH]; intros seen rps Htodo Hlen.
      - exists []. split; [by rewrite app_nil_r|constructor].
      - apply Forall_cons in Htodo as [(li & props & -> & Hli & Hplain) Htodo].
        destruct (pluck_item (h ++ (OMap <$> rps)) li props keys) as (rp & Hitem & Hrp);
          [by apply lookup_app_l_Some|done|done|].
        destruct (IH (seen ++ [VRef li]) (rps ++ [rp]) Htodo) as (rps' & Hrest & Hall).
        { rewrite !length_app. cbn. lia. }
        exists (rp :: rps'). split.
        + cbn [mapM]. unfold body at 1. rewrite (bind_Ret _ _ _ _ _ Hitem).
          rewrite fmap_app, app_assoc in Hrest. cbn [fmap list_fmap] in Hrest.
          rewrite (bind_Ret _ _ _ _ _ Hrest). cbn [ret length seq fmap list_fmap].
          rewrite length_app, length_fmap, Hlen. rewrite length_app in *. cbn [length] in *.
          rewrite <- app_assoc. cbn [app].
          replace (length h + (length seen + 1)) with (S (length h + length seen)) by lia.
          done.
        + constructor; [|done]. by exists li, props. }
    destruct (Hloop items [] [] Hitems eq_refl) as (plucked & Hmap & Hall).
    exists plucked. split; [|done].
    cbn [fmap list_fmap length app] in Hmap. rewrite app_nil_r, Nat.add_0_r in Hmap.
    rewrite (bind_Ret _ _ _ _ _ Hmap). rewrite run_alloc.
    rewrite length_app, length_fmap, (Forall2_length _ _ _ Hall), <- app_assoc. done.
Qed.

End Pluck.

(* ===================================================================== *)
(** * [set], [has] and [delete] together *)
(* ===================================================================== *)

Section SetHasDelete.
Context `{Host}.

Lemma to_key_name s n : to_key s = KStr n -> s = n.
Proof. unfold to_key. destruct (array_index s); [done|]. by intros [= ->]. Qed.

Lemma unshadowed_insert h l o :
  unshadowed h ->
  (forall props, o = OMap props -> prop_lookup (KStr "hasOwnProperty") props = None) ->
  unshadowed (<[l := o]> h).
Proof.
  intros Hun Ho l0 props0. destruct (decide (l0 = l)) as [->|Hne].
  - destruct (decide (l < length h)) as [Hlt|Hge].
    + rewrite list_lookup_insert_eq by done. intros [= ->]. by apply Ho.
    + rewrite list_insert_ge by lia. apply Hun.
  - rewrite list_lookup_insert_ne by done. apply Hun.
Qed.

Lemma unshadowed_alloc h : unshadowed h -> unshadowed (h ++ [OMap []]).
Proof.
  intros Hun l props Hl. apply lookup_app_Some in Hl as [Hl|[_ Hl]]; [by eapply Hun|].
  apply list_lookup_singleton_Some in Hl as [_ [= <-]]. done.
Qed.

Lemma set_prop_unshadowed v k x h h' :
  k <> KStr "hasOwnProperty" -> unshadowed h ->
  set_prop v k x h = Ret tt h' -> unshadowed h'.
Proof.
  intros Hk Hun. destruct v as [ | |b|n|s|l]; cbn [set_prop]; try done.
  - unfold no_property. by destruct (inherited _ _).
  - unfold no_property. by destruct (inherited _ _).
  - unfold no_property.
    destruct k as [i|n]; [destruct (i <? String.length s)|destruct (String.eqb n "length")];
      try done; by destruct (inherited _ _).
  - unfold bind, load. destruct (h !! l) as [[items|props|d]|] eqn:Hl; try done.
    + destruct k as [i|n]; [|done].
      destruct (i <? length items); [|destruct (i =? length items); [|done]];
        intros [= <-]; by apply unshadowed_insert.
    + destruct (prop_lookup k props) as [c|] eqn:Hlook.
      * intros [= <-]. apply unshadowed_insert; [done|]. intros props0 [= <-].
        rewrite prop_lookup_replace by eauto. rewrite decide_False by done. by eapply Hun.
      * destruct (inherited ObjectProto k); [done|].
        intros [= <-]. apply unshadowed_insert; [done|]. intros props0 [= <-].
        rewrite prop_lookup_insert by done. rewrite decide_False by done. by eapply Hun.
Qed.

Lemma get_prop_same {v k c h h1} : get_prop v k h = Ret c h1 -> h1 = h.
Proof. intros Hrun. pose proof (reads_only_get_prop v k h) as Hro. by rewrite Hrun in Hro. Qed.

Lemma set_loop_unshadowed keys :
  forall v h c h',
    Forall (fun k => k <> "hasOwnProperty") keys -> unshadowed h ->
    Utils.set_loop keys v h = Ret c h' -> unshadowed h'.
Proof.
  induction keys as [|k keys IH]; intros v h c h' Hall Hun; cbn [Utils.set_loop].
  - by intros [= _ <-].
  - apply Forall_cons in Hall as [Hk Hall]. intros Hrun.
    apply bind_inv in Hrun as (c0 & h1 & Hget & Hrun). apply get_prop_same in Hget as ->.
    apply bind_inv in Hrun as ([] & h2 & Hmake & Hrun).
    apply bind_inv in Hrun as (c1 & h3 & Hget & Hrun). apply get_prop_same in Hget as ->.
    apply (IH _ _ _ _ Hall) in Hrun; [done|].
    destruct (negb (truthy c0)).
    + apply bind_inv in Hmake as (e & h4 & Halloc & Hset). injection Halloc as <- <-.
      apply (set_prop_unshadowed _ _ _ _ _) in Hset; [done| |by apply unshadowed_alloc].
      intros Hk'. by apply to_key_name in Hk'.
    + by injection Hmake as <-.
Qed.

Lemma elem_of_removelast (k : string) keys : k ∈ removelast keys -> k ∈ keys.
Proof.
  induction keys as [|k0 [|k1 keys] IH]; [done| |].
  - cbn. intros Hk. by apply elem_of_nil in Hk.
  - change (removelast (k0 :: k1 :: keys)) with (k0 :: removelast (k1 :: keys)).
    intros Hk. apply elem_of_cons in Hk as [->|Hk]; apply elem_of_cons; [by left|].
    right. by apply IH.
Qed.

Lemma elem_of_last (keys : list string) d : keys <> [] -> List.last keys d ∈ keys.
Proof.
  induction keys as [|k0 [|k1 keys] IH]; [done| |]; intros _.
  - apply elem_of_cons. by left.
  - change (List.last (k0 :: k1 :: keys) d) with (List.last (k1 :: keys) d).
    apply elem_of_cons. right. by apply IH.
Qed.

Lemma set_path_unshadowed keys v x h h' :
  Forall (fun k => k <> "hasOwnProperty") keys -> unshadowed h ->
  set_path keys v x h = Ret tt h' -> unshadowed h'.
Proof.
  intros Hall Hun Hrun. unfold set_path in Hrun.
  apply bind_inv in Hrun as (c & h1 & Hloop & Hset).
  assert (Hun1 : unshadowed h1).
  { apply (set_loop_unshadowed _ _ _ _ _) in Hloop; [done| |done].
    apply Forall_forall. intros k Hk. eapply (proj1 (Forall_forall _ _) Hall).
    by apply elem_of_removelast. }
  apply (set_prop_unshadowed _ _ _ _ _) in Hset; [done| |done].
  intros Hk. apply to_key_name in Hk.
  destruct (decide (keys = [])) as [->|Hne].
  - cbn in Hk. done.
  - eapply (proj1 (Forall_forall _ _) Hall); [|exact Hk]. by apply elem_of_last.
Qed.

Lemma stored_removelast h keys :
  keys <> [] ->
  forall v x, stored h v keys = Some x ->
    exists l props, stored h v (removelast keys) = Some (VRef l)
                    /\ h !! l = Some (OMap props).
Proof.
  induction keys as [|k [|k' keys] IH]; intros Hne v x Hs; [done|..].
  - cbn [stored] in Hs. destruct v as [ | | | | |l]; try done.
    destruct (h !! l) as [[|props|]|] eqn:Hl; try done. by exists l, props.
  - change (removelast (k :: k' :: keys)) with (k :: removelast (k' :: keys)).
    cbn [stored] in Hs |- *. destruct v as [ | | | | |l]; try done.
    destruct (h !! l) as [[|props|]|] eqn:Hl; try done.
    destruct (prop_lookup (to_key k) props) as [c|]; [|done]. by eapply IH.
Qed.

(** [set], [has] and [delete] on the same path, in a store where no
    mapping has an own property [hasOwnProperty]: after [set(obj, path,
    x)], for an [obj] made of keyed mappings, a path that [set] can
    follow ([settable], as for C2: every segment that is no own key of
    the mapping reached is a name that [Object.prototype] does not
    define) without a segment ['hasOwnProperty'], and whatever [x] is,
    [has(obj, path)] is [true]; [delete(obj, path)] then returns
    [true], and after it [has(obj, path)] is [false]. *)
Theorem set_then_has_then_delete h obj t path x
    (Hr : repr h obj t) (Hs : settable t (split "." path) = true)
    (Hun : unshadowed h) (Hp : Forall (fun k => k <> "hasOwnProperty") (split "." path)) :
  exists h' h'',
    Utils.set obj path x h = Ret obj h'
    /\ Utils.has obj path h' = Ret true h'
    /\ Utils.delete obj path h' = Ret true h''
    /\ Utils.has obj path h'' = Ret false h''.
Proof.
  destruct (set_path_stored x _ t obj h Hr Hs) as (h' & Hrun & Hst & _ & _).
  pose proof (set_path_unshadowed _ _ _ _ _ Hp Hun Hrun) as Hun'.
  pose proof (split_not_nil "." path) as Hne.
  assert (Hset : Utils.set obj path x h = Ret obj h').
  { unfold Utils.set. mstep.
    destruct (split "." path) as [|k keys] eqn:Hkeys; [done|].
    cbn [settable] in Hs. destruct t as [ | | | | | |kts| ]; try done.
    inversion Hr as [ | | | | | |l props kts' Hl Hprops| ]; subst.
    msimp. cbv zeta. unfold set_path in Hrun.
    rewrite <- (bind_assoc (Utils.set_loop _ _)
                  (fun current => set_prop current _ x) (fun _ => ret (VRef l))).
    by rewrite (bind_Ret _ _ _ _ _ Hrun). }
  destruct (stored_removelast _ _ Hne _ _ Hst) as (l & props & Hsl & Hl).
  assert (Hobj : Utils.isObject obj h' = Ret true h').
  { destruct (split "." path) as [|k keys]; [done|]. by eapply stored_isObject. }
  set (k := to_key (List.last (split "." path) EmptyString)).
  set (h'' := <[l := OMap (prop_remove k props)]> h').
  assert (Hobj' : Utils.isObject obj h'' = Ret true h'').
  { assert (Harr : is_array h'' obj = is_array h' obj).
    { destruct obj as [ | | | | |lo]; try done. unfold is_array, h''.
      destruct (decide (lo = l)) as [->|Hnel].
      - rewrite list_lookup_insert_eq by by eapply lookup_lt_Some. by rewrite Hl.
      - by rewrite list_lookup_insert_ne by done. }
    pose proof Hobj as Hobj0. rewrite run_isObject in Hobj0. injection Hobj0 as Hobj0.
    by rewrite run_isObject, Harr, Hobj0. }
  exists h', h''. split_and!.
  - done.
  - unfold Utils.has. rewrite (bind_Ret _ _ _ _ _ Hobj). cbn [negb].
    apply has_loop_stored; eauto.
  - unfold Utils.delete. rewrite (bind_Ret _ _ _ _ _ Hobj). cbn [negb].
    rewrite (bind_Ret _ _ _ _ _ (delete_loop_stored _ _ _ _ Hsl eq_refl)).
    by apply run_delete_prop.
  - unfold Utils.has. rewrite (bind_Ret _ _ _ _ _ Hobj'). cbn [negb].
    apply has_loop_lacks; [by apply unshadowed_remove|].
    by apply lacks_after_remove.
Qed.

End SetHasDelete.

(* ===================================================================== *)
(** * [sortBy] on a sorted array *)
(* ===================================================================== *)

Section SortedInput.
Context `{Host}.



End SortedInput.

(* ===================================================================== *)
(** * [sortBy] on columns of one kind *)
(* ===================================================================== *)

Section Columns.
Context `{Host}.

Lemma SFcompare_rank x y :
  x <> NaN -> y <> NaN -> SFcompare x y = Some (lex3 (rank x) (rank y)).
Proof.
  intros Hx Hy. destruct x as [sx|sx| |sx mx ex], y as [sy|sy| |sy my ey]; try done;
    cbn; try (by destruct sx); try (by destruct sy); try (by destruct sx, sy).
  destruct sx, sy; cbn; try done; unfold lex3; cbn.
  rewrite Z.compare_opp. rewrite (Z.compare_antisym ey ex).
  by destruct (ey ?= ex)%Z.
Qed.

Lemma lex3_spec p q :
  match lex3 p q with
  | Eq => p = q
  | Lt => (p.1.1 < q.1.1 \/ p.1.1 = q.1.1 /\ (p.1.2 < q.1.2 \/ p.1.2 = q.1.2 /\ p.2 < q.2))%Z
  | Gt => (q.1.1 < p.1.1 \/ p.1.1 = q.1.1 /\ (q.1.2 < p.1.2 \/ p.1.2 = q.1.2 /\ q.2 < p.2))%Z
  end.
Proof.
  destruct p as [[a b] c], q as [[a' b'] c']. unfold lex3. cbn.
  destruct (Z.compare_spec a a'); [|lia..].
  destruct (Z.compare_spec b b'); [|lia..].
  destruct (Z.compare_spec c c'); [congruence|lia..].
Qed.

Lemma order_on_rank (U : list val) (f : val -> Z * Z * Z) :
  order_on U (fun a b => lex3 (f a) (f b)).
Proof.
  unfold order_on. split_and!.
  - intros a b _ _. pose proof (lex3_spec (f a) (f b)). pose proof (lex3_spec (f b) (f a)).
    destruct (lex3 (f a) (f b)), (lex3 (f b) (f a)); cbn; try done;
      try (rewrite H0 in *; lia); try (rewrite H1 in *; lia); lia.
  - intros a b c _ _ _ Hab Hbc.
    pose proof (lex3_spec (f a) (f b)) as H1. pose proof (lex3_spec (f b) (f c)) as H2.
    pose proof (lex3_spec (f a) (f c)) as H3. rewrite Hab in H1. rewrite Hbc in H2.
    destruct (lex3 (f a) (f c)); [rewrite H3 in *; lia|done|lia].
  - intros a b c _ _ _ Hab Hbc.
    pose proof (lex3_spec (f a) (f b)) as H1. pose proof (lex3_spec (f b) (f c)) as H2.
    pose proof (lex3_spec (f a) (f c)) as H3. rewrite Hab in H1. rewrite Hbc in H2.
    rewrite H1, H2 in *. destruct (lex3 (f c) (f c)); [done|lia..].
  - intros a b c _ _ _ Hab Hbc.
    pose proof (lex3_spec (f a) (f b)) as H1. pose proof (lex3_spec (f b) (f c)) as H2.
    rewrite Hab in H1. rewrite Hbc in H2. by rewrite <- H2.
  - intros a b c _ _ _ Hab Hbc.
    pose proof (lex3_spec (f a) (f b)) as H1. rewrite Hab in H1. by rewrite H1.
Qed.

Lemma order_on_text (U : list val) (f : val -> string) :
  order_on U (fun a b => String.compare (f a) (f b)).
Proof.
  unfold order_on. split_and!.
  - intros a b _ _. apply String.compare_antisym.
  - intros a b c _ _ _ Hab Hbc.
    apply OrderedTypeEx.String_as_OT.cmp_lt in Hab, Hbc.
    apply OrderedTypeEx.String_as_OT.cmp_lt.
    by eapply OrderedTypeEx.String_as_OT.lt_trans.
  - intros a b c _ _ _ Hab Hbc. apply String.compare_eq_iff in Hab. by rewrite Hab.
  - intros a b c _ _ _ Hab Hbc. apply String.compare_eq_iff in Hbc. by rewrite <- Hbc.
  - intros a b c _ _ _ Hab Hbc. apply String.compare_eq_iff in Hab. by rewrite Hab.
Qed.


Lemma order_on_gt U ord :
  order_on U ord ->
  (forall a b c, a ∈ U -> b ∈ U -> c ∈ U -> ord a b = Gt -> ord b c = Gt -> ord a c = Gt)
  /\ (forall a b c, a ∈ U -> b ∈ U -> c ∈ U -> ord a b = Gt -> ord b c = Eq -> ord a c = Gt)
  /\ (forall a b c, a ∈ U -> b ∈ U -> c ∈ U -> ord a b = Eq -> ord b c = Gt -> ord a c = Gt).
Proof.
  intros (Hanti & Htrans & Heq & Hlt_eq & Heq_lt).
  assert (Hflip : forall a b, a ∈ U -> b ∈ U -> forall c, ord a b = c -> ord b a = CompOpp c).
  { intros a b Ha Hb c <-. by apply Hanti. }
  split_and!; intros a b c Ha Hb Hc Hab Hbc;
    apply (Hflip _ _ Ha Hb) in Hab; apply (Hflip _ _ Hb Hc) in Hbc; cbn in Hab, Hbc;
    rewrite (Hanti c a Hc Ha).
  - by rewrite (Htrans c b a).
  - by rewrite (Heq_lt c b a).
  - by rewrite (Hlt_eq c b a).
Qed.

(** A comparison that goes through the keys, each with an order on the
    items, is consistent on them. *)
Lemma compare_keys_lex h items keys : forall orders i,
  Forall (fun k => exists ord, order_on items ord /\
            forall keys' orders i a b, a ∈ items -> b ∈ items ->
              Data.compare_keys (k :: keys') orders i a b h
              = match ord a b with
                | Lt => Ret (if ascending orders i then (-1)%Z else 1%Z) h
                | Gt => Ret (if ascending orders i then 1%Z else (-1)%Z) h
                | Eq => Data.compare_keys keys' orders (S i) a b h
                end) keys ->
  exists f : val -> val -> Z,
    (forall a b, a ∈ items -> b ∈ items ->
       Data.compare_keys keys orders i a b h = Ret (f a b) h)
    /\ (forall a b, a ∈ items -> b ∈ items -> Z.sgn (f b a) = (- Z.sgn (f a b))%Z)
    /\ (forall a b c, a ∈ items -> b ∈ items -> c ∈ items ->
          (f a b <= 0)%Z -> (f b c <= 0)%Z -> (f a c <= 0)%Z).
Proof.
  induction keys as [|k keys IH]; intros orders i Hall.
  - exists (fun _ _ => 0%Z). split_and!; [done|done|lia].
  - apply Forall_cons in Hall as [(ord & Hord & Hstep) Hall].
    destruct (IH orders (S i) Hall) as (f' & Hrun & Hsgn & Htrans).
    pose proof (order_on_gt _ _ Hord) as (Hgt & Hgt_eq & Heq_gt).
    destruct Hord as (Hanti & Hlt & Heq & Hlt_eq & Heq_lt).
    exists (fun a b => match ord a b with
                       | Lt => if ascending orders i then (-1)%Z else 1%Z
                       | Gt => if ascending orders i then 1%Z else (-1)%Z
                       | Eq => f' a b
                       end).
    split_and!.
    + intros a b Ha Hb. rewrite (Hstep keys orders i a b Ha Hb).
      destruct (ord a b); [by apply Hrun|done..].
    + intros a b Ha Hb. rewrite (Hanti a b Ha Hb).
      destruct (ord a b); cbn [CompOpp]; [by apply Hsgn|by destruct (ascending orders i)..].
    + intros a b c Ha Hb Hc.
      destruct (ord a b) eqn:Hab, (ord b c) eqn:Hbc, (ascending orders i) eqn:Hasc;
        try lia; intros H1 H2.
      all: first
        [ rewrite (Heq a b c) by done; exact (Htrans a b c Ha Hb Hc H1 H2)
        | rewrite (Heq_lt a b c) by done; lia
        | rewrite (Hlt_eq a b c) by done; lia
        | rewrite (Hlt a b c) by done; lia
        | rewrite (Heq_gt a b c) by done; lia
        | rewrite (Hgt_eq a b c) by done; lia
        | rewrite (Hgt a b c) by done; lia ].
Qed.

Lemma text_column_order h items k :
  text_column h items k ->
  exists ord, order_on items ord /\
    forall keys' orders i a b, a ∈ items -> b ∈ items ->
      Data.compare_keys (k :: keys') orders i a b h
      = match ord a b with
        | Lt => Ret (if ascending orders i then (-1)%Z else 1%Z) h
        | Gt => Ret (if ascending orders i then 1%Z else (-1)%Z) h
        | Eq => Data.compare_keys keys' orders (S i) a b h
        end.
Proof.
  intros Hcol.
  set (text := fun a => match get_elem a k h with
                        | Ret (VStr s) _ => toLowerCase s
                        | _ => EmptyString
                        end).
  exists (fun a b => String.compare (text a) (text b)). split; [apply order_on_text|].
  intros keys' orders i a b Ha Hb.
  destruct (Hcol a Ha) as (s1 & H1). destruct (Hcol b Hb) as (s2 & H2).
  rewrite (compare_keys_text _ _ _ _ _ _ _ _ _ H1 H2). unfold text. by rewrite H1, H2.
Qed.

Lemma number_column_order h items k :
  number_column h items k ->
  exists ord, order_on items ord /\
    forall keys' orders i a b, a ∈ items -> b ∈ items ->
      Data.compare_keys (k :: keys') orders i a b h
      = match ord a b with
        | Lt => Ret (if ascending orders i then (-1)%Z else 1%Z) h
        | Gt => Ret (if ascending orders i then 1%Z else (-1)%Z) h
        | Eq => Data.compare_keys keys' orders (S i) a b h
        end.
Proof.
  intros Hcol.
  set (num := fun a => match get_elem a k h with
                       | Ret (VNum x) _ => rank x
                       | _ => (0, 0, 0)%Z
                       end).
  exists (fun a b => lex3 (num a) (num b)). split; [apply order_on_rank|].
  intros keys' orders i a b Ha Hb.
  destruct (Hcol a Ha) as (x & H1 & Hx). destruct (Hcol b Hb) as (y & H2 & Hy).
  rewrite (compare_keys_number _ _ _ _ _ _ _ _ _ H1 H2). unfold num. rewrite H1, H2.
  unfold num_ltb, SFltb. rewrite (SFcompare_rank x y Hx Hy), (SFcompare_rank y x Hy Hx).
  pose proof (lex3_spec (rank x) (rank y)) as Hxy.
  pose proof (lex3_spec (rank y) (rank x)) as Hyx.
  destruct (lex3 (rank x) (rank y)), (lex3 (rank y) (rank x)); try done;
    first [ rewrite Hxy in *; lia | rewrite Hyx in *; lia | lia ].
Qed.

Lemma consistent_intro (cmp : val -> val -> option Z) (f : val -> val -> Z) items :
  (forall a b, a ∈ items -> b ∈ items -> cmp a b = Some (f a b)) ->
  (forall a b, a ∈ items -> b ∈ items -> Z.sgn (f b a) = (- Z.sgn (f a b))%Z) ->
  (forall a b c, a ∈ items -> b ∈ items -> c ∈ items ->
     (f a b <= 0)%Z -> (f b c <= 0)%Z -> (f a c <= 0)%Z) ->
  consistent cmp items = true.
Proof.
  intros Hcmp Hsgn Htrans. unfold consistent.
  apply forallb_forall. intros a Ha%list_elem_of_In.
  apply forallb_forall. intros b Hb%list_elem_of_In.
  rewrite (Hcmp a b), (Hcmp b a) by done. apply andb_true_iff. split.
  - apply Z.eqb_eq. by apply Hsgn.
  - apply forallb_forall. intros c Hc%list_elem_of_In. unfold precedes.
    rewrite (Hcmp a b), (Hcmp b c), (Hcmp a c) by done.
    destruct (Z.leb_spec (f a b) 0), (Z.leb_spec (f b c) 0); cbn; try done.
    apply Z.leb_le. by apply (Htrans a b c).
Qed.

Lemma columns_consistent h items keys orders :
  Forall (fun k => text_column h items k \/ number_column h items k) keys ->
  consistent (compared h keys orders) items = true.
Proof.
  intros Hcols.
  destruct (compare_keys_lex h items keys orders 0) as (f & Hrun & Hsgn & Htrans).
  { eapply Forall_impl; [exact Hcols|]. intros k [Hk|Hk];
      [by apply text_column_order|by apply number_column_order]. }
  apply (consistent_intro _ f); [|done..].
  intros a b Ha Hb. unfold compared. by rewrite (Hrun a b Ha Hb).
Qed.


(** [sortBy] on typed columns: for an array without [undefined] elements
    in which, under each key of the key list, either every element holds
    a string or every element holds a number other than [NaN], the
    comparison that [sortBy] makes is consistent, and [sortBy] returns a
    new array that is a permutation of the input, in the order of the
    comparison, with elements that tie in their input order. *)
Theorem sortBy_typed_columns h la items key order
    (Hla : h !! la = Some (OArr items)) (Hno : VUndef ∉ items)
    (Hcols : Forall (fun k => text_column h items k \/ number_column h items k)
               (arg_list h key)) :
  consistent (compared h (arg_list h key) (order_list h order)) items = true
  /\ exists out,
       Data.sortBy (VRef la) key order h = Ret (VRef (length h)) (h ++ [OArr out])
       /\ Permutation items out
       /\ StronglySorted
            (fun a b => precedes (compared h (arg_list h key) (order_list h order)) a b = true)
            out
       /\ (forall a, a ∈ items ->
             filter (fun b => tied (compared h (arg_list h key) (order_list h order)) a b = true)
               out
             = filter (fun b => tied (compared h (arg_list h key) (order_list h order)) a b = true)
                 items).
Proof.
  pose proof (columns_consistent h items _ (order_list h order) Hcols) as Hc.
  split; [done|]. by apply sortBy_sorts.
Qed.

End Columns.

(* ===================================================================== *)
(** * More runs on concrete stores *)
(* ===================================================================== *)

Section Runs.
Import Examples.
Existing Instance es_host.

Lemma sam_heap_unshadowed : unshadowed sam_heap.
Proof. intros [|[|l]] props Hl; inversion Hl; reflexivity. Qed.

Lemma merge_flat_repr : repr merge_flat_heap (VRef 1) (Mapping merge_flat_fields).
Proof.
  repeat first [ eapply repr_seq; [reflexivity|]
               | eapply repr_map; [reflexivity|]
               | constructor ].
Qed.

Lemma escapeHtml_safe_witness :
  Utils.escapeHtml (VNum NaN) = VStr EmptyString
  /\ exists e, Utils.escapeHtml (VStr "<a href='x'>T&C</a>") = VStr e
       /\ forall c, c ∈ units e -> Utils.escaped_class c = true -> c = "&"%char.
Proof.
  split.
  - apply (proj1 (escapeHtml_safe (VNum NaN))). discriminate.
  - exact (proj2 (escapeHtml_safe (VStr "<a href='x'>T&C</a>"))).
Defined.

(** [escapeHtml("<a href='x'>T&C</a>")]. *)
Lemma escapeHtml_scenario :
  Utils.escapeHtml (VStr "<a href='x'>T&C</a>")
  = VStr "&lt;a href&#x3D;&#39;x&#39;&gt;T&amp;C&lt;&#x2F;a&gt;".
Proof. vm_compute. reflexivity. Qed.

Lemma unique_first_occurrences_witness :
  Utils.unique (VRef 0) unique_heap
  = Ret (VRef 1) (unique_heap ++ [OArr [VNum (num_of_nat 1); VNum (num_of_nat 2); VStr "a"]])
  /\ Utils.unique (VStr "ab") unique_heap = Ret (VRef 1) (unique_heap ++ [OArr []]).
Proof.
  split.
  - destruct (proj2 (unique_first_occurrences unique_heap) 0 _ eq_refl)
      as (out & Hrun & -> & _).
    rewrite Hrun. vm_compute. reflexivity.
  - apply (proj1 (unique_first_occurrences unique_heap)). reflexivity.
Defined.

Lemma unique_idempotent_witness :
  exists out,
    (u <- Utils.unique (VRef 0) ;; Utils.unique u) unique_heap
    = Ret (VRef 2) (unique_heap ++ [OArr out; OArr out]).
Proof.
  destruct (unique_idempotent unique_heap 0 _ eq_refl) as (out & _ & Htwice).
  exists out. exact Htwice.
Defined.

(** [unique([1, 2, 1, NaN, 'a', 'a', NaN])] is [[1, 2, 'a']]. *)
Lemma unique_scenario :
  Utils.unique (VRef 0) unique_heap
  = Ret (VRef 1)
      (unique_heap ++ [OArr [VNum (num_of_nat 1); VNum (num_of_nat 2); VStr "a"]]).
Proof. vm_compute. reflexivity. Qed.

Lemma compact_keeps_truthy_and_NaN_witness :
  exists out,
    Utils.compact (VRef 0) compact_heap = Ret (VRef 1) (compact_heap ++ [OArr out])
    /\ VNum NaN ∈ out.
Proof.
  eexists. split.
  - exact (proj2 (compact_keeps_truthy_and_NaN compact_heap) 0 _ eq_refl).
  - vm_compute. repeat constructor.
Defined.

Lemma chunk_pieces_witness :
  exists cs,
    Utils.chunk 6 (VRef 0) (VNum (num_of_nat 2)) chunk_heap
    = Ret (VRef 1) (chunk_heap ++ OArr (VRef <$> seq 2 (length cs)) :: (OArr <$> cs))
    /\ Forall (fun c => 0 < length c <= 2) cs.
Proof.
  destruct (proj2 (chunk_pieces chunk_heap) 6 0 _ (VNum (num_of_nat 2)) 2 eq_refl)
    as (cs & Hrun & _ & Hlen & _).
  - right. eexists. split; [reflexivity|]. split; [vm_compute; reflexivity|lia].
  - cbn. lia.
  - exists cs. split; [exact Hrun|exact Hlen].
Defined.

Lemma chunk_negative_size_witness :
  Utils.chunk 16 (VRef 0) (VNum minus_one) chunk_heap = OutOfFuel.
Proof.
  apply (chunk_negative_size_never_returns 16 chunk_heap 0 _ minus_one 1%positive eq_refl).
  - discriminate.
  - vm_compute. reflexivity.
Defined.

Lemma omit_drops_listed_names_witness :
  Utils.omit (VRef 0) (VRef 1) pick_heap
  = Ret (VRef 2) (pick_heap ++ [OMap [(KStr "b", VNum (num_of_nat 2))]])
  /\ Utils.omit (VRef 0) (VStr "b") pick_heap
     = Ret (VRef 3)
         (pick_heap ++ [OArr [VStr "b"];
                        OMap [(KStr "a", VNum (num_of_nat 1)); (KStr "c", VNum (num_of_nat 3))]])
  /\ Utils.omit (VNum (num_of_nat 1)) (VRef 1) pick_heap
     = Ret (VRef 2) (pick_heap ++ [OMap []]).
Proof.
  destruct (proj2 (omit_drops_listed_names pick_heap) 0 _ eq_refl) as (Harray & Hone & _);
    [vm_compute; reflexivity..|].
  split; [|split].
  - etrans; [exact (Harray 1 _ eq_refl)|]. vm_compute. reflexivity.
  - etrans; [exact (Hone (VStr "b") eq_refl)|]. vm_compute. reflexivity.
  - apply (proj1 (omit_drops_listed_names pick_heap)). reflexivity.
Defined.

Lemma pick_takes_listed_keys_witness :
  (exists rp,
     Utils.pick (VRef 0) (VRef 1) pick_heap = Ret (VRef 2) (pick_heap ++ [OMap rp])
     /\ prop_lookup (KStr "a") rp = Some (VNum (num_of_nat 1))
     /\ prop_lookup (KStr "b") rp = None
     /\ prop_lookup (KStr "c") rp = Some (VNum (num_of_nat 3)))
  /\ (exists rp,
        Utils.pick (VRef 0) (VStr "b") pick_heap
        = Ret (VRef 3) (pick_heap ++ [OArr [VStr "b"]; OMap rp])
        /\ prop_lookup (KStr "a") rp = None
        /\ prop_lookup (KStr "b") rp = Some (VNum (num_of_nat 2)))
  /\ Utils.pick (VNum (num_of_nat 1)) (VRef 1) pick_heap
     = Ret (VRef 2) (pick_heap ++ [OMap []]).
Proof.
  destruct (proj2 (pick_takes_listed_keys pick_heap) 0 _ eq_refl) as [Harray Hone];
    [vm_compute; reflexivity|].
  split; [|split].
  - destruct (Harray 1 _ eq_refl) as (rp & Hrun & Hrp).
    + repeat constructor; vm_compute; eauto.
    + exists rp. split; [exact Hrun|]. rewrite !Hrp. by vm_compute.
  - destruct (Hone (VStr "b") (KStr "b") eq_refl eq_refl) as (rp & Hrun & Hrp).
    exists rp. split; [exact Hrun|]. rewrite !Hrp. by vm_compute.
  - apply (proj1 (pick_takes_listed_keys pick_heap)). reflexivity.
Defined.

Lemma pick_omit_split_witness :
  exists picked omitted,
    Utils.pick (VRef 0) (VRef 1) pick_heap = Ret (VRef 2) (pick_heap ++ [OMap picked])
    /\ Utils.omit (VRef 0) (VRef 1) pick_heap = Ret (VRef 2) (pick_heap ++ [OMap omitted])
    /\ (prop_lookup (KStr "b") picked = Some (VNum (num_of_nat 2))
        /\ prop_lookup (KStr "b") omitted = None
        \/ prop_lookup (KStr "b") picked = None
           /\ prop_lookup (KStr "b") omitted = Some (VNum (num_of_nat 2))).
Proof.
  destruct (pick_omit_split pick_heap 0 _ 1 [VStr "a"; VStr "c"] eq_refl)
    as (picked & omitted & Hpick & Homit & Hsplit).
  - vm_compute. reflexivity.
  - vm_compute. reflexivity.
  - vm_compute. reflexivity.
  - reflexivity.
  - repeat constructor.
  - exists picked, omitted. split; [exact Hpick|]. split; [exact Homit|].
    exact (Hsplit (KStr "b") _ eq_refl).
Defined.

Lemma has_follows_own_keys_witness :
  Utils.has (VRef 1) "user.name" sam_heap = Ret true sam_heap
  /\ Utils.has (VRef 1) "user.age" sam_heap = Ret false sam_heap.
Proof.
  split.
  - apply (proj1 (proj2 (has_follows_own_keys sam_heap (VRef 1) "user.name"
                           sam_heap_unshadowed))).
    vm_compute. eauto.
  - apply (proj1 (proj2 (proj2 (has_follows_own_keys sam_heap (VRef 1) "user.age"
                                  sam_heap_unshadowed)))); reflexivity.
Defined.

Lemma delete_removes_the_property_witness :
  Utils.delete (VRef 1) "user.name" sam_heap
  = Ret true [OMap []; OMap [(KStr "user", VRef 0)]]
  /\ Utils.has (VRef 1) "user.name" [OMap []; OMap [(KStr "user", VRef 0)]]
     = Ret false [OMap []; OMap [(KStr "user", VRef 0)]].
Proof.
  destruct (delete_removes_the_property sam_heap (VRef 1) "user.name" 0 _ eq_refl eq_refl)
    as (Hrun & _ & _ & Hhas).
  split; [exact Hrun|]. apply Hhas. exact sam_heap_unshadowed.
Defined.

Lemma delete_stops_at_falsy_witness :
  Utils.delete (VRef 1) "nobody.name" sam_heap = Ret false sam_heap
  /\ Utils.delete (VStr "Sam") "length" sam_heap = Ret false sam_heap.
Proof.
  split.
  - apply (proj2 (delete_stops_at_falsy sam_heap (VRef 1) "nobody.name")); reflexivity.
  - apply (proj1 (delete_stops_at_falsy sam_heap (VStr "Sam") "length")). reflexivity.
Defined.

Lemma flatten_idempotent_witness :
  (a <- Data.flatten 4 (VRef 2) VUndef ;; Data.flatten 4 a VUndef) flatten_heap
  = Ret (VRef 4) (flatten_heap ++ [OArr (leaves flatten_value); OArr (leaves flatten_value)]).
Proof.
  apply (flatten_idempotent flatten_heap (VRef 2) flatten_value 4).
  - exact flatten_value_repr.
  - vm_compute. reflexivity.
  - cbn. lia.
  - lia.
Defined.


Lemma isEmpty_cases_witness :
  Utils.isEmpty (VStr "  ") [] = Ret true []
  /\ Utils.isEmpty (VNum (S754_zero false)) [] = Ret false [].
Proof.
  split.
  - apply (isEmpty_cases [] (VStr "  ")). exact I.
  - apply (isEmpty_cases [] (VNum (S754_zero false))). exact I.
Defined.

Lemma isEqual_dates_witness :
  Utils.isEqual 2 (VRef 0) (VRef 1) date_heap = Ret true date_heap
  /\ Utils.isEqual 2 (VRef 0) (VRef 2) date_heap = Ret false date_heap.
Proof.
  split.
  - apply (proj1 (proj2 (isEqual_dates date_heap 1 0 1 _ ltac:(lia) eq_refl))). reflexivity.
  - apply (proj2 (proj2 (isEqual_dates date_heap 1 0 2 _ ltac:(lia) eq_refl))). reflexivity.
Defined.

Lemma keyBy_last_wins_witness :
  (exists keyed,
     Utils.keyBy (VRef 3) (VStr "t") group_heap = Ret (VRef 4) (group_heap ++ [OMap keyed])
     /\ prop_lookup (KStr "a") keyed = Some (VRef 2)
     /\ prop_lookup (KStr "b") keyed = Some (VRef 1)
     /\ prop_lookup (KStr "c") keyed = None)
  /\ Utils.keyBy (VStr "ab") (VStr "t") group_heap = Ret (VRef 4) (group_heap ++ [OMap []]).
Proof.
  split.
  - destruct (proj2 (keyBy_last_wins group_heap) 3 _ (VStr "t") (KStr "t") eq_refl eq_refl)
      as (keyed & Hrun & Hkeyed).
    + repeat constructor; vm_compute; eauto.
    + exists keyed. split; [exact Hrun|]. rewrite !Hkeyed. by vm_compute.
  - apply (proj1 (keyBy_last_wins group_heap)). reflexivity.
Defined.



Lemma pipe_composes_witness :
  Data.pipe [fun v => ret (Utils.escapeHtml v); fun v => ret (Utils.unescapeHtml v)]
    (VStr "<b>") []
  = Ret (VStr "<b>") []
  /\ Data.pipe [fun v => ret (Utils.escapeHtml v)] (VStr "<b>") [] = Ret (VStr "&lt;b&gt;") []
  /\ Data.pipe [] (VStr "<b>") [] = Ret (VStr "<b>") [].
Proof.
  destruct (pipe_composes [fun v => ret (Utils.escapeHtml v)]
              [fun v => ret (Utils.unescapeHtml v)] (VStr "<b>") [])
    as (Hnone & Hone & Hboth).
  split; [|split].
  - etrans; [exact Hboth|]. vm_compute. reflexivity.
  - etrans; [exact (Hone _)|]. vm_compute. reflexivity.
  - exact Hnone.
Defined.

Lemma deepMerge_overwrites_flat_values_witness :
  exists lr h' merged,
    Utils.deepMerge 4 (VRef 1) (VRef 3) merge_flat_heap = Ret (VRef lr) h'
    /\ h' !! lr = Some (OMap merged)
    /\ prop_lookup (KStr "c") merged = Some (VRef 2)
    /\ prop_lookup (KStr "d") merged = Some (VNum (num_of_nat 5)).
Proof.
  destruct (deepMerge_overwrites_flat_values merge_flat_heap 1 3 merge_flat_fields
              [(KStr "c", VRef 2); (KStr "d", VNum (num_of_nat 5))] 3 merge_flat_repr)
    as (lr & h' & merged & Hrun & _ & _ & Hlr & Hmerged).
  - vm_compute. reflexivity.
  - cbn. lia.
  - reflexivity.
  - vm_compute. reflexivity.
  - repeat (apply List.Forall_cons; [first [by left; intros [] | by right]|]). apply List.Forall_nil.
  - exists lr, h', merged. split; [exact Hrun|]. split; [exact Hlr|]. split.
    + exact (Hmerged (KStr "c")).
    + exact (Hmerged (KStr "d")).
Defined.

Lemma pluck_takes_listed_keys_witness :
  (exists plucked,
     Data.pluck (VRef 3) [VStr "t"; VStr "u"] group_heap
     = Ret (VRef 7) (group_heap ++ (OMap <$> plucked) ++ [OArr [VRef 4; VRef 5; VRef 6]])
     /\ Forall (fun rp => prop_lookup (KStr "u") rp = None /\ is_Some (prop_lookup (KStr "t") rp))
          plucked)
  /\ Data.pluck (VRef 3) [] group_heap = Ret (VRef 3) group_heap.
Proof.
  destruct (pluck_takes_listed_keys group_heap 3 [VRef 0; VRef 1; VRef 2]
              [VStr "t"; VStr "u"] eq_refl)
    as (Hnone & Hrun).
  - repeat constructor; eexists _, _; (split; [reflexivity|]); split; reflexivity.
  - repeat constructor; vm_compute; eauto.
  - split; [|exact Hnone].
    destruct (Hrun ltac:(discriminate)) as (plucked & Hp & Hall).
    exists plucked. split; [exact Hp|].
    eapply Forall2_Forall_r; [exact Hall|].
    repeat (apply List.Forall_cons;
      [intros rp (li & props & [= <-] & [= <-] & Hrp); rewrite !Hrp; vm_compute; eauto|]).
    apply List.Forall_nil.
Defined.

Lemma set_then_has_then_delete_witness :
  exists h' h'',
    Utils.set (VRef 1) "user.address.city" (VStr "Cairo") sam_heap = Ret (VRef 1) h'
    /\ Utils.has (VRef 1) "user.address.city" h' = Ret true h'
    /\ Utils.delete (VRef 1) "user.address.city" h' = Ret true h''
    /\ Utils.has (VRef 1) "user.address.city" h'' = Ret false h''.
Proof.
  apply (set_then_has_then_delete sam_heap (VRef 1) sam_value "user.address.city"
           (VStr "Cairo")).
  - exact sam_value_repr.
  - vm_compute. reflexivity.
  - exact sam_heap_unshadowed.
  - repeat (apply List.Forall_cons; [discriminate|]). apply List.Forall_nil.
Defined.


(** [truncate('Hello, world', 8)] is ['Hello...'], and with the length
    2, shorter than the suffix, it is ['...']; [pad('ab', 5, 'xy')] is
    ['xyabxyxy'], of eight units. *)
Lemma truncate_pad_scenario :
  Utils.truncate (VStr "Hello, world") (VNum (num_of_nat 8)) VUndef [] = Ret (VStr "Hello...") []
  /\ Utils.truncate (VStr "Hello, world") (VNum (num_of_nat 2)) VUndef [] = Ret (VStr "...") []
  /\ Utils.pad (VStr "ab") (VNum (num_of_nat 7)) VUndef [] = Ret (VStr "  ab   ") []
  /\ Utils.pad (VStr "ab") (VNum (num_of_nat 5)) (VStr "xy") [] = Ret (VStr "xyabxyxy") [].
Proof. vm_compute. repeat split. Qed.

Lemma sortBy_typed_columns_witness :
  consistent (compared sort_heap [VStr "a"; VStr "n"] [VStr "desc"])
    [VRef 0; VRef 1; VRef 2] = true
  /\ exists out,
       Data.sortBy (VRef 3) (VRef 4) (VRef 5) sort_heap = Ret (VRef 6) (sort_heap ++ [OArr out])
       /\ Permutation [VRef 0; VRef 1; VRef 2] out
       /\ StronglySorted
            (fun a b => precedes (compared sort_heap [VStr "a"; VStr "n"] [VStr "desc"]) a b
                        = true) out.
Proof.
  destruct (sortBy_typed_columns sort_heap 3 [VRef 0; VRef 1; VRef 2] (VRef 4) (VRef 5))
    as (Hc & out & Hrun & Hperm & Hsorted & _).
  - reflexivity.
  - apply (bool_decide_unpack (VUndef ∉ [VRef 0; VRef 1; VRef 2])). vm_compute. reflexivity.
  - apply List.Forall_cons; [|apply List.Forall_cons; [|apply List.Forall_nil]].
    + right. intros a Ha.
      repeat (apply elem_of_cons in Ha as [->|Ha]); [| | |by apply elem_of_nil in Ha];
        eexists; (split; [vm_compute; reflexivity|discriminate]).
    + left. intros a Ha.
      repeat (apply elem_of_cons in Ha as [->|Ha]); [| | |by apply elem_of_nil in Ha];
        eexists; vm_compute; reflexivity.
  - split; [exact Hc|]. exists out. split; [exact Hrun|]. split; [exact Hperm|exact Hsorted].
Defined.

End Runs.
